(** * corona-case-upsert: the reconciliation engine

    A shallow embedding of the code-enforcement case sync. Modules are
    named as the imports name them:
    - [parsers/code-enforcement-cases]: record shape, case-number
      validation, content hash, row-to-record loop;
    - [state/tracker]: the [case_state] and [sync_log] tables, change
      detection, bulk upsert, ticket-id cache;
    - [sync/threefold]: ticket lookup and the process-wide
      [searchApiAvailable] flag;
    - [sync/cases-sync]: one sync run;
    - [config]: the process configuration read from the environment;
    - [routes/webhook]: the handler of an inbound email, from the assembled
      email on.

    Strings are byte strings (the UTF-8 encoding of the JavaScript string).
    The PostgreSQL store and the remote ticket API are external: every
    statement and every HTTP call takes its outcome from an environment
    indexed by a logical clock, which advances by one at each of them and
    is what [NOW()] reads. A statement the store rejects changes no row;
    a rejected INSERT into [sync_log] may still have used up a value of the
    [id] sequence, and the environment says whether it has. Console output
    and the delay of [rateLimitedRequest] are left out.

    Three names differ from the source because Rocq has one name space for
    record fields: [ticket_id] is the ticket's [id], [ch_caseNo] and
    [ch_record] are the change's [caseNo] and [record], and [errorCount] is
    the local counter [errors] of a run. *)

From Stdlib Require Import ZArith Ascii String DecimalString.
From stdpp Require Import gmap strings list fin_maps.

Local Open Scope string_scope.
Local Open Scope Z_scope.

(* ===================================================================== *)
(** ** SHA-256 (FIPS 180-4), as used by [crypto.createHash('sha256')] *)
(* ===================================================================== *)

Module SHA256.

Definition mask32 : Z := 0xFFFFFFFF.

(** 32-bit words are [Z] values in [0, 2^32); addition wraps. *)
Definition add32 (a b : Z) : Z := Z.land (a + b) mask32.

Definition rotr (n x : Z) : Z :=
  Z.lor (Z.shiftr x n) (Z.land (Z.shiftl x (32 - n)) mask32).

Definition not32 (x : Z) : Z := Z.lxor x mask32.

Definition Ch (x y z : Z) : Z := Z.lxor (Z.land x y) (Z.land (not32 x) z).

Definition Maj (x y z : Z) : Z :=
  Z.lxor (Z.lxor (Z.land x y) (Z.land x z)) (Z.land y z).

Definition Sigma0 (x : Z) : Z := Z.lxor (Z.lxor (rotr 2 x) (rotr 13 x)) (rotr 22 x).
Definition Sigma1 (x : Z) : Z := Z.lxor (Z.lxor (rotr 6 x) (rotr 11 x)) (rotr 25 x).
Definition sigma0 (x : Z) : Z := Z.lxor (Z.lxor (rotr 7 x) (rotr 18 x)) (Z.shiftr x 3).
Definition sigma1 (x : Z) : Z := Z.lxor (Z.lxor (rotr 17 x) (rotr 19 x)) (Z.shiftr x 10).

(** The round constants are defined as FIPS 180-4 defines them: the first
    32 bits of the fractional parts of the cube roots of the first 64
    primes, and for the initial hash value, of the square roots of the
    first 8 primes. *)
Definition is_prime (n : nat) : bool :=
  forallb (fun d => negb (n mod d =? 0)%nat) (seq 2 (n - 2)).

Definition primes (count : nat) : list Z :=
  map Z.of_nat (take count (List.filter is_prime (seq 2 310))).

(** The largest [r] below [2^bits] with [r^3 <= x], found bit by bit. *)
Definition cube_root (bits : nat) (x : Z) : Z :=
  fold_left (fun r i => let r' := r + Z.shiftl 1 (Z.of_nat i) in
                        if r' * r' * r' <=? x then r' else r)
            (rev (seq 0 bits)) 0.

Definition K : list Z :=
  map (fun p => Z.land (cube_root 36 (Z.shiftl p 96)) mask32) (primes 64).

Definition H0 : list Z :=
  map (fun p => Z.land (Z.sqrt (Z.shiftl p 64)) mask32) (primes 8).

(** Padding: a 0x80 byte, zero bytes up to 56 mod 64, then the bit length
    as a 64-bit big-endian integer. *)
Definition be_bytes (n : nat) (x : Z) : list Z :=
  map (fun i => Z.land (Z.shiftr x (8 * Z.of_nat i)) 0xFF) (rev (seq 0 n)).

Definition pad (msg : list Z) : list Z :=
  let len := length msg in
  let zeros := ((64 - ((len + 9) mod 64)) mod 64)%nat in
  msg ++ [0x80] ++ repeat 0 zeros ++ be_bytes 8 (8 * Z.of_nat len).

Definition word_of_bytes (bs : list Z) : Z :=
  fold_left (fun acc b => Z.lor (Z.shiftl acc 8) b) bs 0.

(** [group n l] cuts [l] into consecutive pieces of [n] elements. *)
Fixpoint group_fuel {A} (fuel n : nat) (l : list A) : list (list A) :=
  match fuel with
  | O => []
  | S fuel' =>
      match l with
      | [] => []
      | _ => take n l :: group_fuel fuel' n (drop n l)
      end
  end.

Definition group {A} (n : nat) (l : list A) : list (list A) :=
  group_fuel (length l) n l.

(** The message schedule, most recent word first while it is built. *)
Definition next_word (ws : list Z) : Z :=
  add32 (add32 (add32 (sigma1 (nth 1 ws 0)) (nth 6 ws 0)) (sigma0 (nth 14 ws 0)))
        (nth 15 ws 0).

Definition schedule (block : list Z) : list Z :=
  rev (Nat.iter 48 (fun ws => next_word ws :: ws) (rev block)).

Record regs := Regs { ra : Z; rb : Z; rc : Z; rd : Z; re : Z; rf : Z; rg : Z; rh : Z }.

Definition round (r : regs) (kw : Z * Z) : regs :=
  let t1 := add32 (add32 (add32 (add32 (rh r) (Sigma1 (re r))) (Ch (re r) (rf r) (rg r)))
                         (fst kw)) (snd kw) in
  let t2 := add32 (Sigma0 (ra r)) (Maj (ra r) (rb r) (rc r)) in
  Regs (add32 t1 t2) (ra r) (rb r) (rc r) (add32 (rd r) t1) (re r) (rf r) (rg r).

Definition regs_of_list (h : list Z) : regs :=
  Regs (nth 0 h 0) (nth 1 h 0) (nth 2 h 0) (nth 3 h 0)
       (nth 4 h 0) (nth 5 h 0) (nth 6 h 0) (nth 7 h 0).

Definition list_of_regs (r : regs) : list Z :=
  [ra r; rb r; rc r; rd r; re r; rf r; rg r; rh r].

Definition compress (h : list Z) (block_bytes : list Z) : list Z :=
  let block := map word_of_bytes (group 4 block_bytes) in
  let r := fold_left round (combine K (schedule block)) (regs_of_list h) in
  zip_with add32 h (list_of_regs r).

Definition digest_words (msg : list Z) : list Z :=
  fold_left compress (group 64 (pad msg)) H0.

Definition hex_digit (n : Z) : ascii :=
  nth (Z.to_nat n)
      (list_ascii_of_string "0123456789abcdef") "0"%char.

Definition hex_of_word (x : Z) : list ascii :=
  map (fun i => hex_digit (Z.land (Z.shiftr x (4 * Z.of_nat i)) 0xF)) (rev (seq 0 8)).

Definition bytes_of_string (s : string) : list Z :=
  map (fun c => Z.of_N (N_of_ascii c)) (list_ascii_of_string s).

(** [createHash('sha256').update(s).digest('hex')] *)
Definition hexdigest (s : string) : string :=
  string_of_list_ascii (concat (map hex_of_word (digest_words (bytes_of_string s)))).

End SHA256.

(* ===================================================================== *)
(** ** JavaScript string helpers *)
(* ===================================================================== *)

(** A string is truthy unless it is empty; [null]/[undefined] are falsy. *)
Definition truthy (o : option string) : bool :=
  match o with
  | Some (String _ _) => true
  | _ => false
  end.

(** [x || null] on a [string | null | undefined] value. *)
Definition or_null (o : option string) : option string :=
  if truthy o then o else None.

(** [x || ''] *)
Definition or_empty (o : option string) : string :=
  match o with
  | Some s => s
  | None => ""
  end.

(** [x ?? ''] *)
Definition nullish_empty (o : option string) : string :=
  match o with
  | Some s => s
  | None => ""
  end.

(** [parts.join(sep)] *)
Fixpoint join (sep : string) (parts : list string) : string :=
  match parts with
  | [] => ""
  | [p] => p
  | p :: rest => p +:+ sep +:+ join sep rest
  end.

(** [s.includes(needle)] *)
Fixpoint includes (needle s : string) : bool :=
  String.prefix needle s ||
  match s with
  | EmptyString => false
  | String _ s' => includes needle s'
  end.

Definition is_digit (c : ascii) : bool :=
  let n := nat_of_ascii c in (48 <=? n)%nat && (n <=? 57)%nat.

Definition is_upper (c : ascii) : bool :=
  let n := nat_of_ascii c in (65 <=? n)%nat && (n <=? 90)%nat.

Definition is_lower (c : ascii) : bool :=
  let n := nat_of_ascii c in (97 <=? n)%nat && (n <=? 122)%nat.

Definition is_letter (c : ascii) : bool := is_upper c || is_lower c.

Fixpoint all_digits (s : string) : bool :=
  match s with
  | EmptyString => true
  | String c s' => is_digit c && all_digits s'
  end.

(* ===================================================================== *)
(** ** Record model ([parsers/code-enforcement-cases]) *)
(* ===================================================================== *)

Record CodeEnforcementCaseRecord := mkRecord {
  caseNo : string;
  caseOpened : option string;
  caseClosed : option string;
  caseType : string;
  caseSubType : string;
  siteAddress : string;
  rawData : gmap string string;
}.

(** [/^C[A-Z]\d{2}-\d+$/.test(caseNo)] *)
Definition isValidCaseNo (caseNo : string) : bool :=
  match caseNo with
  | String c1 (String c2 (String d1 (String d2 (String h (String d3 rest))))) =>
      Ascii.eqb c1 "C" && is_upper c2 && is_digit d1 && is_digit d2
      && Ascii.eqb h "-" && is_digit d3 && all_digits rest
  | _ => false
  end.

Definition hash_content (r : CodeEnforcementCaseRecord) : string :=
  join "|" [caseNo r; nullish_empty (caseOpened r); nullish_empty (caseClosed r)].

Definition generateCaseHash (r : CodeEnforcementCaseRecord) : string :=
  String.substring 0 16 (SHA256.hexdigest (hash_content r)).

Section Parser.

(** [String.prototype.trim] is a language built-in; the parser is stated
    for any implementation of it, and the CSV reader's output (one object
    per data row) is the parser's input here. *)
Variable trim : string -> string.

(** [row.X?.trim()] *)
Definition field_trim (row : gmap string string) (col : string) : option string :=
  trim <$> row !! col.

Fixpoint span_digits (s : string) : string * string :=
  match s with
  | String c s' =>
      if is_digit c then let (ds, r) := span_digits s' in (String c ds, r)
      else (EmptyString, s)
  | EmptyString => (EmptyString, EmptyString)
  end.

(** [dateStr.split(' ')[0]] *)
Fixpoint before_space (s : string) : string :=
  match s with
  | String c s' => if Ascii.eqb c " " then EmptyString else String c (before_space s')
  | EmptyString => EmptyString
  end.

(** [s.padStart(2, '0')] *)
Definition padStart2 (s : string) : string :=
  match String.length s with
  | O => "00"
  | S O => "0" +:+ s
  | _ => s
  end.

Definition normalizeDate (dateStr : option string) : option string :=
  match dateStr with
  | None => None
  | Some s =>
      if negb (truthy (Some s)) || String.eqb (trim s) "" then None
      else
        let datePart := before_space s in
        (* /^(\d{1,2})\/(\d{1,2})\/(\d{4})$/ *)
        let '(month, r1) := span_digits datePart in
        match r1 with
        | String "/" r2 =>
            let '(day, r3) := span_digits r2 in
            match r3 with
            | String "/" year =>
                if (1 <=? String.length month)%nat && (String.length month <=? 2)%nat
                   && (1 <=? String.length day)%nat && (String.length day <=? 2)%nat
                   && (String.length year =? 4)%nat && all_digits year
                then Some (year +:+ "-" +:+ padStart2 month +:+ "-" +:+ padStart2 day)
                else None
            | _ => None
            end
        | _ => None
        end
  end.

Definition buildAddress (row : gmap string string) : string :=
  let addr := field_trim row "SITE_ADDR" in
  let parts := if truthy addr then [or_empty addr] else [] in
  let city := field_trim row "SITE_CITY" in
  let state := field_trim row "SITE_STATE" in
  let zip := field_trim row "SITE_ZIP" in
  let cityStateZip :=
    ((if truthy city then [or_empty city] else [])
     ++ (if truthy state then [or_empty state] else [])
     ++ (if truthy zip && negb (String.eqb (or_empty zip) "0") then [or_empty zip] else []))%list in
  let parts :=
    match cityStateZip with
    | [] => parts
    | _ => (parts ++ [join ", " cityStateZip])%list
    end in
  join ", " parts.

Definition record_of_row (caseNo : string) (row : gmap string string)
  : CodeEnforcementCaseRecord :=
  {| caseNo := caseNo;
     caseOpened := normalizeDate (row !! "STARTED");
     caseClosed := normalizeDate (row !! "CLOSED");
     caseType := or_empty (or_null (field_trim row "CaseType"));
     caseSubType := or_empty (or_null (field_trim row "CaseSubType"));
     siteAddress := buildAddress row;
     rawData := row |}.

(** [row.CASE_NO?.trim() || ''] *)
Definition row_caseNo (row : gmap string string) : string :=
  or_empty (or_null (field_trim row "CASE_NO")).

(** The row loop of [parseCodeEnforcementCasesCsv]: the records kept, in
    order, and the [skipped] counter. *)
Fixpoint parse_rows (rows : list (gmap string string))
         (records : list CodeEnforcementCaseRecord) (skipped : nat)
  : list CodeEnforcementCaseRecord * nat :=
  match rows with
  | [] => (records, skipped)
  | row :: rows' =>
      let caseNo := row_caseNo row in
      if negb (isValidCaseNo caseNo) then parse_rows rows' records (S skipped)
      else parse_rows rows' (records ++ [record_of_row caseNo row])%list skipped
  end.

Definition parseCodeEnforcementCasesCsv (rows : list (gmap string string))
  : list CodeEnforcementCaseRecord * nat :=
  parse_rows rows [] 0%nat.

End Parser.

(* ===================================================================== *)
(** ** Status derivation and the persisted tables ([state/tracker]) *)
(* ===================================================================== *)

Inductive CaseStatus := open | closed.

Definition status_text (s : CaseStatus) : string :=
  match s with
  | open => "open"
  | closed => "closed"
  end.

Definition determineCaseStatus (caseOpened caseClosed : option string) : CaseStatus :=
  if truthy caseOpened && truthy caseClosed then closed else open.

(** One row of [case_state], without its primary key [case_no]: the table
    is a map from [case_no] to the other columns. Timestamps are readings
    of the logical clock. *)
Record CaseStateRow := mkRow {
  case_opened : option string;
  case_closed : option string;
  case_status : string;
  case_type : string;
  case_subtype : string;
  site_address : string;
  raw_data : gmap string string;
  content_hash : string;
  threefold_ticket_id : option Z;
  last_seen_at : nat;
  created_at : nat;
}.

(** One row of [sync_log]. *)
Record SyncLogRow := mkSyncLog {
  sync_type : string;
  started_at : nat;
  completed_at : option nat;
  total_records : nat;
  changed_records : nat;
  errors : nat;
  error_message : option string;
}.

Record CaseStateChange := mkChange {
  ch_caseNo : string;
  ch_record : CodeEnforcementCaseRecord;
  previousHash : option string;
  newHash : string;
  isNew : bool;
  previousOpened : option string;
  previousClosed : option string;
  previousStatus : option string;
  threefoldTicketId : option Z;
}.

(* ===================================================================== *)
(** ** Remote ticket API shapes ([sync/threefold]) *)
(* ===================================================================== *)

(** A custom-field value ([customFields] is a [Record<string, unknown>]):
    a key that is missing from the object reads as [JUndefined]; [JOther]
    stands for any value that is neither a string nor null (a number, a
    boolean, an array, an object) and records only whether it is truthy. *)
Inductive JsValue :=
| JUndefined
| JNull
| JString (s : string)
| JOther (is_truthy : bool).

#[global] Instance JsValue_eq_dec : EqDecision JsValue.
Proof. solve_decision. Defined.

Definition js_truthy (v : JsValue) : bool :=
  match v with
  | JString (String _ _) => true
  | JOther b => b
  | _ => false
  end.

(** A [string | null] as a JavaScript value. *)
Definition js_of_string (o : option string) : JsValue :=
  match o with
  | Some s => JString s
  | None => JNull
  end.

Record TicketWithCustomFields := mkTicket {
  ticket_id : Z;  (* the [id] field *)
  shortId : string;
  title : string;
  description : string;
  address : string;
  priority : string;
  statusId : Z;
  statusName : string;
  ticketTypeId : Z;
  ticketTypeName : string;
  customFields : gmap string JsValue;
  createdAt : string;
  updatedAt : string;
}.

(** [CodeComplianceCustomFields] as an update payload: [None] is a key that
    is not in the object; [case_close_date] may be present and [null]. *)
Record CodeComplianceCustomFields := mkFields {
  cc_case_number : option string;
  last_case_status : option CaseStatus;
  cc_case_opened : option string;
  case_close_date : option (option string);
}.

Definition no_fields : CodeComplianceCustomFields := mkFields None None None None.

(** The HTTP requests the process sends to the ticket API. *)
Inductive RemoteCall :=
| SearchCall (caseNo : string) (limit : nat) (includeClosed : bool)
| GetCall (ticketId : Z)
| UpdateCall (ticketId : Z) (fields : CodeComplianceCustomFields).

Definition is_update (c : RemoteCall) : bool :=
  match c with
  | UpdateCall _ _ => true
  | _ => false
  end.

(** What [fetch] does: it rejects, or it resolves to a response with a
    status, a text body (read when the status is not 2xx) and decoded JSON
    data (read when it is). *)
Inductive HttpReply (A : Type) :=
| NetworkError (msg : string)
| Response (status : nat) (text : string) (data : A).
Arguments NetworkError {A} msg.
Arguments Response {A} status text data.

Definition response_ok (status : nat) : bool :=
  (200 <=? status)%nat && (status <=? 299)%nat.

(** The world outside the process. The outcome of the external operation
    issued at clock tick [t] is read at index [t]: [db_fault t = Some msg]
    makes the store reject that statement (or connection) with [msg].
    [serial_drawn t] tells whether an INSERT rejected at tick [t] had
    already drawn its [id] from the sequence of the SERIAL column:
    PostgreSQL does not give such a value back. *)
Record Env := mkEnv {
  db_fault : nat -> option string;
  search_reply : nat -> HttpReply (list TicketWithCustomFields);
  get_reply : nat -> HttpReply TicketWithCustomFields;
  update_reply : nat -> HttpReply unit;
  serial_drawn : nat -> bool;
}.

(** [config.caseUpdatesEnabled] *)
Record Config := mkConfig { caseUpdatesEnabled : bool }.

(** The state the process reads and writes: both tables, the serial of
    [sync_log.id], the module-level [searchApiAvailable] flag, the logical
    clock and the log of remote requests (oldest first). *)
Record World := mkWorld {
  case_state : gmap string CaseStateRow;
  sync_log : gmap nat SyncLogRow;
  sync_log_seq : nat;
  searchApiAvailable : bool;
  clock : nat;
  calls : list RemoteCall;
}.

Definition set_case_state (cs : gmap string CaseStateRow) (w : World) : World :=
  mkWorld cs (sync_log w) (sync_log_seq w) (searchApiAvailable w) (clock w) (calls w).

Definition set_sync_log (sl : gmap nat SyncLogRow) (seq : nat) (w : World) : World :=
  mkWorld (case_state w) sl seq (searchApiAvailable w) (clock w) (calls w).

Definition set_searchApiAvailable (b : bool) (w : World) : World :=
  mkWorld (case_state w) (sync_log w) (sync_log_seq w) b (clock w) (calls w).

Definition tick (w : World) : World :=
  mkWorld (case_state w) (sync_log w) (sync_log_seq w) (searchApiAvailable w)
          (S (clock w)) (calls w).

Definition log_call (c : RemoteCall) (w : World) : World :=
  mkWorld (case_state w) (sync_log w) (sync_log_seq w) (searchApiAvailable w)
          (clock w) (calls w ++ [c]).

(* ===================================================================== *)
(** ** The monad of the process: state plus thrown errors *)
(* ===================================================================== *)

Record JsError := mkError { message : string }.

Inductive Result (A : Type) :=
| Ok (a : A)
| Throw (e : JsError).
Arguments Ok {A} a.
Arguments Throw {A} e.

Definition M (A : Type) : Type := World -> Result A * World.

Definition ret {A} (a : A) : M A := fun w => (Ok a, w).

Definition throw {A} (e : JsError) : M A := fun w => (Throw e, w).

Definition bind {A B} (m : M A) (k : A -> M B) : M B :=
  fun w =>
    match m w with
    | (Ok a, w') => k a w'
    | (Throw e, w') => (Throw e, w')
    end.

(** [try { m } catch (e) { h e }] *)
Definition try_catch {A} (m : M A) (h : JsError -> M A) : M A :=
  fun w =>
    match m w with
    | (Ok a, w') => (Ok a, w')
    | (Throw e, w') => h e w'
    end.

Declare Scope m_scope.
Delimit Scope m_scope with M.
Notation "x <- m ;; k" := (bind m (fun x => k))
  (at level 100, m at next level, right associativity) : m_scope.
Notation "m ;;; k" := (bind m (fun _ => k))
  (at level 100, right associativity) : m_scope.

Local Open Scope m_scope.

Section Engine.

Variable config : Config.
Variable env : Env.

(* =================================================================== *)
(** *** Store access *)
(* =================================================================== *)

(** One round trip to PostgreSQL: the clock advances, and unless the
    environment makes it fail, [stmt] runs atomically; [NOW()] inside it
    is the tick at which the statement was issued. *)
Definition db_exec {A} (stmt : nat -> World -> Result A * World) : M A :=
  fun w =>
    let now := clock w in
    match db_fault env now with
    | Some msg => (Throw (mkError msg), tick w)
    | None => stmt now (tick w)
    end.

(** [pool.connect()] *)
Definition pool_connect : M unit := db_exec (fun _ w => (Ok tt, w)).

(** A value of the [sync_log.id] sequence is used up without a row. *)
Definition skip_serial (w : World) : World :=
  set_sync_log (sync_log w) (S (sync_log_seq w)) w.

(** [INSERT INTO sync_log (sync_type) VALUES ($1) RETURNING id]. The
    column [id] is a SERIAL: an INSERT that is rejected writes no row, and
    the value it may have drawn from the sequence is not given back. *)
Definition createSyncLog (syncType : string) : M nat :=
  fun w =>
    let now := clock w in
    match db_fault env now with
    | Some msg =>
        (Throw (mkError msg),
         if serial_drawn env now then skip_serial (tick w) else tick w)
    | None =>
        let w1 := tick w in
        let new_id := sync_log_seq w1 in
        let row := mkSyncLog syncType now None 0 0 0 None in
        (Ok new_id, set_sync_log (<[new_id := row]> (sync_log w1)) (S new_id) w1)
    end.

Definition complete_row (now totalRecords changedRecords errs : nat)
           (errorMessage : option string) (r : SyncLogRow) : SyncLogRow :=
  mkSyncLog (sync_type r) (started_at r) (Some now)
            totalRecords changedRecords errs errorMessage.

Definition completeSyncLog (sid totalRecords changedRecords errs : nat)
           (errorMessage : option string) : M unit :=
  db_exec (fun now w =>
    (Ok tt,
     set_sync_log
       (alter (complete_row now totalRecords changedRecords errs errorMessage)
              sid (sync_log w))
       (sync_log_seq w) w)).

(** [new Map()] filled with [deduped.set(record.caseNo, record)]: a key
    that is already there keeps its position and takes the new value. *)
Fixpoint map_set (k : string) (v : CodeEnforcementCaseRecord)
         (m : list (string * CodeEnforcementCaseRecord))
  : list (string * CodeEnforcementCaseRecord) :=
  match m with
  | [] => [(k, v)]
  | (k', v') :: m' =>
      if decide (k = k') then (k, v) :: m' else (k', v') :: map_set k v m'
  end.

(** [Array.from(deduped.values())] after the [for] loop over [records]. *)
Definition dedupe (records : list CodeEnforcementCaseRecord)
  : list CodeEnforcementCaseRecord :=
  map snd (fold_left (fun m r => map_set (caseNo r) r m) records []).

Definition new_change (record : CodeEnforcementCaseRecord) : CaseStateChange :=
  mkChange (caseNo record) record None (generateCaseHash record) true
           None None None None.

Definition changed_change (record : CodeEnforcementCaseRecord)
           (currentState : CaseStateRow) : CaseStateChange :=
  mkChange (caseNo record) record (Some (content_hash currentState))
           (generateCaseHash record) false
           (case_opened currentState) (case_closed currentState)
           (Some (case_status currentState)) (threefold_ticket_id currentState).

(** The "Find changes" loop of [diffCases]. *)
Fixpoint find_changes (currentStates : gmap string CaseStateRow)
         (uniqueRecords : list CodeEnforcementCaseRecord) : list CaseStateChange :=
  match uniqueRecords with
  | [] => []
  | record :: rest =>
      let newHash := generateCaseHash record in
      match currentStates !! caseNo record with
      | None => new_change record :: find_changes currentStates rest
      | Some currentState =>
          if negb (String.eqb (content_hash currentState) newHash)
          then changed_change record currentState :: find_changes currentStates rest
          else find_changes currentStates rest
      end
  end.

(** [SELECT ... FROM case_state WHERE case_no = ANY($1)], collected into
    the [currentStates] map. *)
Definition select_states (caseNos : list string) : M (gmap string CaseStateRow) :=
  db_exec (fun _ w =>
    (Ok (filter (fun kv => kv.1 ∈ caseNos) (case_state w)), w)).

Definition diffCases (records : list CodeEnforcementCaseRecord)
  : M (list CaseStateChange) :=
  let uniqueRecords := dedupe records in
  pool_connect ;;;
  currentStates <- select_states (map caseNo uniqueRecords) ;;
  ret (find_changes currentStates uniqueRecords).

Definition BATCH_SIZE : nat := 1000.

(** One [VALUES] row of the multi-row [INSERT ... ON CONFLICT (case_no) DO
    UPDATE]: a new row takes the column defaults for [threefold_ticket_id]
    (null) and [created_at] ([NOW()]); a conflicting row keeps both. *)
Definition upsert_row (now : nat) (cs : gmap string CaseStateRow)
           (record : CodeEnforcementCaseRecord) : gmap string CaseStateRow :=
  let status := status_text (determineCaseStatus (caseOpened record) (caseClosed record)) in
  let existing := cs !! caseNo record in
  <[caseNo record :=
      mkRow (caseOpened record) (caseClosed record) status
            (caseType record) (caseSubType record) (siteAddress record)
            (rawData record) (generateCaseHash record)
            (existing ≫= threefold_ticket_id)
            now
            (default now (created_at <$> existing))]> cs.

(** The statement for one chunk. PostgreSQL rejects a multi-row upsert
    that names the same key twice. *)
Definition upsert_statement (batch : list CodeEnforcementCaseRecord) : M unit :=
  db_exec (fun now w =>
    if decide (NoDup (map caseNo batch))
    then (Ok tt, set_case_state (fold_left (upsert_row now) batch (case_state w)) w)
    else (Throw (mkError "ON CONFLICT DO UPDATE command cannot affect row a second time"), w)).

(** [for (let i = 0; i < uniqueRecords.length; i += BATCH_SIZE)], one
    iteration per chunk index [0 .. ceil(length / BATCH_SIZE) - 1]. *)
Fixpoint upsert_chunks (uniqueRecords : list CodeEnforcementCaseRecord)
         (chunk_indices : list nat) : M unit :=
  match chunk_indices with
  | [] => ret tt
  | k :: rest =>
      let i := (k * BATCH_SIZE)%nat in
      let batch := take BATCH_SIZE (drop i uniqueRecords) in
      upsert_statement batch ;;;
      upsert_chunks uniqueRecords rest
  end.

Definition totalBatches (n : nat) : nat := ((n + BATCH_SIZE - 1) / BATCH_SIZE)%nat.

Definition upsertCaseState (records : list CodeEnforcementCaseRecord) : M unit :=
  match records with
  | [] => ret tt
  | _ =>
      let uniqueRecords := dedupe records in
      pool_connect ;;;
      upsert_chunks uniqueRecords (seq 0 (totalBatches (length uniqueRecords)))
  end.

Definition set_ticket_id (tk : Z) (r : CaseStateRow) : CaseStateRow :=
  mkRow (case_opened r) (case_closed r) (case_status r)
        (case_type r) (case_subtype r) (site_address r) (raw_data r)
        (content_hash r) (Some tk) (last_seen_at r) (created_at r).

(** [UPDATE case_state SET threefold_ticket_id = $2 WHERE case_no = $1] *)
Definition updateCaseThreefoldId (caseNo : string) (tk : Z) : M unit :=
  db_exec (fun _ w =>
    (Ok tt, set_case_state (alter (set_ticket_id tk) caseNo (case_state w)) w)).

Definition getCaseThreefoldId (caseNo : string) : M (option Z) :=
  db_exec (fun _ w =>
    (Ok (case_state w !! caseNo ≫= threefold_ticket_id), w)).

(* =================================================================== *)
(** *** Remote ticket API *)
(* =================================================================== *)

(** [`${response.status}`] *)
Definition status_string (status : nat) : string :=
  NilEmpty.string_of_uint (Nat.to_uint status).

(** One HTTP round trip: the request is logged, the clock advances and
    the reply comes from the environment. [rateLimitedRequest] only delays
    the request and is left out. A rejected [fetch] throws. *)
Definition fetch {A} (call : RemoteCall) (reply : nat -> HttpReply A)
  : M (nat * string * A) :=
  fun w =>
    let w' := tick (log_call call w) in
    match reply (clock w) with
    | NetworkError msg => (Throw (mkError msg), w')
    | Response status text data => (Ok (status, text, data), w')
    end.

Definition searchTicketsByCustomField (caseNo : string) (limit : nat)
           (includeClosed : bool) : M (list TicketWithCustomFields) :=
  response <- fetch (SearchCall caseNo limit includeClosed) (search_reply env) ;;
  let '(status, text, tickets) := response in
  if negb (response_ok status)
  then throw (mkError ("Failed to search tickets: " +:+ status_string status
                       +:+ " " +:+ text))
  else ret tickets.

Definition getTicketById (ticketId : Z) : M (option TicketWithCustomFields) :=
  response <- fetch (GetCall ticketId) (get_reply env) ;;
  let '(status, text, t) := response in
  if (status =? 404)%nat then ret None
  else if negb (response_ok status)
  then throw (mkError ("Failed to get ticket: " +:+ status_string status
                       +:+ " " +:+ text))
  else ret (Some t).

Definition findTicketByCaseNumber (caseNo : string)
  : M (option TicketWithCustomFields) :=
  fun w =>
    if negb (searchApiAvailable w) then (Ok None, w)
    else
      try_catch
        (tickets <- searchTicketsByCustomField caseNo 1 true ;;
         ret (head tickets))
        (fun error =>
           if includes "405" (message error)
           then fun w' => (Ok None, set_searchApiAvailable false w')
           else throw error)
        w.

Definition updateTicketCustomFields (ticketId : Z)
           (fields : CodeComplianceCustomFields) : M unit :=
  response <- fetch (UpdateCall ticketId fields) (update_reply env) ;;
  let '(status, text, _) := response in
  if negb (response_ok status)
  then throw (mkError ("Failed to update ticket custom fields: "
                       +:+ status_string status +:+ " " +:+ text))
  else ret tt.

(* =================================================================== *)
(** *** One sync run ([sync/cases-sync]) *)
(* =================================================================== *)

(** [existingFields.k || null] *)
Definition field_or_null (existingFields : gmap string JsValue) (k : string)
  : JsValue :=
  let v := default JUndefined (existingFields !! k) in
  if js_truthy v then v else JNull.

Record FieldDiff := mkDiff {
  hasOpenedChange : bool;
  hasClosedChange : bool;
  hasStatusChange : bool;
}.

Definition wantOpened (record : CodeEnforcementCaseRecord) : option string :=
  or_null (caseOpened record).
Definition wantClosed (record : CodeEnforcementCaseRecord) : option string :=
  or_null (caseClosed record).
Definition wantStatus (record : CodeEnforcementCaseRecord) : CaseStatus :=
  determineCaseStatus (caseOpened record) (caseClosed record).

Definition field_diff (record : CodeEnforcementCaseRecord)
           (existingFields : gmap string JsValue) : FieldDiff :=
  let currentOpened := field_or_null existingFields "cc_case_opened" in
  let currentClosed := field_or_null existingFields "case_close_date" in
  let currentStatus := field_or_null existingFields "last_case_status" in
  mkDiff (bool_decide (currentOpened ≠ js_of_string (wantOpened record)))
         (bool_decide (currentClosed ≠ js_of_string (wantClosed record)))
         (bool_decide (currentStatus ≠ JString (status_text (wantStatus record)))).

Definition no_diff (d : FieldDiff) : bool :=
  negb (hasOpenedChange d) && negb (hasClosedChange d) && negb (hasStatusChange d).

(** "Build update payload - only include fields that changed" *)
Definition build_updateFields (record : CodeEnforcementCaseRecord) (d : FieldDiff)
  : CodeComplianceCustomFields :=
  mkFields None
           (if hasStatusChange d then Some (wantStatus record) else None)
           (if hasOpenedChange d && truthy (wantOpened record)
            then wantOpened record else None)
           (if hasClosedChange d then Some (wantClosed record) else None).

Record Counters := mkCounters {
  processed : nat;
  updated : nat;
  notFound : nat;
  noChanges : nat;
  errorCount : nat;  (* the local [errors] *)
}.

Definition inc_processed (c : Counters) : Counters :=
  mkCounters (S (processed c)) (updated c) (notFound c) (noChanges c) (errorCount c).
Definition inc_updated (c : Counters) : Counters :=
  mkCounters (processed c) (S (updated c)) (notFound c) (noChanges c) (errorCount c).
Definition inc_notFound (c : Counters) : Counters :=
  mkCounters (processed c) (updated c) (S (notFound c)) (noChanges c) (errorCount c).
Definition inc_noChanges (c : Counters) : Counters :=
  mkCounters (processed c) (updated c) (notFound c) (S (noChanges c)) (errorCount c).
Definition inc_errors (c : Counters) : Counters :=
  mkCounters (processed c) (updated c) (notFound c) (noChanges c) (S (errorCount c)).

(** [if (change.threefoldTicketId)]: a cached id that is not null and not 0. *)
Definition cached_ticket_id (change : CaseStateChange) : option Z :=
  match threefoldTicketId change with
  | Some tk => if (tk =? 0)%Z then None else Some tk
  | None => None
  end.

(** "Find ticket - use cached ID if available, otherwise search" *)
Definition find_ticket (change : CaseStateChange)
  : M (option TicketWithCustomFields) :=
  match cached_ticket_id change with
  | Some tk =>
      ticket <- getTicketById tk ;;
      match ticket with
      | Some t => ret (Some t)
      | None => findTicketByCaseNumber (ch_caseNo change)
      end
  | None => findTicketByCaseNumber (ch_caseNo change)
  end.

(** The body of the inner [try] for one change; the result is the
    counters after the iteration. *)
Definition process_change (change : CaseStateChange) (c : Counters) : M Counters :=
  if negb (caseUpdatesEnabled config) then ret c
  else
    ticket <- find_ticket change ;;
    match ticket with
    | None => ret (inc_notFound c)
    | Some ticket =>
        let d := field_diff (ch_record change) (customFields ticket) in
        if no_diff d then
          updateCaseThreefoldId (ch_caseNo change) (ticket_id ticket) ;;;
          ret (inc_noChanges c)
        else
          let updateFields := build_updateFields (ch_record change) d in
          updateTicketCustomFields (ticket_id ticket) updateFields ;;;
          updateCaseThreefoldId (ch_caseNo change) (ticket_id ticket) ;;;
          ret (inc_updated c)
    end.

(** [for (const change of changes) { processed++; try {...} catch { errors++ } }] *)
Fixpoint process_changes (changes : list CaseStateChange) (c : Counters)
  : M Counters :=
  match changes with
  | [] => ret c
  | change :: rest =>
      let c1 := inc_processed c in
      c2 <- try_catch (process_change change c1) (fun _ => ret (inc_errors c1)) ;;
      process_changes rest c2
  end.

Definition zero_counters : Counters := mkCounters 0 0 0 0 0.

(** The body of the outer [try]. *)
Definition sync_body (syncId : nat) (records : list CodeEnforcementCaseRecord)
  : M unit :=
  changes <- diffCases records ;;
  match changes with
  | [] =>
      upsertCaseState records ;;;
      completeSyncLog syncId (length records) 0 0 None
  | _ =>
      c <- process_changes changes zero_counters ;;
      upsertCaseState records ;;;
      completeSyncLog syncId (length records) (updated c) (errorCount c) None
  end.

Definition processCasesSync (records : list CodeEnforcementCaseRecord) : M unit :=
  syncId <- createSyncLog "cases" ;;
  try_catch (sync_body syncId records)
    (fun err =>
       completeSyncLog syncId (length records) 0 1 (Some (message err)) ;;;
       throw err).

End Engine.

Local Close Scope m_scope.

(* ===================================================================== *)
(** ** Scenarios *)
(* ===================================================================== *)

(** Store up, ticket API answering every search with no ticket, every
    fetch-by-id with 404 and every update with 200. *)
Definition quiet_env : Env :=
  mkEnv (fun _ => None)
        (fun _ => Response 200 "" [])
        (fun _ => Response 404 "" (mkTicket 0 "" "" "" "" "" 0 "" 0 "" ∅ "" ""))
        (fun _ => Response 200 "" tt)
        (fun _ => false).

Definition empty_world : World := mkWorld ∅ ∅ 1 true 0 [].

Definition ticket_with (tk : Z) (fields : list (string * JsValue))
  : TicketWithCustomFields :=
  mkTicket tk "" "" "" "" "" 0 "" 0 "" (list_to_map fields) "" "".

Definition rec_dates (no : string) (o c : option string) : CodeEnforcementCaseRecord :=
  mkRecord no o c "CODE ENFORCEMENT" "" "" ∅.

(** Ticket 7 carries case CE24-0001 as opened and still open. *)
Definition ticket7 : TicketWithCustomFields :=
  ticket_with 7 [("cc_case_number", JString "CE24-0001");
                 ("cc_case_opened", JString "2025-01-01");
                 ("last_case_status", JString "open")].

(** Every search finds ticket 7, every fetch-by-id returns it. *)
Definition ticket7_env : Env :=
  mkEnv (fun _ => None)
        (fun _ => Response 200 "" [ticket7])
        (fun _ => Response 200 "" ticket7)
        (fun _ => Response 200 "" tt)
        (fun _ => false).

(** The store accepts the first statement and rejects every later one. *)
Definition store_goes_down_env : Env :=
  mkEnv (fun t => if (t =? 0)%nat then None else Some "Connection terminated unexpectedly")
        (fun _ => Response 200 "" [])
        (fun _ => Response 404 "" ticket7)
        (fun _ => Response 200 "" tt)
        (fun _ => false).

(** The search endpoint answers 500 with a body that mentions 1405. *)
Definition search_500_env : Env :=
  mkEnv (fun _ => None)
        (fun _ => Response 500 "upstream timeout, request 1405" [])
        (fun _ => Response 404 "" ticket7)
        (fun _ => Response 200 "" tt)
        (fun _ => false).

Definition opened_only : CodeEnforcementCaseRecord :=
  rec_dates "CE24-0001" (Some "2025-01-01") None.

Definition opened_and_closed : CodeEnforcementCaseRecord :=
  rec_dates "CE24-0001" (Some "2025-01-01") (Some "2025-02-01").

Definition updates_on : Config := mkConfig true.

(** The world after a first delivery of [opened_only] with no ticket found,
    and after a second delivery that closes the case and finds ticket 7. *)
Definition world_after_first : World :=
  (processCasesSync updates_on quiet_env [opened_only] empty_world).2.

Definition world_after_second : World :=
  (processCasesSync updates_on ticket7_env [opened_only; opened_and_closed]
                    world_after_first).2.

(** ASCII-only [trim], for running the parser on examples. *)
Fixpoint trim_left (s : string) : string :=
  match s with
  | String c s' => if Ascii.eqb c " " then trim_left s' else s
  | EmptyString => EmptyString
  end.

Definition ascii_trim (s : string) : string :=
  let rev_string s := string_of_list_ascii (rev (list_ascii_of_string s)) in
  rev_string (trim_left (rev_string (trim_left s))).

(* ===================================================================== *)
(** ** Primitive effects

    Every way the process changes the world is one of these; a run is a
    sequence of them, and frame properties are invariants of the
    sequence. *)
(* ===================================================================== *)

Inductive Effect :=
| ETick
| EUpsert (now : nat) (record : CodeEnforcementCaseRecord)
| ELink (caseNo : string) (tk : Z)
| ESyncCreate (now : nat) (syncType : string)
| ESyncComplete (sid now total changed errs : nat) (msg : option string)
| ECall (c : RemoteCall)
| EDisableSearch
| ESkipSerial.

Definition apply_effect (e : Effect) (w : World) : World :=
  match e with
  | ETick => tick w
  | EUpsert now r => set_case_state (upsert_row now (case_state w) r) w
  | ELink k tk => set_case_state (alter (set_ticket_id tk) k (case_state w)) w
  | ESyncCreate now ty =>
      set_sync_log (<[sync_log_seq w := mkSyncLog ty now None 0 0 0 None]> (sync_log w))
                   (S (sync_log_seq w)) w
  | ESyncComplete sid now total changed errs msg =>
      set_sync_log (alter (complete_row now total changed errs msg) sid (sync_log w))
                   (sync_log_seq w) w
  | ECall c => log_call c w
  | EDisableSearch => set_searchApiAvailable false w
  | ESkipSerial => skip_serial w
  end.

Definition run_effects (effs : list Effect) (w : World) : World :=
  fold_left (fun w e => apply_effect e w) effs w.

(** [traced A m]: whatever [m] returns, the world it leaves is reached by
    effects that all satisfy [A]. *)
Definition traced {X} (A : Effect -> Prop) (m : M X) : Prop :=
  forall w, exists effs, (m w).2 = run_effects effs w /\ Forall A effs.

(* ===================================================================== *)
(** ** Vocabulary of the statements *)
(* ===================================================================== *)

(** A date is present when it holds a value: [null] and the empty string
    both count as "no value", as in the field comparison. *)
Definition present (d : option string) : Prop :=
  exists s, d = Some s /\ s <> "".

(** The strings the regular expression of [isValidCaseNo] accepts. *)
Definition case_no_shape (s : string) : Prop :=
  exists c d1 d2 suffix,
    s = String "C" (String c (String d1 (String d2 (String "-" suffix))))
    /\ is_upper c = true /\ is_digit d1 = true /\ is_digit d2 = true
    /\ suffix <> "" /\ all_digits suffix = true.

(** The shape in the specification's words: two letters, two digits, a
    hyphen and a non-empty numeric suffix. *)
Definition two_letters_shape (s : string) : Prop :=
  exists l1 l2 d1 d2 suffix,
    s = String l1 (String l2 (String d1 (String d2 (String "-" suffix))))
    /\ is_letter l1 = true /\ is_letter l2 = true
    /\ is_digit d1 = true /\ is_digit d2 = true
    /\ suffix <> "" /\ all_digits suffix = true.

(** The null-normalised remote values and the desired values that the
    reconciliation compares. *)
Definition remoteOpened (t : TicketWithCustomFields) : JsValue :=
  field_or_null (customFields t) "cc_case_opened".
Definition remoteClosed (t : TicketWithCustomFields) : JsValue :=
  field_or_null (customFields t) "case_close_date".
Definition remoteStatus (t : TicketWithCustomFields) : JsValue :=
  field_or_null (customFields t) "last_case_status".
Definition desiredOpened (r : CodeEnforcementCaseRecord) : JsValue :=
  js_of_string (wantOpened r).
Definition desiredClosed (r : CodeEnforcementCaseRecord) : JsValue :=
  js_of_string (wantClosed r).
Definition desiredStatus (r : CodeEnforcementCaseRecord) : JsValue :=
  JString (status_text (wantStatus r)).

(** Null-normalisation in the specification's words, "absent/empty treated
    uniformly as no value": [None] is "no value". A remote custom field has
    no value when its key is missing or it holds [undefined], [null], the
    empty string, or a number or boolean that JavaScript counts as false;
    otherwise its value is what it holds. *)
Definition normalised_remote (fields : gmap string JsValue) (k : string)
  : option JsValue :=
  match fields !! k with
  | Some (JString (String c s)) => Some (JString (String c s))
  | Some (JOther true) => Some (JOther true)
  | _ => None
  end.

(** A desired date has no value when it is [null] or the empty string. *)
Definition normalised_date (d : option string) : option string :=
  match d with
  | Some (String c s) => Some (String c s)
  | _ => None
  end.

(** The derived status in the specification's words: closed when both
    dates have a value, open otherwise. *)
Definition desired_status (r : CodeEnforcementCaseRecord) : CaseStatus :=
  match normalised_date (caseOpened r), normalised_date (caseClosed r) with
  | Some _, Some _ => closed
  | _, _ => open
  end.

(** The normalised remote value differs from the normalised desired one. *)
Definition date_differs (fields : gmap string JsValue) (k : string)
           (d : option string) : Prop :=
  normalised_remote fields k <> (JString <$> normalised_date d).

Definition status_differs (fields : gmap string JsValue)
           (r : CodeEnforcementCaseRecord) : Prop :=
  normalised_remote fields "last_case_status"
  <> Some (JString (status_text (desired_status r))).

(** [row] holds what the bulk upsert writes for [r]. *)
Definition reflects (r : CodeEnforcementCaseRecord) (row : CaseStateRow) : Prop :=
  case_opened row = caseOpened r
  /\ case_closed row = caseClosed r
  /\ case_status row = status_text (determineCaseStatus (caseOpened r) (caseClosed r))
  /\ case_type row = caseType r
  /\ case_subtype row = caseSubType r
  /\ site_address row = siteAddress r
  /\ raw_data row = rawData r
  /\ content_hash row = generateCaseHash r.

(** [r] is the last record of [records] with its case number. *)
Definition last_occurrence (r : CodeEnforcementCaseRecord)
           (records : list CodeEnforcementCaseRecord) : Prop :=
  exists before after,
    records = (before ++ r :: after)%list /\ caseNo r ∉ map caseNo after.

(** Classes of effects: what each layer of the engine may do. *)
Definition clock_effect (e : Effect) : Prop :=
  match e with
  | ETick => True
  | _ => False
  end.

Definition sync_log_effect (e : Effect) : Prop :=
  match e with
  | ETick | ESyncCreate _ _ | ESyncComplete _ _ _ _ _ _ | ESkipSerial => True
  | _ => False
  end.

Definition upsert_effect (records : list CodeEnforcementCaseRecord) (e : Effect) : Prop :=
  match e with
  | ETick => True
  | EUpsert _ r => r ∈ dedupe records
  | _ => False
  end.

Definition store_effect (records : list CodeEnforcementCaseRecord) (e : Effect) : Prop :=
  match e with
  | ETick | ESyncCreate _ _ | ESyncComplete _ _ _ _ _ _ | ESkipSerial => True
  | EUpsert _ r => r ∈ dedupe records
  | _ => False
  end.

Definition link_effect (e : Effect) : Prop :=
  match e with
  | ETick | ELink _ _ => True
  | _ => False
  end.

Definition remote_effect (e : Effect) : Prop :=
  match e with
  | ETick | ECall _ | EDisableSearch => True
  | _ => False
  end.

Definition reconcile_effect (e : Effect) : Prop :=
  match e with
  | ETick | ECall _ | EDisableSearch | ELink _ _ => True
  | _ => False
  end.

Definition run_effect (records : list CodeEnforcementCaseRecord) (e : Effect) : Prop :=
  match e with
  | EUpsert _ r => r ∈ dedupe records
  | _ => True
  end.

(** [r] is stored, as written by an upsert at tick [t0] or later. *)
Definition stored_since (t0 : nat) (cs : gmap string CaseStateRow)
           (r : CodeEnforcementCaseRecord) : Prop :=
  exists row, cs !! caseNo r = Some row /\ reflects r row /\ (t0 <= last_seen_at row)%nat.

(* ===================================================================== *)
(** ** Process configuration ([config]) *)
(* ===================================================================== *)

(** [process.env] is a map from variable names to strings. *)
Definition requireEnv (penv : gmap string string) (name : string) : Result string :=
  if truthy (penv !! name) then Ok (or_empty (penv !! name))
  else Throw (mkError ("Missing required environment variable: " +:+ name)).

Definition optionalEnv (penv : gmap string string) (name defaultValue : string) : string :=
  if truthy (penv !! name) then or_empty (penv !! name) else defaultValue.

(** The [config] object; [port] is kept as the text given to [parseInt]. *)
Record ProcessConfig := mkProcessConfig {
  portText : string;
  nodeEnv : string;
  databaseUrl : string;
  threefoldApiUrl : string;
  threefoldApiToken : string;
  threefoldOrgId : string;
  cfg_caseUpdatesEnabled : bool;
}.

(** The module body of [config]: the properties are evaluated in order, and
    the first [requireEnv] that throws aborts the load. *)
Definition load_config (penv : gmap string string) : Result ProcessConfig :=
  let port := optionalEnv penv "PORT" "3000" in
  let node := optionalEnv penv "NODE_ENV" "development" in
  match requireEnv penv "DATABASE_URL" with
  | Throw e => Throw e
  | Ok db =>
      match requireEnv penv "THREEFOLD_API_URL" with
      | Throw e => Throw e
      | Ok url =>
          match requireEnv penv "THREEFOLD_API_TOKEN" with
          | Throw e => Throw e
          | Ok token =>
              match requireEnv penv "THREEFOLD_ORG_ID" with
              | Throw e => Throw e
              | Ok org =>
                  Ok (mkProcessConfig port node db url token org
                        (String.eqb (optionalEnv penv "CASE_UPDATES_ENABLED" "true")
                                    "true"))
              end
          end
      end
  end.

(** The part of the configuration the sync run reads. *)
Definition run_config (c : ProcessConfig) : Config :=
  mkConfig (cfg_caseUpdatesEnabled c).

(* ===================================================================== *)
(** ** More vocabulary *)
(* ===================================================================== *)

Definition is_hex_digit (c : ascii) : bool :=
  let n := nat_of_ascii c in
  is_digit c || ((97 <=? n)%nat && (n <=? 102)%nat).

Fixpoint all_hex (s : string) : bool :=
  match s with
  | EmptyString => true
  | String c s' => is_hex_digit c && all_hex s'
  end.

(** [YYYY-MM-DD]: four digits, a hyphen, two digits, a hyphen, two digits. *)
Definition iso_date_shape (s : string) : Prop :=
  exists y m d,
    s = y +:+ "-" +:+ m +:+ "-" +:+ d
    /\ String.length y = 4%nat /\ String.length m = 2%nat /\ String.length d = 2%nat
    /\ all_digits y = true /\ all_digits m = true /\ all_digits d = true.

(** [M/D/YYYY] with one or two digits for month and day. *)
Definition mdy_shape (s month day year : string) : Prop :=
  s = month +:+ "/" +:+ day +:+ "/" +:+ year
  /\ all_digits month = true /\ all_digits day = true /\ all_digits year = true
  /\ (1 <= String.length month <= 2)%nat
  /\ (1 <= String.length day <= 2)%nat
  /\ String.length year = 4%nat.

(** The non-blank trimmed address components, in the order they are
    written; a ZIP of "0" is left out. *)
Definition address_components (trim : string -> string) (row : gmap string string)
  : list string :=
  let keep (o : option string) := if truthy o then [or_empty o] else [] in
  let zip := field_trim trim row "SITE_ZIP" in
  (keep (field_trim trim row "SITE_ADDR")
   ++ keep (field_trim trim row "SITE_CITY")
   ++ keep (field_trim trim row "SITE_STATE")
   ++ (if String.eqb (or_empty zip) "0" then [] else keep zip))%list.

(** The character "|" does not occur in [s]. *)
Fixpoint no_bar (s : string) : bool :=
  match s with
  | EmptyString => true
  | String c s' => negb (Ascii.eqb c "|") && no_bar s'
  end.

(** The variables [config] requires, in the order it reads them. *)
Definition required_variables : list string :=
  ["DATABASE_URL"; "THREEFOLD_API_URL"; "THREEFOLD_API_TOKEN"; "THREEFOLD_ORG_ID"].

(** The requests a run may send for a batch with the case numbers [keys]:
    a search names a case number of the batch, asks for one result and
    includes closed tickets; an update never sets [cc_case_number]. *)
Definition batch_call (keys : list string) (c : RemoteCall) : Prop :=
  match c with
  | SearchCall k limit includeClosed =>
      k ∈ keys /\ limit = 1%nat /\ includeClosed = true
  | GetCall _ => True
  | UpdateCall _ fields => cc_case_number fields = None
  end.

(** Effects of a ticket lookup whose requests satisfy [P]. *)
Definition call_effect (P : RemoteCall -> Prop) (e : Effect) : Prop :=
  match e with
  | ETick | EDisableSearch => True
  | ECall c => P c
  | _ => False
  end.

(** Effects of reconciling changes with the case numbers [keys]. *)
Definition reconcile_effect_on (keys : list string) (e : Effect) : Prop :=
  match e with
  | ETick | EDisableSearch => True
  | ECall c => batch_call keys c
  | ELink k _ => k ∈ keys
  | _ => False
  end.

(** Effects of a whole run on [records]. *)
Definition run_effect_on (records : list CodeEnforcementCaseRecord) (e : Effect) : Prop :=
  match e with
  | EUpsert _ r => r ∈ dedupe records
  | ELink k _ => k ∈ map caseNo records
  | ECall c => batch_call (map caseNo records) c
  | _ => True
  end.

(** [cs] has the rows of [cs0] with their cached ticket id and creation
    time, and any further row has no cached ticket id. *)
Definition links_kept (cs0 cs : gmap string CaseStateRow) : Prop :=
  forall k,
    match cs0 !! k with
    | Some old =>
        exists row, cs !! k = Some row
                    /\ threefold_ticket_id row = threefold_ticket_id old
                    /\ created_at row = created_at old
    | None => forall row, cs !! k = Some row -> threefold_ticket_id row = None
    end.

(** The sum of the four outcome counters of a run. *)
Definition outcomes (c : Counters) : nat :=
  (updated c + notFound c + noChanges c + errorCount c)%nat.

(** The number of update requests in a request log. *)
Definition update_count (cs : list RemoteCall) : nat :=
  length (List.filter is_update cs).

(** Two records agree on the fields that enter the content hash. *)
Definition same_fingerprint_fields (r1 r2 : CodeEnforcementCaseRecord) : Prop :=
  caseNo r1 = caseNo r2 /\ caseOpened r1 = caseOpened r2 /\ caseClosed r1 = caseClosed r2.

(** Two rows differ at most in [last_seen_at]. *)
Definition same_but_last_seen (row1 row2 : CaseStateRow) : Prop :=
  row2 = mkRow (case_opened row1) (case_closed row1) (case_status row1)
               (case_type row1) (case_subtype row1) (site_address row1)
               (raw_data row1) (content_hash row1) (threefold_ticket_id row1)
               (last_seen_at row2) (created_at row1).

(** Effects of a run after its [sync_log] row [sid] was created: no other
    row is created, the serial is not touched, and only row [sid] is
    completed. *)
Definition own_log_effect (sid : nat) (e : Effect) : Prop :=
  match e with
  | ESyncCreate _ _ | ESkipSerial => False
  | ESyncComplete sid' _ _ _ _ _ => sid' = sid
  | _ => True
  end.

(** The consecutive pieces of [BATCH_SIZE] records the bulk upsert cuts a
    deduplicated batch into. *)
Definition batches (U : list CodeEnforcementCaseRecord)
  : list (list CodeEnforcementCaseRecord) :=
  map (fun k => take BATCH_SIZE (drop (k * BATCH_SIZE) U))
      (seq 0 (totalBatches (length U))).

(** The case of [opened_only] as delivered again with another subtype and
    address, and the same dates. *)
Definition opened_only_moved : CodeEnforcementCaseRecord :=
  mkRecord "CE24-0001" (Some "2025-01-01") None
           "CODE ENFORCEMENT" "FENCE" "12 MAIN ST, CORONA, CA" ∅.

Definition is_search (c : RemoteCall) : bool :=
  match c with
  | SearchCall _ _ _ => true
  | _ => false
  end.

(** Effects that send no search request. *)
Definition no_search_effect (e : Effect) : Prop :=
  match e with
  | ECall c => is_search c = false
  | _ => True
  end.

(** The search is off in [w], and [w] has the search requests of [w0]. *)
Definition search_off_since (w0 w : World) : Prop :=
  searchApiAvailable w = false
  /\ List.filter is_search (calls w) = List.filter is_search (calls w0).

(** [m] keeps [I], whether it returns or throws. *)
Definition preserves {A} (I : World -> Prop) (m : M A) : Prop :=
  forall w, I w -> I (m w).2.

(* ===================================================================== *)
(** ** The inbound-email handler ([routes/webhook]) *)
(* ===================================================================== *)

(** The email as assembled from the multipart fields and files when the
    form parser finishes. Text is held as its UTF-8 bytes. *)
Record Attachment := mkAttachment {
  filename : string;
  content : string;
  contentType : string;
}.

Record ParsedEmail := mkEmail {
  email_from : string;
  email_to : string;
  subject : string;
  attachments : list Attachment;
}.

(** The three JSON answers of the [finish] handler. *)
Inductive WebhookReply :=
| ReplyIgnored   (* 200 { success: true, message: 'Ignored - ...' } *)
| ReplySuccess   (* 200 { success: true } *)
| ReplyFailed.   (* 500 { error: 'Failed to process email' } *)

Definition reply_status (r : WebhookReply) : nat :=
  match r with
  | ReplyIgnored | ReplySuccess => 200
  | ReplyFailed => 500
  end.

(** [s.endsWith(suffix)] *)
Definition endsWith (suffix s : string) : bool :=
  let n := String.length s in
  let m := String.length suffix in
  (m <=? n)%nat && String.eqb (String.substring (n - m) m s) suffix.

(** U+FEFF in UTF-8. *)
Definition BOM : string :=
  String (ascii_of_nat 239) (String (ascii_of_nat 187) (String (ascii_of_nat 191) "")).

(** [csvContent.replace(/^\uFEFF/, '')] *)
Definition strip_bom (s : string) : string :=
  if String.prefix BOM s then String.substring 3 (String.length s - 3) s else s.

(** [cleanContent.replace(/\x00/g, '')] *)
Fixpoint strip_nul (s : string) : string :=
  match s with
  | EmptyString => EmptyString
  | String c s' => if Ascii.eqb c Ascii.zero then strip_nul s' else String c (strip_nul s')
  end.

Definition is_csv (a : Attachment) : bool := endsWith ".csv" (filename a).

Section Webhook.

Local Open Scope m_scope.

(** [String.prototype.trim], [String.prototype.toLowerCase] and the CSV
    reader (with the options the parser passes; it throws on input it cannot
    read) are taken as given. *)
Variable trim : string -> string.
Variable toLowerCase : string -> string.
Variable csv_parse : string -> Result (list (gmap string string)).
Variable config : Config.
Variable env : Env.

(** [parseCodeEnforcementCasesCsv] from the text of an attachment. *)
Definition parse_csv_text (csvContent : string) : M (list CodeEnforcementCaseRecord) :=
  fun w =>
    let sanitized := strip_nul (strip_bom csvContent) in
    match csv_parse sanitized with
    | Ok rows => (Ok (parseCodeEnforcementCasesCsv trim rows).1, w)
    | Throw e => (Throw e, w)
    end.

Definition isCaseEmail (email : ParsedEmail) : bool :=
  let subjectLower := toLowerCase (subject email) in
  let filenameLower :=
    join " " (map (fun a => toLowerCase (filename a)) (attachments email)) in
  includes "code_enforcement_cases" subjectLower
  || includes "code enforcement cases" subjectLower
  || includes "code_enforcement_cases" filenameLower
  || includes "code enforcement cases" filenameLower.

(** [for (const attachment of email.attachments) { ... }] *)
Fixpoint process_attachments (atts : list Attachment) : M unit :=
  match atts with
  | [] => ret tt
  | attachment :: rest =>
      if negb (endsWith ".csv" (filename attachment)) then process_attachments rest
      else
        cases <- parse_csv_text (content attachment) ;;
        processCasesSync config env cases ;;;
        process_attachments rest
  end.

(** The [finish] handler: the reply it sends. *)
Definition on_finish (email : ParsedEmail) : M WebhookReply :=
  try_catch
    (if negb (isCaseEmail email) then ret ReplyIgnored
     else
       process_attachments (attachments email) ;;;
       ret ReplySuccess)
    (fun _ => ret ReplyFailed).

Local Close Scope m_scope.

End Webhook.

(** Effects that concern validated case numbers only. *)
Definition valid_case_effect (e : Effect) : Prop :=
  match e with
  | EUpsert _ r => isValidCaseNo (caseNo r) = true
  | ELink k _ => isValidCaseNo k = true
  | ECall (SearchCall k _ _) => isValidCaseNo k = true
  | _ => True
  end.

(** The world keeps to validated case numbers beyond what [w0] holds:
    every row and every search request is one of [w0] or names a validated
    case number. *)
Definition only_valid_since (w0 w : World) : Prop :=
  (forall k, is_Some (case_state w !! k) ->
             is_Some (case_state w0 !! k) \/ isValidCaseNo k = true)
  /\ (forall k limit incl,
         SearchCall k limit incl ∈ calls w ->
         SearchCall k limit incl ∈ calls w0 \/ isValidCaseNo k = true).

(** A reader that accepts every text as one row per line holding the case
    number, for running the handler on examples. *)
Definition one_column_reader (text : string) : Result (list (gmap string string)) :=
  Ok [{[ "CASE_NO" := text ]}].

(** ASCII-only [toLowerCase], for running the handler on examples. *)
Definition ascii_lower (s : string) : string :=
  string_of_list_ascii
    (map (fun c => if is_upper c then ascii_of_nat (nat_of_ascii c + 32) else c)
         (list_ascii_of_string s)).

Definition cases_email (name text : string) : ParsedEmail :=
  mkEmail "trakit@example.org" "sync@example.org" "Code Enforcement Cases"
          [mkAttachment name text "text/csv"].

(** The store executes every statement issued at tick [t0] or later. *)
Definition healthy_from (env : Env) (t0 : nat) : Prop :=
  forall t, (t0 <= t)%nat -> db_fault env t = None.

(** [m] returns whenever the store is healthy from its start on. *)
Definition returns_when_healthy {A} (env : Env) (m : M A) : Prop :=
  forall w, healthy_from env (clock w) ->
            exists x w', m w = (Ok x, w') /\ (clock w <= clock w')%nat.

(** The store is up; every request to the remote API fails on the network. *)
Definition remote_down_env : Env :=
  mkEnv (fun _ => None)
        (fun _ => NetworkError "fetch failed")
        (fun _ => NetworkError "fetch failed")
        (fun _ => NetworkError "fetch failed")
        (fun _ => false).

(** The store rejects every statement, after the INSERT into [sync_log]
    has drawn its id. *)
Definition store_rejects_after_draw_env : Env :=
  mkEnv (fun _ => Some "could not extend file: No space left on device")
        (fun _ => Response 200 "" [])
        (fun _ => Response 404 "" ticket7)
        (fun _ => Response 200 "" tt)
        (fun _ => true).

(** The search endpoint is not available: it answers 405 to every search. *)
Definition search_405_env : Env :=
  mkEnv (fun _ => None)
        (fun _ => Response 405 "Method Not Allowed" [])
        (fun _ => Response 404 "" ticket7)
        (fun _ => Response 200 "" tt)
        (fun _ => false).

(* ===================================================================== *)
(** * Properties *)
(* ===================================================================== *)

(** ** Known answers *)

Example round_constants :
  take 2 SHA256.H0 = [0x6a09e667; 0xbb67ae85]
  /\ last SHA256.H0 = Some 0x5be0cd19
  /\ take 4 SHA256.K = [0x428a2f98; 0x71374491; 0xb5c0fbcf; 0xe9b5dba5]
  /\ last SHA256.K = Some 0xc67178f2
  /\ length SHA256.K = 64%nat.
Proof. vm_compute. repeat split; reflexivity. Qed.

Example sha256_abc :
  SHA256.hexdigest "abc"
  = "ba7816bf8f01cfea414140de5dae2223b00361a396177a9cb410ff61f20015ad".
Proof. vm_compute. reflexivity. Qed.

Example sha256_empty :
  SHA256.hexdigest ""
  = "e3b0c44298fc1c149afbf4c8996fb92427ae41e4649b934ca495991b7852b855".
Proof. vm_compute. reflexivity. Qed.

Example sha256_two_blocks :
  SHA256.hexdigest "aaaaaaaaaaaaaaaaaaaaaaaaaaaaaaaaaaaaaaaaaaaaaaaaaaaaaaaaaaaaaaaa"
  = "ffe054fe7ae0cb6dc65c3af9b61d5209f439851db43d0ba5997337df154668eb".
Proof. vm_compute. reflexivity. Qed.

Example hash_new_case :
  generateCaseHash (mkRecord "CE24-0001" (Some "2025-01-01") None "" "" "" ∅)
  = "c4526f255a598d93".
Proof. vm_compute. reflexivity. Qed.

Example valid_examples :
  isValidCaseNo "CE22-1639" = true /\ isValidCaseNo "CC25-0774" = true
  /\ isValidCaseNo "CE22-" = false /\ isValidCaseNo "XE22-1639" = false.
Proof. vm_compute. auto. Qed.

(** ** Effect traces *)

Section Traced.

Context {X Y : Type}.
Implicit Types A B : Effect -> Prop.

Lemma run_effects_app (effs1 effs2 : list Effect) w :
  run_effects (effs1 ++ effs2)%list w = run_effects effs2 (run_effects effs1 w).
Proof. unfold run_effects. apply fold_left_app. Qed.

Lemma traced_ret A (x : X) : traced A (ret x).
Proof. intros w. exists []. split; [reflexivity | constructor]. Qed.

Lemma traced_throw A e : traced A (@throw X e).
Proof. intros w. exists []. split; [reflexivity | constructor]. Qed.

Lemma traced_bind A (m : M X) (k : X -> M Y) :
  traced A m -> (forall x, traced A (k x)) -> traced A (bind m k).
Proof.
  intros Hm Hk w. unfold bind.
  destruct (Hm w) as (e1 & Hw1 & HA1).
  destruct (m w) as [[x | err] w1] eqn:E; simpl in Hw1.
  - destruct (Hk x w1) as (e2 & Hw2 & HA2).
    exists (e1 ++ e2)%list. rewrite run_effects_app, <- Hw1, Hw2.
    split; [reflexivity | by apply Forall_app].
  - exists e1. simpl. split; assumption.
Qed.

Lemma traced_try_catch A (m : M X) (h : JsError -> M X) :
  traced A m -> (forall e, traced A (h e)) -> traced A (try_catch m h).
Proof.
  intros Hm Hh w. unfold try_catch.
  destruct (Hm w) as (e1 & Hw1 & HA1).
  destruct (m w) as [[x | err] w1] eqn:E; simpl in Hw1.
  - exists e1. simpl. split; assumption.
  - destruct (Hh err w1) as (e2 & Hw2 & HA2).
    exists (e1 ++ e2)%list. rewrite run_effects_app, <- Hw1, Hw2.
    split; [reflexivity | by apply Forall_app].
Qed.

Lemma traced_weaken A B (m : M X) :
  (forall e, A e -> B e) -> traced A m -> traced B m.
Proof.
  intros HAB Hm w. destruct (Hm w) as (effs & Hw & HA).
  exists effs. split; [assumption |]. eapply Forall_impl; eauto.
Qed.

(** An invariant of every allowed effect is an invariant of the run. *)
Lemma traced_invariant A (I : World -> Prop) (m : M X) w :
  traced A m ->
  (forall e w0, A e -> I w0 -> I (apply_effect e w0)) ->
  I w -> I (m w).2.
Proof.
  intros Hm Hstep HI. destruct (Hm w) as (effs & -> & HA).
  clear Hm. revert w HI. induction HA as [| e effs He _ IH]; intros w HI.
  - exact HI.
  - simpl. apply IH. by apply Hstep.
Qed.

End Traced.

(* ===================================================================== *)
(** ** Record model *)
(* ===================================================================== *)

Lemma truthy_present d : truthy d = true <-> present d.
Proof.
  unfold present. split.
  - destruct d as [[| c s] |]; simpl; try discriminate.
    intros _. exists (String c s). split; [reflexivity | discriminate].
  - intros (s & -> & Hs). destruct s; [congruence | reflexivity].
Qed.

(** C6. The derived status is [closed] exactly when both the opened date
    and the closed date are present (hold a non-empty value), and [open] in
    every other combination: both absent, only the opened date, only the
    closed date. *)
Theorem determineCaseStatus_closed_iff_both_present (o c : option string) :
  (determineCaseStatus o c = closed <-> present o /\ present c)
  /\ (determineCaseStatus o c = open <-> ~ (present o /\ present c))
  /\ determineCaseStatus None None = open
  /\ determineCaseStatus None c = open
  /\ determineCaseStatus o None = open.
Proof.
  unfold determineCaseStatus.
  rewrite <- !truthy_present.
  destruct (truthy o) eqn:Ho, (truthy c) eqn:Hc; simpl;
    repeat split; try congruence; try tauto;
    try (intros [? ?]; congruence); try (intros ? [? ?]; congruence);
    try (intros H; exfalso; apply H; split; congruence).
  all: destruct o as [[|? ?]|]; simpl in *; congruence.
Qed.

Example status_examples :
  determineCaseStatus (Some "2025-01-01") (Some "2025-02-01") = closed
  /\ determineCaseStatus (Some "2025-01-01") None = open
  /\ determineCaseStatus None (Some "2025-02-01") = open
  /\ determineCaseStatus (Some "") (Some "2025-02-01") = open.
Proof. repeat split. Qed.

(** C5. Two records that agree on case number, opened date and closed date
    have the same content hash, whatever their other fields; the hash is
    the first 16 hexadecimal digits of the SHA-256 digest of
    [caseNo|caseOpened|caseClosed], a fixed function of those three
    values. *)
Theorem generateCaseHash_depends_only_on_identity_and_dates
        (r1 r2 : CodeEnforcementCaseRecord) :
  caseNo r1 = caseNo r2 ->
  caseOpened r1 = caseOpened r2 ->
  caseClosed r1 = caseClosed r2 ->
  generateCaseHash r1 = generateCaseHash r2
  /\ generateCaseHash r1
     = String.substring 0 16
         (SHA256.hexdigest
            (caseNo r1 +:+ "|" +:+ nullish_empty (caseOpened r1)
             +:+ "|" +:+ nullish_empty (caseClosed r1))).
Proof.
  intros Hno Ho Hc. unfold generateCaseHash, hash_content.
  rewrite Hno, Ho, Hc. split; reflexivity.
Qed.

Lemma generateCaseHash_witness :
  generateCaseHash (mkRecord "CE24-0001" (Some "2025-01-01") None "CODE ENFORCEMENT" "WEEDS" "1 Main St" ∅)
  = generateCaseHash (mkRecord "CE24-0001" (Some "2025-01-01") None "ZONING" "" "" {[ "CaseType" := "ZONING" ]})
  /\ generateCaseHash (mkRecord "CE24-0001" (Some "2025-01-01") None "CODE ENFORCEMENT" "WEEDS" "1 Main St" ∅)
     = "c4526f255a598d93".
Proof.
  destruct (generateCaseHash_depends_only_on_identity_and_dates
              (mkRecord "CE24-0001" (Some "2025-01-01") None "CODE ENFORCEMENT" "WEEDS" "1 Main St" ∅)
              (mkRecord "CE24-0001" (Some "2025-01-01") None "ZONING" "" "" {[ "CaseType" := "ZONING" ]})
              eq_refl eq_refl eq_refl) as [H1 H2].
  split; [exact H1 | rewrite H2; vm_compute; reflexivity].
Defined.

Lemma isValidCaseNo_shape (s : string) :
  isValidCaseNo s = true <-> case_no_shape s.
Proof.
  unfold case_no_shape. split.
  - destruct s as [| c1 [| c2 [| d1 [| d2 [| h [| d3 rest]]]]]]; simpl; try discriminate.
    rewrite !andb_true_iff.
    intros [[[[[[H1 H2] H3] H4] H5] H6] H7].
    apply Ascii.eqb_eq in H1, H5. subst c1 h.
    exists c2, d1, d2, (String d3 rest).
    repeat split; try assumption; try discriminate.
    simpl. by rewrite H6, H7.
  - intros (c & d1 & d2 & suffix & -> & Hc & Hd1 & Hd2 & Hne & Hall).
    destruct suffix as [| d3 rest]; [congruence |].
    simpl in Hall. apply andb_true_iff in Hall as [H6 H7].
    simpl. by rewrite Hc, Hd1, Hd2, H6, H7.
Qed.

(* ===================================================================== *)
(** ** Deduplication *)
(* ===================================================================== *)

Section Dedupe.

Implicit Types (r v : CodeEnforcementCaseRecord) (k : string).
Implicit Types (records : list CodeEnforcementCaseRecord).
Implicit Types (m : list (string * CodeEnforcementCaseRecord)).

Lemma map_set_keys k v m :
  (map_set k v m).*1 = if decide (k ∈ m.*1) then m.*1 else (m.*1 ++ [k])%list.
Proof.
  induction m as [| [k1 v1] m IH].
  - reflexivity.
  - cbn [map_set]. destruct (decide (k = k1)) as [-> | Hne].
    + clear IH. rewrite !fmap_cons. cbn [fst].
      destruct (decide (k1 ∈ k1 :: m.*1)) as [Hin | Hin];
        [reflexivity | exfalso; apply Hin; constructor].
    + rewrite !fmap_cons, IH. cbn [fst].
      destruct (decide (k ∈ m.*1)) as [Hin | Hin];
        destruct (decide (k ∈ k1 :: m.*1)) as [Hin' | Hin']; try reflexivity.
      * exfalso. apply Hin'. by constructor.
      * exfalso. apply elem_of_cons in Hin' as [? | ?]; [congruence | done].
Qed.

Lemma map_set_NoDup k v m : NoDup m.*1 -> NoDup (map_set k v m).*1.
Proof.
  intros Hnd. rewrite map_set_keys. case_decide as Hin; [assumption |].
  apply NoDup_app. repeat split; [assumption | | apply NoDup_singleton].
  intros x Hx Hx'. apply list_elem_of_singleton in Hx'. by subst.
Qed.

Lemma elem_of_map_set k v m k' v' :
  NoDup m.*1 ->
  (k', v') ∈ map_set k v m <-> (k' = k /\ v' = v) \/ (k' <> k /\ (k', v') ∈ m).
Proof.
  induction m as [| [k1 v1] m IH]; simpl; intros Hnd.
  - rewrite list_elem_of_singleton. split.
    + intros [= -> ->]. by left.
    + intros [[-> ->] | [_ H]]; [reflexivity | by apply elem_of_nil in H].
  - apply NoDup_cons in Hnd as [Hk1 Hnd].
    destruct (decide (k = k1)) as [-> | Hne].
    + rewrite !elem_of_cons. split.
      * intros [[= -> ->] | Hin]; [by left |].
        right. split; [| by right].
        intros ->. apply Hk1. apply list_elem_of_fmap. by exists (k1, v').
      * intros [[-> ->] | [Hne [[= ? ?] | Hin]]]; [by left | congruence | by right].
    + rewrite !elem_of_cons, (IH Hnd). split.
      * intros [[= -> ->] | [[-> ->] | [Hne' Hin]]].
        -- right. split; [congruence | by left].
        -- by left.
        -- right. split; [assumption | by right].
      * intros [[-> ->] | [Hne' [[= -> ->] | Hin]]].
        -- right. by left.
        -- by left.
        -- right. right. by split.
Qed.

Lemma last_occurrence_snoc v records r :
  last_occurrence v (records ++ [r])
  <-> v = r \/ (caseNo v <> caseNo r /\ last_occurrence v records).
Proof.
  unfold last_occurrence. split.
  - intros (before & after & Heq & Hnot).
    destruct after as [| x after' _] using rev_ind.
    + left. apply app_inj_tail in Heq as [_ ->]. reflexivity.
    + right.
      replace (before ++ v :: after' ++ [x])%list
        with ((before ++ v :: after') ++ [x])%list in Heq
        by (by rewrite <- app_assoc).
      apply app_inj_tail in Heq as [-> ->].
      rewrite map_app, elem_of_app in Hnot. simpl in Hnot.
      split.
      * intros Heq. apply Hnot. right. rewrite Heq. constructor.
      * exists before, after'. split; [reflexivity | tauto].
  - intros [-> | [Hne (before & after & -> & Hnot)]].
    + exists records, []. split; [reflexivity | apply not_elem_of_nil].
    + exists before, (after ++ [r])%list. split.
      * by rewrite <- app_assoc.
      * rewrite map_app, elem_of_app. simpl.
        intros [? | Hin]; [done |].
        apply list_elem_of_singleton in Hin. done.
Qed.

Lemma last_occurrence_nil v : ~ last_occurrence v [].
Proof. intros ([| ? ?] & after & Heq & _); discriminate. Qed.

Lemma dedupe_fold_spec records :
  let m := fold_left (fun m r => map_set (caseNo r) r m) records [] in
  NoDup m.*1
  /\ forall k v, (k, v) ∈ m <-> k = caseNo v /\ last_occurrence v records.
Proof.
  induction records as [| r records IH] using rev_ind; simpl.
  - split; [constructor |]. intros k v. split.
    + intros H. by apply elem_of_nil in H.
    + intros [_ H]. by apply last_occurrence_nil in H.
  - rewrite fold_left_app. simpl. destruct IH as [Hnd Hspec].
    split; [by apply map_set_NoDup |].
    intros k v. rewrite (elem_of_map_set _ _ _ _ _ Hnd), Hspec, last_occurrence_snoc.
    split.
    + intros [[-> ->] | (Hne & -> & Hlast)].
      * split; [reflexivity | by left].
      * split; [reflexivity | right; by split].
    + intros [-> [-> | [Hne Hlast]]].
      * by left.
      * right. by repeat split.
Qed.

Lemma elem_of_dedupe r records :
  r ∈ dedupe records <-> last_occurrence r records.
Proof.
  unfold dedupe. destruct (dedupe_fold_spec records) as [_ Hspec].
  rewrite list_elem_of_fmap. split.
  - intros ([k v] & -> & Hin). apply Hspec in Hin. tauto.
  - intros Hlast. exists (caseNo r, r). split; [reflexivity |].
    apply Hspec. by split.
Qed.

Lemma dedupe_keys records :
  map caseNo (dedupe records)
  = (fold_left (fun m r => map_set (caseNo r) r m) records []).*1.
Proof.
  unfold dedupe. destruct (dedupe_fold_spec records) as [_ Hspec].
  rewrite map_map. apply map_ext_in. intros [k v] Hin.
  apply list_elem_of_In, Hspec in Hin. simpl. by destruct Hin as [-> _].
Qed.

Lemma dedupe_NoDup records : NoDup (map caseNo (dedupe records)).
Proof. rewrite dedupe_keys. apply dedupe_fold_spec. Qed.

Lemma dedupe_subseteq r records : r ∈ dedupe records -> r ∈ records.
Proof.
  rewrite elem_of_dedupe. intros (before & after & -> & _).
  apply elem_of_app. right. constructor.
Qed.

Lemma last_occurrence_exists k records :
  k ∈ map caseNo records ->
  exists r, caseNo r = k /\ last_occurrence r records.
Proof.
  induction records as [| r records IH] using rev_ind.
  - intros H. by apply elem_of_nil in H.
  - rewrite map_app, elem_of_app. simpl. intros Hin.
    destruct (decide (caseNo r = k)) as [Heq | Hne].
    + exists r. split; [assumption |]. apply last_occurrence_snoc. by left.
    + destruct Hin as [Hin | Hin].
      * destruct (IH Hin) as (r0 & Hr0 & Hlast). exists r0.
        split; [assumption |]. apply last_occurrence_snoc. right.
        split; [congruence | assumption].
      * apply list_elem_of_singleton in Hin. congruence.
Qed.

Lemma dedupe_covers k records :
  k ∈ map caseNo (dedupe records) <-> k ∈ map caseNo records.
Proof.
  split.
  - intros Hin. apply list_elem_of_fmap in Hin as (r & -> & Hr).
    apply list_elem_of_fmap. exists r. split; [reflexivity |].
    by apply dedupe_subseteq.
  - intros Hin. destruct (last_occurrence_exists _ _ Hin) as (r & <- & Hlast).
    apply list_elem_of_fmap. exists r. split; [reflexivity |].
    by apply elem_of_dedupe.
Qed.

Lemma NoDup_keys_inj (l : list CodeEnforcementCaseRecord) r1 r2 :
  NoDup (map caseNo l) -> r1 ∈ l -> r2 ∈ l -> caseNo r1 = caseNo r2 -> r1 = r2.
Proof.
  induction l as [| x l IH]; simpl; intros Hnd H1 H2 Heq.
  - by apply elem_of_nil in H1.
  - apply NoDup_cons in Hnd as [Hx Hnd].
    apply elem_of_cons in H1 as [-> | H1], H2 as [-> | H2].
    + reflexivity.
    + exfalso. apply Hx. rewrite Heq. apply list_elem_of_fmap. by exists r2.
    + exfalso. apply Hx. rewrite <- Heq. apply list_elem_of_fmap. by exists r1.
    + by apply IH.
Qed.

Lemma dedupe_inj records r1 r2 :
  r1 ∈ dedupe records -> r2 ∈ dedupe records -> caseNo r1 = caseNo r2 -> r1 = r2.
Proof. apply NoDup_keys_inj, dedupe_NoDup. Qed.

End Dedupe.

(* ===================================================================== *)
(** ** What each operation may do to the world *)
(* ===================================================================== *)

Ltac effect_cases :=
  let e := fresh "e" in
  intros e; destruct e; simpl; try tauto.

Section EngineTraces.

Variable config : Config.
Variable env : Env.
Implicit Types (records : list CodeEnforcementCaseRecord).

Lemma traced_db_exec {X} (A : Effect -> Prop) (stmt : nat -> World -> Result X * World) :
  A ETick ->
  (forall now w, exists effs, (stmt now w).2 = run_effects effs w /\ Forall A effs) ->
  traced A (db_exec env stmt).
Proof.
  intros Htick Hstmt w. unfold db_exec.
  destruct (db_fault env (clock w)).
  - exists [ETick]. split; [reflexivity | by repeat constructor].
  - destruct (Hstmt (clock w) (tick w)) as (effs & Heq & HA).
    exists (ETick :: effs). split; [exact Heq | by constructor].
Qed.

Lemma traced_pool_connect : traced clock_effect (pool_connect env).
Proof.
  apply traced_db_exec; [exact I |].
  intros now w. exists []. split; [reflexivity | constructor].
Qed.

Lemma traced_createSyncLog ty : traced sync_log_effect (createSyncLog env ty).
Proof.
  intros w. unfold createSyncLog.
  destruct (db_fault env (clock w)); [destruct (serial_drawn env (clock w)) |].
  - exists [ETick; ESkipSerial]. split; [reflexivity | by repeat constructor].
  - exists [ETick]. split; [reflexivity | by repeat constructor].
  - exists [ETick; ESyncCreate (clock w) ty].
    split; [reflexivity | by repeat constructor].
Qed.

Lemma traced_completeSyncLog sid total changed errs msg :
  traced sync_log_effect (completeSyncLog env sid total changed errs msg).
Proof.
  apply traced_db_exec; [exact I |].
  intros now w. exists [ESyncComplete sid now total changed errs msg].
  split; [reflexivity | by repeat constructor].
Qed.

Lemma traced_select_states caseNos : traced clock_effect (select_states env caseNos).
Proof.
  apply traced_db_exec; [exact I |].
  intros now w. exists []. split; [reflexivity | constructor].
Qed.

Lemma traced_diffCases records : traced clock_effect (diffCases env records).
Proof.
  unfold diffCases.
  apply traced_bind; [apply traced_pool_connect | intros _].
  apply traced_bind; [apply traced_select_states | intros states].
  apply traced_ret.
Qed.

Lemma fold_upsert_effects now (batch : list CodeEnforcementCaseRecord) w :
  set_case_state (fold_left (upsert_row now) batch (case_state w)) w
  = run_effects (map (EUpsert now) batch) w.
Proof.
  revert w. induction batch as [| r batch IH]; intros w; simpl.
  - by destruct w.
  - rewrite <- IH. reflexivity.
Qed.

Lemma traced_upsert_statement records batch :
  batch ⊆ dedupe records ->
  traced (upsert_effect records) (upsert_statement env batch).
Proof.
  intros Hsub. apply traced_db_exec; [exact I |].
  intros now w. case_decide.
  - exists (map (EUpsert now) batch). split.
    + simpl. apply fold_upsert_effects.
    + apply Forall_forall. intros e He.
      apply list_elem_of_fmap in He as (r & -> & Hr). simpl. by apply Hsub.
  - exists []. split; [reflexivity | constructor].
Qed.

Lemma traced_upsert_chunks records idxs :
  traced (upsert_effect records) (upsert_chunks env (dedupe records) idxs).
Proof.
  induction idxs as [| k idxs IH]; simpl.
  - apply traced_ret.
  - apply traced_bind; [| intros _; exact IH].
    apply traced_upsert_statement.
    intros r Hr. apply elem_of_take in Hr as (i & Hr & _).
    rewrite lookup_drop in Hr. by eapply list_elem_of_lookup_2.
Qed.

Lemma traced_upsertCaseState records :
  traced (upsert_effect records) (upsertCaseState env records).
Proof.
  unfold upsertCaseState. destruct records as [| r0 records'].
  - apply traced_ret.
  - apply traced_bind.
    + eapply traced_weaken; [| apply traced_pool_connect]. effect_cases.
    + intros _. apply traced_upsert_chunks.
Qed.

Lemma traced_updateCaseThreefoldId k tk :
  traced link_effect (updateCaseThreefoldId env k tk).
Proof.
  apply traced_db_exec; [exact I |].
  intros now w. exists [ELink k tk]. split; [reflexivity | by repeat constructor].
Qed.

Lemma traced_fetch {X} c (reply : nat -> HttpReply X) : traced remote_effect (fetch c reply).
Proof.
  intros w. exists [ECall c; ETick]. unfold fetch. split.
  - by destruct (reply (clock w)).
  - by repeat constructor.
Qed.

Lemma traced_searchTicketsByCustomField k limit incl :
  traced remote_effect (searchTicketsByCustomField env k limit incl).
Proof.
  unfold searchTicketsByCustomField.
  apply traced_bind; [apply traced_fetch | intros [[status text] tickets]].
  destruct (negb (response_ok status)); [apply traced_throw | apply traced_ret].
Qed.

Lemma traced_getTicketById tk : traced remote_effect (getTicketById env tk).
Proof.
  unfold getTicketById.
  apply traced_bind; [apply traced_fetch | intros [[status text] t]].
  destruct (status =? 404)%nat; [apply traced_ret |].
  destruct (negb (response_ok status)); [apply traced_throw | apply traced_ret].
Qed.

Lemma traced_updateTicketCustomFields tk fields :
  traced remote_effect (updateTicketCustomFields env tk fields).
Proof.
  unfold updateTicketCustomFields.
  apply traced_bind; [apply traced_fetch | intros [[status text] u]].
  destruct (negb (response_ok status)); [apply traced_throw | apply traced_ret].
Qed.

Lemma traced_findTicketByCaseNumber k :
  traced remote_effect (findTicketByCaseNumber env k).
Proof.
  intros w. unfold findTicketByCaseNumber.
  destruct (negb (searchApiAvailable w)).
  - exists []. split; [reflexivity | constructor].
  - revert w. apply traced_try_catch.
    + apply traced_bind; [apply traced_searchTicketsByCustomField | intros ts].
      apply traced_ret.
    + intros e. destruct (includes "405" (message e)); [| apply traced_throw].
      intros w. exists [EDisableSearch]. split; [reflexivity | by repeat constructor].
Qed.

Lemma traced_find_ticket change : traced remote_effect (find_ticket env change).
Proof.
  unfold find_ticket. destruct (cached_ticket_id change) as [tk |].
  - apply traced_bind; [apply traced_getTicketById | intros [t |]].
    + apply traced_ret.
    + apply traced_findTicketByCaseNumber.
  - apply traced_findTicketByCaseNumber.
Qed.

Lemma traced_process_change change c :
  traced reconcile_effect (process_change config env change c).
Proof.
  unfold process_change.
  destruct (negb (caseUpdatesEnabled config)); [apply traced_ret |].
  apply traced_bind.
  { eapply traced_weaken; [| apply traced_find_ticket]. effect_cases. }
  intros [t |]; [| apply traced_ret].
  destruct (no_diff _).
  - apply traced_bind; [| intros _; apply traced_ret].
    eapply traced_weaken; [| apply traced_updateCaseThreefoldId]. effect_cases.
  - apply traced_bind.
    { eapply traced_weaken; [| apply traced_updateTicketCustomFields]. effect_cases. }
    intros _. apply traced_bind; [| intros _; apply traced_ret].
    eapply traced_weaken; [| apply traced_updateCaseThreefoldId]. effect_cases.
Qed.

Lemma traced_process_changes changes c :
  traced reconcile_effect (process_changes config env changes c).
Proof.
  revert c. induction changes as [| change changes IH]; intros c; simpl.
  - apply traced_ret.
  - apply traced_bind; [| intros c2; apply IH].
    apply traced_try_catch; [apply traced_process_change | intros _; apply traced_ret].
Qed.

Lemma traced_sync_body sid records :
  traced (run_effect records) (sync_body config env sid records).
Proof.
  unfold sync_body.
  apply traced_bind.
  { eapply traced_weaken; [| apply traced_diffCases]. effect_cases. }
  intros changes.
  assert (Hfinish : forall u e,
             traced (run_effect records)
               (bind (upsertCaseState env records)
                     (fun _ => completeSyncLog env sid (length records) u e None))).
  { intros u e. apply traced_bind.
    - eapply traced_weaken; [| apply traced_upsertCaseState]. effect_cases.
    - intros _. eapply traced_weaken; [| apply traced_completeSyncLog]. effect_cases. }
  destruct changes as [| ch changes]; [apply Hfinish |].
  apply traced_bind; [| intros c; apply Hfinish].
  eapply traced_weaken; [| apply traced_process_changes]. effect_cases.
Qed.

Lemma traced_processCasesSync records :
  traced (run_effect records) (processCasesSync config env records).
Proof.
  unfold processCasesSync.
  apply traced_bind.
  { eapply traced_weaken; [| apply traced_createSyncLog]. effect_cases. }
  intros sid. apply traced_try_catch; [apply traced_sync_body |].
  intros err. apply traced_bind; [| intros _; apply traced_throw].
  eapply traced_weaken; [| apply traced_completeSyncLog]. effect_cases.
Qed.

End EngineTraces.

(* ===================================================================== *)
(** ** Frame properties of the effects *)
(* ===================================================================== *)

Lemma effect_clock_mono e w : (clock w <= clock (apply_effect e w))%nat.
Proof. destruct e; simpl; lia. Qed.

Lemma effect_flag_stays_off e w :
  searchApiAvailable w = false -> searchApiAvailable (apply_effect e w) = false.
Proof. destruct e; simpl; auto. Qed.

Lemma effect_calls_frame e w :
  (forall c, e <> ECall c) -> calls (apply_effect e w) = calls w.
Proof. destruct e; simpl; try reflexivity. intros H. by destruct (H c). Qed.

Lemma effect_case_state_frame e w :
  match e with EUpsert _ _ | ELink _ _ => False | _ => True end ->
  case_state (apply_effect e w) = case_state w.
Proof. destruct e; simpl; tauto. Qed.

Lemma effect_sync_log_frame e w :
  match e with
  | ESyncCreate _ _ | ESyncComplete _ _ _ _ _ _ | ESkipSerial => False
  | _ => True
  end ->
  sync_log (apply_effect e w) = sync_log w
  /\ sync_log_seq (apply_effect e w) = sync_log_seq w.
Proof. destruct e; simpl; tauto. Qed.

Section Frames.

Context {X : Type} (m : M X) (w : World).

Lemma traced_clock_mono A : traced A m -> (clock w <= clock (m w).2)%nat.
Proof.
  intros Hm. apply (traced_invariant A (fun w' => (clock w <= clock w')%nat) m w Hm);
    [| lia].
  intros e w0 _ H. pose proof (effect_clock_mono e w0). lia.
Qed.

Lemma traced_flag_stays_off A :
  traced A m -> searchApiAvailable w = false -> searchApiAvailable (m w).2 = false.
Proof.
  intros Hm. apply (traced_invariant A (fun w' => searchApiAvailable w' = false) m w Hm).
  intros e w0 _. apply effect_flag_stays_off.
Qed.

Lemma traced_calls_frame A :
  traced A m -> (forall e c, A e -> e <> ECall c) -> calls (m w).2 = calls w.
Proof.
  intros Hm HA.
  apply (traced_invariant A (fun w' => calls w' = calls w) m w Hm); [| reflexivity].
  intros e w0 He <-. apply effect_calls_frame. intros c. by apply HA.
Qed.

Lemma traced_case_state_frame A :
  traced A m ->
  (forall e, A e -> match e with EUpsert _ _ | ELink _ _ => False | _ => True end) ->
  case_state (m w).2 = case_state w.
Proof.
  intros Hm HA.
  apply (traced_invariant A (fun w' => case_state w' = case_state w) m w Hm);
    [| reflexivity].
  intros e w0 He <-. apply effect_case_state_frame. by apply HA.
Qed.

Lemma traced_sync_log_frame A :
  traced A m ->
  (forall e, A e ->
             match e with
             | ESyncCreate _ _ | ESyncComplete _ _ _ _ _ _ | ESkipSerial => False
             | _ => True
             end) ->
  sync_log (m w).2 = sync_log w /\ sync_log_seq (m w).2 = sync_log_seq w.
Proof.
  intros Hm HA.
  apply (traced_invariant A
           (fun w' => sync_log w' = sync_log w /\ sync_log_seq w' = sync_log_seq w)
           m w Hm); [| by split].
  intros e w0 He [<- <-]. apply effect_sync_log_frame. by apply HA.
Qed.

(** A property of [case_state] that upserting a record of the batch and
    caching a ticket id both preserve holds after the run. *)
Lemma traced_case_state_invariant records (P : gmap string CaseStateRow -> Prop) :
  traced (run_effect records) m ->
  (forall now cs r, r ∈ dedupe records -> P cs -> P (upsert_row now cs r)) ->
  (forall k tk cs, P cs -> P (alter (set_ticket_id tk) k cs)) ->
  P (case_state w) -> P (case_state (m w).2).
Proof.
  intros Hm Hup Hlink.
  apply (traced_invariant _ (fun w' => P (case_state w')) m w Hm).
  intros e w0 He HP. destruct e; simpl in *; auto.
Qed.

End Frames.

(* ===================================================================== *)
(** ** The bulk upsert *)
(* ===================================================================== *)

Section Upsert.

Implicit Types (r : CodeEnforcementCaseRecord) (cs : gmap string CaseStateRow).

Lemma upsert_row_other now cs r k :
  k <> caseNo r -> upsert_row now cs r !! k = cs !! k.
Proof. intros Hne. unfold upsert_row. by rewrite lookup_insert_ne. Qed.

Lemma upsert_row_same now cs r :
  exists row,
    upsert_row now cs r !! caseNo r = Some row
    /\ reflects r row
    /\ last_seen_at row = now
    /\ threefold_ticket_id row = cs !! caseNo r ≫= threefold_ticket_id
    /\ created_at row = default now (created_at <$> cs !! caseNo r).
Proof.
  unfold upsert_row. eexists. rewrite lookup_insert_eq.
  split; [reflexivity |]. unfold reflects. simpl. by repeat split.
Qed.

Lemma upsert_row_stored now cs r t0 :
  (t0 <= now)%nat -> stored_since t0 (upsert_row now cs r) r.
Proof.
  intros Hle. destruct (upsert_row_same now cs r) as (row & Hrow & Hrefl & Hseen & _).
  exists row. split; [assumption | split; [assumption | lia]].
Qed.

Lemma upsert_row_keeps_stored now cs r r' t0 :
  (t0 <= now)%nat ->
  (caseNo r = caseNo r' -> r = r') ->
  stored_since t0 cs r -> stored_since t0 (upsert_row now cs r') r.
Proof.
  intros Hle Hinj Hst. destruct (decide (caseNo r = caseNo r')) as [Heq | Hne].
  - rewrite <- (Hinj Heq). by apply upsert_row_stored.
  - destruct Hst as (row & Hrow & Hrest). exists row.
    by rewrite upsert_row_other.
Qed.

Lemma fold_upsert_stored now t0 (U batch : list CodeEnforcementCaseRecord) cs r :
  (t0 <= now)%nat ->
  NoDup (map caseNo U) -> batch ⊆ U -> r ∈ U ->
  r ∈ batch \/ stored_since t0 cs r ->
  stored_since t0 (fold_left (upsert_row now) batch cs) r.
Proof.
  intros Hle Hnd. revert cs. induction batch as [| r' batch IH]; intros cs Hsub Hr Hcase.
  - destruct Hcase as [Hin | Hst]; [by apply elem_of_nil in Hin | exact Hst].
  - assert (Hr' : r' ∈ U) by (apply Hsub; constructor).
    assert (Hsub' : batch ⊆ U) by (intros x Hx; apply Hsub; by constructor).
    simpl. apply IH; [assumption | assumption |].
    destruct Hcase as [Hin | Hst].
    + apply elem_of_cons in Hin as [-> | Hin]; [right | by left].
      by apply upsert_row_stored.
    + right. apply upsert_row_keeps_stored; [assumption | | assumption].
      intros Heq. by apply (NoDup_keys_inj U).
Qed.

Lemma NoDup_keys_chunk (U : list CodeEnforcementCaseRecord) i n :
  NoDup (map caseNo U) -> NoDup (map caseNo (take n (drop i U))).
Proof.
  intros Hnd. eapply sublist_NoDup; [exact Hnd |].
  apply fmap_sublist. etrans; [apply sublist_take | apply sublist_drop].
Qed.

Lemma chunk_subseteq (U : list CodeEnforcementCaseRecord) i n :
  take n (drop i U) ⊆ U.
Proof.
  apply sublist_subseteq. etrans; [apply sublist_take | apply sublist_drop].
Qed.

Lemma chunk_covers (U : list CodeEnforcementCaseRecord) r :
  r ∈ U ->
  exists k, k ∈ seq 0 (totalBatches (length U))
            /\ r ∈ take BATCH_SIZE (drop (k * BATCH_SIZE) U).
Proof.
  intros Hr. apply list_elem_of_lookup in Hr as (i & Hi).
  pose proof (lookup_lt_Some _ _ _ Hi) as Hlt.
  assert (HB : (0 < BATCH_SIZE)%nat) by (unfold BATCH_SIZE; lia).
  assert (Hk : (i / BATCH_SIZE < totalBatches (length U))%nat).
  { unfold totalBatches. apply Nat.Div0.div_lt_upper_bound.
    pose proof (Nat.div_mod_eq (length U + BATCH_SIZE - 1) BATCH_SIZE) as Hdm.
    pose proof (Nat.mod_upper_bound (length U + BATCH_SIZE - 1) BATCH_SIZE ltac:(lia)).
    lia. }
  exists (i / BATCH_SIZE)%nat. split.
  - apply elem_of_seq. lia.
  - apply list_elem_of_lookup. exists (i mod BATCH_SIZE)%nat.
    rewrite lookup_take_lt by (apply Nat.mod_upper_bound; lia).
    rewrite lookup_drop. rewrite <- Hi. f_equal.
    pose proof (Nat.div_mod_eq i BATCH_SIZE). lia.
Qed.

End Upsert.

(* ===================================================================== *)
(** ** Results of the store operations *)
(* ===================================================================== *)

Lemma bind_Ok {A B} (m : M A) (k : A -> M B) w b w' :
  bind m k w = (Ok b, w') <-> exists a w1, m w = (Ok a, w1) /\ k a w1 = (Ok b, w').
Proof.
  unfold bind. destruct (m w) as [[a | e] w1]; split.
  - intros H. by exists a, w1.
  - by intros (a' & w1' & [= -> ->] & H).
  - discriminate.
  - by intros (a' & w1' & [=] & _).
Qed.

Lemma bind_Throw {A B} (m : M A) (k : A -> M B) w e w' :
  bind m k w = (Throw e, w')
  <-> m w = (Throw e, w') \/ exists a w1, m w = (Ok a, w1) /\ k a w1 = (Throw e, w').
Proof.
  unfold bind. destruct (m w) as [[a | e0] w1]; split.
  - intros H. right. by exists a, w1.
  - by intros [[=] | (a' & w1' & [= -> ->] & H)].
  - intros [= -> ->]. by left.
  - by intros [[= -> ->] | (a' & w1' & [=] & _)].
Qed.

Lemma bind_ext_at {A B} (m : M A) (k1 k2 : A -> M B) w :
  (forall a w1, m w = (Ok a, w1) -> k1 a w1 = k2 a w1) ->
  bind m k1 w = bind m k2 w.
Proof.
  intros H. unfold bind. destruct (m w) as [[a | e] w1]; [by apply H | reflexivity].
Qed.

Section StoreResults.

Variable env : Env.
Implicit Types (records : list CodeEnforcementCaseRecord) (w : World).

Lemma upsert_statement_Ok batch w w' :
  upsert_statement env batch w = (Ok tt, w') ->
  db_fault env (clock w) = None
  /\ NoDup (map caseNo batch)
  /\ w' = set_case_state (fold_left (upsert_row (clock w)) batch (case_state w)) (tick w).
Proof.
  unfold upsert_statement, db_exec.
  destruct (db_fault env (clock w)); [discriminate |].
  case_decide; [| discriminate]. intros [= <-]. by repeat split.
Qed.

(** With the store up and distinct keys the chunk statement succeeds. *)
Lemma upsert_statement_succeeds batch w :
  db_fault env (clock w) = None -> NoDup (map caseNo batch) ->
  (upsert_statement env batch w).1 = Ok tt.
Proof.
  intros Hf Hnd. unfold upsert_statement, db_exec. rewrite Hf.
  by rewrite decide_True.
Qed.

Lemma upsert_chunks_stored (U : list CodeEnforcementCaseRecord) idxs t0 w w' r :
  NoDup (map caseNo U) ->
  upsert_chunks env U idxs w = (Ok tt, w') ->
  (t0 <= clock w)%nat ->
  r ∈ U ->
  (exists k, k ∈ idxs /\ r ∈ take BATCH_SIZE (drop (k * BATCH_SIZE) U))
  \/ stored_since t0 (case_state w) r ->
  stored_since t0 (case_state w') r.
Proof.
  intros Hnd. revert w. induction idxs as [| k idxs IH]; intros w Hrun Ht Hr Hcase.
  - injection Hrun as <-. destruct Hcase as [(k & Hk & _) | Hst]; [| exact Hst].
    by apply elem_of_nil in Hk.
  - cbn [upsert_chunks] in Hrun.
    apply bind_Ok in Hrun as ([] & w1 & Hstmt & Hrest).
    apply upsert_statement_Ok in Hstmt as (_ & _ & ->).
    apply (IH _ Hrest); [simpl; lia | assumption |].
    destruct Hcase as [(k' & Hk' & Hin) | Hst].
    + apply elem_of_cons in Hk' as [-> | Hk']; [right | left; by exists k'].
      simpl. apply (fold_upsert_stored _ _ U); auto using chunk_subseteq.
    + right. simpl. apply (fold_upsert_stored _ _ U); auto using chunk_subseteq.
Qed.

(** When the bulk upsert returns, every record of the deduplicated batch
    is stored with a [last_seen_at] later than the call. *)
Lemma upsertCaseState_Ok records w w' r :
  upsertCaseState env records w = (Ok tt, w') ->
  r ∈ dedupe records ->
  stored_since (S (clock w)) (case_state w') r.
Proof.
  unfold upsertCaseState. destruct records as [| r0 records'].
  - intros _ Hr. by apply elem_of_nil in Hr.
  - set (records := r0 :: records'). intros Hrun Hr.
    apply bind_Ok in Hrun as ([] & w1 & Hconn & Hchunks).
    assert (Hclock : clock w1 = S (clock w)).
    { unfold pool_connect, db_exec in Hconn.
      destruct (db_fault env (clock w)); [discriminate |]. by injection Hconn as <-. }
    eapply upsert_chunks_stored; eauto using dedupe_NoDup; [lia |].
    left. by apply chunk_covers.
Qed.

Lemma find_changes_filter (caseNos : list string) cs
      (l : list CodeEnforcementCaseRecord) :
  map caseNo l ⊆ caseNos ->
  find_changes (filter (fun kv => kv.1 ∈ caseNos) cs) l = find_changes cs l.
Proof.
  induction l as [| r l IH]; intros Hsub; [reflexivity |].
  assert (Hr : caseNo r ∈ caseNos) by (apply Hsub; simpl; constructor).
  assert (Hl : map caseNo l ⊆ caseNos) by (intros x Hx; apply Hsub; simpl; by constructor).
  cbn [find_changes]. rewrite (IH Hl), map_lookup_filter.
  destruct (cs !! caseNo r) as [st |]; simpl; [| reflexivity].
  by rewrite option_guard_True.
Qed.

Lemma diffCases_Ok records w changes w' :
  diffCases env records w = (Ok changes, w') ->
  changes = find_changes (case_state w) (dedupe records)
  /\ w' = tick (tick w).
Proof.
  unfold diffCases, pool_connect, select_states, bind, db_exec, ret. simpl.
  destruct (db_fault env (clock w)); [discriminate |].
  destruct (db_fault env (clock (tick w))); [discriminate |].
  intros [= <- <-]. split; [| reflexivity].
  simpl. by apply find_changes_filter.
Qed.

Lemma elem_of_find_changes cs (l : list CodeEnforcementCaseRecord) ch :
  ch ∈ find_changes cs l
  <-> exists r, r ∈ l
       /\ ((cs !! caseNo r = None /\ ch = new_change r)
           \/ (exists st, cs !! caseNo r = Some st
                          /\ content_hash st <> generateCaseHash r
                          /\ ch = changed_change r st)).
Proof.
  induction l as [| r l IH]; cbn [find_changes].
  - split; [intros H; by apply elem_of_nil in H |].
    intros (r & Hr & _). by apply elem_of_nil in Hr.
  - assert (Hstep : (exists r', r' ∈ r :: l
               /\ ((cs !! caseNo r' = None /\ ch = new_change r')
                   \/ (exists st, cs !! caseNo r' = Some st
                          /\ content_hash st <> generateCaseHash r'
                          /\ ch = changed_change r' st)))
            <-> ((cs !! caseNo r = None /\ ch = new_change r)
                   \/ (exists st, cs !! caseNo r = Some st
                          /\ content_hash st <> generateCaseHash r
                          /\ ch = changed_change r st))
                \/ ch ∈ find_changes cs l).
    { rewrite IH. split.
      - intros (r' & Hr' & H). apply elem_of_cons in Hr' as [-> | Hr'];
          [by left | right; by exists r'].
      - intros [H | (r' & Hr' & H)].
        + exists r. split; [constructor | exact H].
        + exists r'. split; [by constructor | exact H]. }
    rewrite Hstep. clear Hstep IH.
    destruct (cs !! caseNo r) as [st |] eqn:Hst.
    + destruct (String.eqb_spec (content_hash st) (generateCaseHash r)) as [Heq | Hne];
        simpl.
      * split; [by right |].
        intros [[[? _] | (st' & [= <-] & Hne & _)] | H]; [done | done | exact H].
      * rewrite elem_of_cons. split.
        -- intros [-> | H]; [left; right; by exists st | by right].
        -- intros [[[? _] | (st' & [= <-] & _ & ->)] | H]; [done | by left | by right].
    + rewrite elem_of_cons. split.
      * intros [-> | H]; [left; by left | by right].
      * intros [[[_ ->] | (st' & ? & _)] | H]; [by left | done | by right].
Qed.

Lemma find_changes_nil cs (l : list CodeEnforcementCaseRecord) :
  (forall r, r ∈ l ->
             exists st, cs !! caseNo r = Some st /\ content_hash st = generateCaseHash r) ->
  find_changes cs l = [].
Proof.
  intros Hall. destruct (find_changes cs l) as [| ch chs] eqn:E; [reflexivity |].
  assert (Hin : ch ∈ find_changes cs l) by (rewrite E; constructor).
  apply elem_of_find_changes in Hin as (r & Hr & Hcase).
  destruct (Hall r Hr) as (st & Hst & Hhash).
  destruct Hcase as [[Hnone _] | (st' & Hst' & Hne & _)]; congruence.
Qed.

End StoreResults.

(* ===================================================================== *)
(** ** One run, path by path *)
(* ===================================================================== *)

Section RunPaths.

Variable config : Config.
Variable env : Env.
Implicit Types (records : list CodeEnforcementCaseRecord) (w : World).

Lemma completeSyncLog_unfold sid total changed errs msg w :
  completeSyncLog env sid total changed errs msg w
  = match db_fault env (clock w) with
    | Some m => (Throw (mkError m), tick w)
    | None =>
        (Ok tt,
         set_sync_log
           (alter (complete_row (clock w) total changed errs msg) sid (sync_log w))
           (sync_log_seq w) (tick w))
    end.
Proof. reflexivity. Qed.

Lemma completeSyncLog_Throw sid total changed errs msg w e w' :
  completeSyncLog env sid total changed errs msg w = (Throw e, w') ->
  db_fault env (clock w) = Some (message e) /\ w' = tick w.
Proof.
  rewrite completeSyncLog_unfold.
  destruct (db_fault env (clock w)); [| discriminate].
  by intros [= <- <-].
Qed.

Lemma completeSyncLog_Ok sid total changed errs msg w w' :
  completeSyncLog env sid total changed errs msg w = (Ok tt, w') ->
  db_fault env (clock w) = None
  /\ clock w' = S (clock w)
  /\ case_state w' = case_state w
  /\ calls w' = calls w
  /\ sync_log w' = alter (complete_row (clock w) total changed errs msg) sid (sync_log w).
Proof.
  rewrite completeSyncLog_unfold.
  destruct (db_fault env (clock w)); [discriminate |].
  by intros [= <-].
Qed.

(** The tail shared by the zero-change path and the normal path. *)
Lemma finish_Ok sid records u e wa w1 :
  bind (upsertCaseState env records)
       (fun _ => completeSyncLog env sid (length records) u e None) wa = (Ok tt, w1) ->
  exists wb,
    upsertCaseState env records wa = (Ok tt, wb)
    /\ completeSyncLog env sid (length records) u e None wb = (Ok tt, w1)
    /\ sync_log wb = sync_log wa /\ sync_log_seq wb = sync_log_seq wa
    /\ calls wb = calls wa.
Proof.
  intros H. apply bind_Ok in H as ([] & wb & Hup & Hdone).
  exists wb. split; [assumption |]. split; [assumption |].
  pose proof (traced_sync_log_frame (upsertCaseState env records) wa _
                (traced_upsertCaseState env records)) as Hsl.
  pose proof (traced_calls_frame (upsertCaseState env records) wa _
                (traced_upsertCaseState env records)) as Hcalls.
  rewrite Hup in Hsl, Hcalls. simpl in *.
  destruct Hsl as [-> ->]; [by intros []; simpl |].
  rewrite Hcalls; [done |]. by intros [] ?; simpl.
Qed.

Lemma finish_Throw sid records u e wa err w1 :
  bind (upsertCaseState env records)
       (fun _ => completeSyncLog env sid (length records) u e None) wa = (Throw err, w1) ->
  sync_log w1 = sync_log wa /\ sync_log_seq w1 = sync_log_seq wa
  /\ (clock wa <= clock w1)%nat.
Proof.
  intros H.
  pose proof (traced_sync_log_frame (upsertCaseState env records) wa _
                (traced_upsertCaseState env records)) as Hsl.
  pose proof (traced_clock_mono (upsertCaseState env records) wa _
                (traced_upsertCaseState env records)) as Hck.
  apply bind_Throw in H as [Hup | ([] & wb & Hup & Hdone)];
    rewrite Hup in Hsl, Hck; simpl in *.
  - destruct Hsl as [-> ->]; [by intros []; simpl | done].
  - apply completeSyncLog_Throw in Hdone as [_ ->]. simpl.
    destruct Hsl as [-> ->]; [by intros []; simpl |]. repeat split. lia.
Qed.

(** Until the tail starts the run leaves [sync_log] alone and the clock
    does not go back. *)
Lemma sync_body_prefix sid records w0 :
  forall res w1,
    sync_body config env sid records w0 = (res, w1) ->
    exists wa u e,
      sync_log wa = sync_log w0 /\ sync_log_seq wa = sync_log_seq w0
      /\ (clock w0 <= clock wa)%nat
      /\ ((exists err, res = Throw err /\ w1 = wa)
          \/ bind (upsertCaseState env records)
                  (fun _ => completeSyncLog env sid (length records) u e None) wa
             = (res, w1)).
Proof.
  intros res w1. unfold sync_body, bind at 1.
  pose proof (traced_sync_log_frame (diffCases env records) w0 _
                (traced_diffCases env records)) as Hsl.
  pose proof (traced_clock_mono (diffCases env records) w0 _
                (traced_diffCases env records)) as Hck.
  destruct (diffCases env records w0) as [[changes | err] wd]; simpl in *.
  2:{ intros [= <- <-]. exists wd, 0%nat, 0%nat.
      destruct Hsl as [-> ->]; [by intros []; simpl |].
      repeat split; [assumption |]. left. by exists err. }
  destruct Hsl as [Hsl1 Hsl2]; [by intros []; simpl |].
  destruct changes as [| ch changes].
  - intros H. exists wd, 0%nat, 0%nat. repeat split; try assumption. by right.
  - unfold bind at 1.
    pose proof (traced_sync_log_frame
                  (process_changes config env (ch :: changes) zero_counters) wd _
                  (traced_process_changes config env (ch :: changes) zero_counters))
      as Hsl'.
    pose proof (traced_clock_mono
                  (process_changes config env (ch :: changes) zero_counters) wd _
                  (traced_process_changes config env (ch :: changes) zero_counters))
      as Hck'.
    destruct (process_changes config env (ch :: changes) zero_counters wd)
      as [[c | err] wp]; simpl in Hsl', Hck';
      (destruct Hsl' as [Hsl1' Hsl2']; [by intros []; simpl |]).
    + intros H. exists wp, (updated c), (errorCount c).
      repeat split; [congruence | congruence | lia | by right].
    + intros [= <- <-]. exists wp, 0%nat, 0%nat.
      repeat split; [congruence | congruence | lia |]. left. by exists err.
Qed.

Lemma createSyncLog_unfold ty w :
  createSyncLog env ty w
  = match db_fault env (clock w) with
    | Some m =>
        (Throw (mkError m),
         if serial_drawn env (clock w) then skip_serial (tick w) else tick w)
    | None =>
        (Ok (sync_log_seq w),
         set_sync_log
           (<[sync_log_seq w := mkSyncLog ty (clock w) None 0 0 0 None]> (sync_log w))
           (S (sync_log_seq w)) (tick w))
    end.
Proof. reflexivity. Qed.

(** A run returns normally only through the tail of [sync_body]. *)
Lemma processCasesSync_Ok records w w' :
  processCasesSync config env records w = (Ok tt, w') ->
  exists wa wb u e,
    (clock w < clock wa)%nat
    /\ calls wb = calls wa
    /\ upsertCaseState env records wa = (Ok tt, wb)
    /\ completeSyncLog env (sync_log_seq w) (length records) u e None wb = (Ok tt, w').
Proof.
  unfold processCasesSync, bind at 1. rewrite createSyncLog_unfold.
  destruct (db_fault env (clock w)); [discriminate |].
  unfold try_catch.
  destruct (sync_body config env _ records _) as [[[] | err] w1] eqn:Hbody.
  - intros [= <-].
    apply sync_body_prefix in Hbody as (wa & u & e & _ & _ & Hck & Hcase).
    destruct Hcase as [(err & [=] & _) | Hfin].
    apply finish_Ok in Hfin as (wb & Hup & Hdone & _ & _ & Hcalls).
    exists wa, wb, u, e. simpl in Hck. repeat split; [lia | assumption ..].
  - unfold bind, throw.
    destruct (completeSyncLog env _ _ _ _ _ w1) as [[[] | e'] w2]; discriminate.
Qed.

End RunPaths.

(* ===================================================================== *)
(** ** Idempotence of a repeated delivery *)
(* ===================================================================== *)

Section Idempotence.

Implicit Types (records : list CodeEnforcementCaseRecord) (w : World).

Lemma stored_since_hash t0 cs r :
  stored_since t0 cs r ->
  exists row, cs !! caseNo r = Some row /\ content_hash row = generateCaseHash r.
Proof.
  intros (row & Hrow & Hrefl & _). exists row. split; [assumption |].
  apply Hrefl.
Qed.

(** After a run that returned, the store holds the hash of every record
    of the deduplicated batch. *)
Lemma run_Ok_hashes config env records w w1 r :
  processCasesSync config env records w = (Ok tt, w1) ->
  r ∈ dedupe records ->
  exists row, case_state w1 !! caseNo r = Some row
              /\ content_hash row = generateCaseHash r.
Proof.
  intros Hrun Hr.
  apply processCasesSync_Ok in Hrun as (wa & wb & u & e & _ & _ & Hup & Hdone).
  apply completeSyncLog_Ok in Hdone as (_ & _ & -> & _).
  eapply stored_since_hash, upsertCaseState_Ok; eauto.
Qed.

Lemma sync_body_no_changes config env sid records w0 :
  find_changes (case_state w0) (dedupe records) = [] ->
  sync_body config env sid records w0
  = bind (diffCases env records)
         (fun _ => bind (upsertCaseState env records)
                        (fun _ => completeSyncLog env sid (length records) 0 0 None)) w0.
Proof.
  intros Hnil. unfold sync_body. apply bind_ext_at.
  intros changes wd Hd. apply diffCases_Ok in Hd as [-> _]. by rewrite Hnil.
Qed.

Lemma store_effect_keeps_hashes records (cs1 : gmap string CaseStateRow) e w :
  (forall r, r ∈ dedupe records ->
             exists row, cs1 !! caseNo r = Some row
                         /\ content_hash row = generateCaseHash r) ->
  store_effect records e ->
  calls w = calls (apply_effect e w)
  /\ ((forall k, content_hash <$> case_state w !! k = content_hash <$> cs1 !! k) ->
      forall k, content_hash <$> case_state (apply_effect e w) !! k
                = content_hash <$> cs1 !! k).
Proof.
  intros Hst He. destruct e; simpl in *; try tauto.
  split; [reflexivity |]. intros Hsame k.
  destruct (decide (k = caseNo record)) as [-> | Hne].
  - destruct (Hst record He) as (row & -> & Hrow).
    unfold upsert_row. rewrite lookup_insert_eq. simpl. by rewrite Hrow.
  - rewrite upsert_row_other by assumption. apply Hsame.
Qed.

End Idempotence.

(** C1. After a run on a batch has returned (state persisted), a second run
    on the same batch sends no request to the remote API at all, so no
    update call, whatever the second run's configuration and environment;
    every stored [content_hash] is unchanged; and the second [diffCases]
    emits no change, because for each record of the deduplicated batch the
    stored [content_hash] equals the recomputed hash. *)
Theorem second_run_on_identical_batch_is_idempotent
        (config : Config) (env : Env)
        (records : list CodeEnforcementCaseRecord) (w w1 : World) :
  processCasesSync config env records w = (Ok tt, w1) ->
  forall (config' : Config) (env' : Env) (res : Result unit) (w2 : World),
    processCasesSync config' env' records w1 = (res, w2) ->
    calls w2 = calls w1
    /\ filter is_update (calls w2) = filter is_update (calls w1)
    /\ (forall k, content_hash <$> case_state w2 !! k
                  = content_hash <$> case_state w1 !! k)
    /\ (forall r, r ∈ dedupe records ->
                  exists row, case_state w1 !! caseNo r = Some row
                              /\ content_hash row = generateCaseHash r)
    /\ (forall wx changes wd,
           case_state wx = case_state w1 ->
           diffCases env' records wx = (Ok changes, wd) -> changes = []).
Proof.
  intros Hrun1 config' env' res w2 Hrun2.
  pose proof (fun r => run_Ok_hashes config env records w w1 r Hrun1) as Hst.
  assert (Hnil : find_changes (case_state w1) (dedupe records) = []).
  { apply find_changes_nil. intros r Hr. destruct (Hst r Hr) as (row & ? & ?). eauto. }
  set (I := fun w' : World =>
              calls w' = calls w1
              /\ forall k, content_hash <$> case_state w' !! k
                           = content_hash <$> case_state w1 !! k).
  assert (Hstep : forall e w0, store_effect records e -> I w0 -> I (apply_effect e w0)).
  { intros e w0 He [Hc Hh].
    destruct (store_effect_keeps_hashes records (case_state w1) e w0 Hst He) as [Hc' Hh'].
    split; [congruence | by apply Hh']. }
  assert (HI : I w2).
  { revert Hrun2. unfold processCasesSync, bind at 1. rewrite createSyncLog_unfold.
    destruct (db_fault env' (clock w1)).
    { intros [= _ <-]. by destruct (serial_drawn env' (clock w1)). }
    set (w0 := set_sync_log _ _ (tick w1)).
    assert (HI0 : I w0) by (by split).
    unfold try_catch. rewrite sync_body_no_changes by exact Hnil.
    match goal with |- context [bind ?m ?k w0] => set (body := bind m k) end.
    assert (Hbody : traced (store_effect records) body).
    { apply traced_bind.
      - eapply traced_weaken; [| apply traced_diffCases]. effect_cases.
      - intros _. apply traced_bind.
        + eapply traced_weaken; [| apply traced_upsertCaseState]. effect_cases.
        + intros _. eapply traced_weaken; [| apply traced_completeSyncLog]. effect_cases. }
    pose proof (traced_invariant _ I body w0 Hbody Hstep HI0) as HIb.
    destruct (body w0) as [[[] | err] wb]; simpl in HIb.
    - by intros [= _ <-].
    - match goal with |- context [bind ?m ?k wb] => set (handler := bind m k) end.
      assert (Hh : traced (store_effect records) handler).
      { apply traced_bind; [| intros _; apply traced_throw].
        eapply traced_weaken; [| apply traced_completeSyncLog]. effect_cases. }
      pose proof (traced_invariant _ I handler wb Hh Hstep HIb) as HIh.
      intros Heq. by rewrite Heq in HIh. }
  destruct HI as [Hcalls Hhash].
  split; [exact Hcalls |]. split; [by rewrite Hcalls |].
  split; [exact Hhash |]. split; [exact Hst |].
  intros wx changes wd Hcs Hd. apply diffCases_Ok in Hd as [-> _].
  by rewrite Hcs.
Qed.

(* ===================================================================== *)
(** ** Runs on a healthy store *)
(* ===================================================================== *)

Section HealthyStore.

Variable config : Config.
Variable env : Env.

Lemma healthy_from_later t0 t1 :
  (t0 <= t1)%nat -> healthy_from env t0 -> healthy_from env t1.
Proof. intros Hle H t Ht. apply H. lia. Qed.

Lemma returns_ret {X} (x : X) : returns_when_healthy env (ret x).
Proof. intros w _. by exists x, w. Qed.

Lemma returns_bind {X Y} (m : M X) (k : X -> M Y) :
  returns_when_healthy env m -> (forall x, returns_when_healthy env (k x)) ->
  returns_when_healthy env (bind m k).
Proof.
  intros Hm Hk w Hw. destruct (Hm w Hw) as (x & w1 & Hx & Hle).
  destruct (Hk x w1 (healthy_from_later _ _ Hle Hw)) as (y & w2 & Hy & Hle2).
  exists y, w2. unfold bind. rewrite Hx, Hy. split; [reflexivity | lia].
Qed.

(** A [try] whose [catch] only counts returns, whatever the body does. *)
Lemma returns_try_catch_ret {X} A (m : M X) (x : X) :
  traced A m -> returns_when_healthy env (try_catch m (fun _ => ret x)).
Proof.
  intros Hm w _. pose proof (traced_clock_mono m w A Hm) as Hle.
  unfold try_catch. destruct (m w) as [[y | err] w1]; simpl in Hle.
  - by exists y, w1.
  - by exists x, w1.
Qed.

Lemma returns_db_exec {X} (stmt : nat -> World -> Result X * World) :
  (forall now w, exists x w', stmt now w = (Ok x, w') /\ clock w' = clock w) ->
  returns_when_healthy env (db_exec env stmt).
Proof.
  intros Hstmt w Hw. unfold db_exec. rewrite (Hw (clock w)) by lia.
  destruct (Hstmt (clock w) (tick w)) as (x & w' & Hx & Hck).
  exists x, w'. split; [assumption |]. rewrite Hck. simpl. lia.
Qed.

Lemma returns_upsert_statement batch :
  NoDup (map caseNo batch) -> returns_when_healthy env (upsert_statement env batch).
Proof.
  intros Hnd. apply returns_db_exec. intros now w.
  destruct (decide (NoDup (map caseNo batch))); [| contradiction].
  by eexists _, _.
Qed.

Lemma returns_upsert_chunks U idxs :
  NoDup (map caseNo U) -> returns_when_healthy env (upsert_chunks env U idxs).
Proof.
  intros Hnd. induction idxs as [| k idxs IH]; cbn [upsert_chunks]; [apply returns_ret |].
  apply returns_bind; [| intros _; exact IH].
  apply returns_upsert_statement.
  eapply sublist_NoDup; [exact Hnd |].
  apply fmap_sublist. etrans; [apply sublist_take | apply sublist_drop].
Qed.

Lemma returns_pool_connect : returns_when_healthy env (pool_connect env).
Proof. apply returns_db_exec. intros now w. by eexists _, _. Qed.

Lemma returns_upsertCaseState records :
  returns_when_healthy env (upsertCaseState env records).
Proof.
  unfold upsertCaseState. destruct records as [| r0 records]; [apply returns_ret |].
  apply returns_bind; [apply returns_pool_connect | intros _].
  apply returns_upsert_chunks, dedupe_NoDup.
Qed.

Lemma returns_completeSyncLog sid total changed errs msg :
  returns_when_healthy env (completeSyncLog env sid total changed errs msg).
Proof. apply returns_db_exec. intros now w. by eexists _, _. Qed.

Lemma returns_diffCases records : returns_when_healthy env (diffCases env records).
Proof.
  unfold diffCases.
  apply returns_bind; [apply returns_pool_connect | intros _].
  apply returns_bind; [| intros states; apply returns_ret].
  apply returns_db_exec. intros now w. by eexists _, _.
Qed.

Lemma returns_process_changes changes c :
  returns_when_healthy env (process_changes config env changes c).
Proof.
  revert c. induction changes as [| ch changes IH]; intros c; cbn [process_changes].
  - apply returns_ret.
  - apply returns_bind; [| intros c2; apply IH].
    apply (returns_try_catch_ret _ _ _ (traced_process_change config env ch _)).
Qed.

Lemma returns_sync_body sid records :
  returns_when_healthy env (sync_body config env sid records).
Proof.
  unfold sync_body. apply returns_bind; [apply returns_diffCases |].
  intros [| ch changes].
  - apply returns_bind; [apply returns_upsertCaseState |].
    intros _. apply returns_completeSyncLog.
  - apply returns_bind; [apply returns_process_changes | intros c].
    apply returns_bind; [apply returns_upsertCaseState |].
    intros _. apply returns_completeSyncLog.
Qed.

Lemma returns_processCasesSync records :
  returns_when_healthy env (processCasesSync config env records).
Proof.
  unfold processCasesSync. apply returns_bind.
  { intros w Hw. rewrite createSyncLog_unfold, (Hw (clock w)) by lia.
    eexists _, _. split; [reflexivity |]. simpl. lia. }
  intros sid w Hw. destruct (returns_sync_body sid records w Hw) as ([] & w' & Hrun & Hle).
  exists tt, w'. unfold try_catch. by rewrite Hrun.
Qed.

End HealthyStore.

(* ===================================================================== *)
(** ** Duplicates within one delivery *)
(* ===================================================================== *)

Lemma find_changes_keys_sublist cs (l : list CodeEnforcementCaseRecord) :
  map ch_caseNo (find_changes cs l) `sublist_of` map caseNo l.
Proof.
  induction l as [| r l IH]; cbn [find_changes map]; [constructor |].
  destruct (cs !! caseNo r) as [st |].
  - destruct (negb _); [by apply sublist_skip | by apply sublist_cons].
  - by apply sublist_skip.
Qed.

(** C4. A batch that names a case number more than once is collapsed, by
    the change detector and by the bulk upsert alike, to one record per
    case number, the last occurrence: the deduplicated batch has distinct
    case numbers, holds exactly the last occurrences, and covers every case
    number of the batch; the changes [diffCases] reports are about last
    occurrences only, one per case number at most; and when the bulk upsert
    returns, the single row of each case number holds the fields of its
    last occurrence. On a store that executes every statement, the change
    detector and the bulk upsert both return for every batch, duplicates
    or not, and the bulk upsert leaves each case number with the one row
    that holds the fields of its last occurrence. *)
Theorem duplicate_case_numbers_last_occurrence_wins
        (env : Env) (records : list CodeEnforcementCaseRecord) :
  NoDup (map caseNo (dedupe records))
  /\ (forall r, r ∈ dedupe records <-> last_occurrence r records)
  /\ (forall k, k ∈ map caseNo (dedupe records) <-> k ∈ map caseNo records)
  /\ (forall w changes w',
         diffCases env records w = (Ok changes, w') ->
         changes = find_changes (case_state w) (dedupe records)
         /\ NoDup (map ch_caseNo changes)
         /\ forall ch, ch ∈ changes ->
                       last_occurrence (ch_record ch) records
                       /\ ch_caseNo ch = caseNo (ch_record ch)
                       /\ newHash ch = generateCaseHash (ch_record ch))
  /\ (forall w w',
         upsertCaseState env records w = (Ok tt, w') ->
         forall r, last_occurrence r records ->
                   exists row, case_state w' !! caseNo r = Some row /\ reflects r row)
  /\ (forall w,
         healthy_from env (clock w) ->
         exists w',
           upsertCaseState env records w = (Ok tt, w')
           /\ forall r, last_occurrence r records ->
                        exists row, case_state w' !! caseNo r = Some row
                                    /\ reflects r row)
  /\ (forall w,
         healthy_from env (clock w) ->
         exists w', diffCases env records w
                    = (Ok (find_changes (case_state w) (dedupe records)), w')).
Proof.
  split; [apply dedupe_NoDup |].
  split; [intros r; apply elem_of_dedupe |].
  split; [intros k; apply dedupe_covers |].
  split; [| split; [| split]].
  - intros w changes w' Hd. apply diffCases_Ok in Hd as [-> _].
    split; [reflexivity |]. split.
    + eapply sublist_NoDup; [apply dedupe_NoDup | apply find_changes_keys_sublist].
    + intros ch Hch. apply elem_of_find_changes in Hch as (r & Hr & Hcase).
      apply elem_of_dedupe in Hr.
      destruct Hcase as [[_ ->] | (st & _ & _ & ->)]; by repeat split.
  - intros w w' Hup r Hr. apply elem_of_dedupe in Hr.
    destruct (upsertCaseState_Ok env records w w' r Hup Hr) as (row & Hrow & Hrefl & _).
    by exists row.
  - intros w Hw.
    destruct (returns_upsertCaseState env records w Hw) as ([] & w' & Hup & _).
    exists w'. split; [exact Hup |].
    intros r Hr. apply elem_of_dedupe in Hr.
    destruct (upsertCaseState_Ok env records w w' r Hup Hr) as (row & Hrow & Hrefl & _).
    by exists row.
  - intros w Hw.
    destruct (returns_diffCases env records w Hw) as (changes & w' & Hd & _).
    exists w'. rewrite Hd. f_equal. f_equal.
    by apply diffCases_Ok in Hd as [-> _].
Qed.

Lemma duplicate_case_numbers_witness :
  exists w' row,
    upsertCaseState quiet_env [opened_only; opened_and_closed] empty_world = (Ok tt, w')
    /\ case_state w' !! "CE24-0001" = Some row
    /\ reflects opened_and_closed row.
Proof.
  destruct (duplicate_case_numbers_last_occurrence_wins
              quiet_env [opened_only; opened_and_closed])
    as (_ & _ & _ & _ & _ & Hup & _).
  destruct (Hup empty_world (fun t _ => eq_refl)) as (w' & Hok & Hrows).
  destruct (Hrows opened_and_closed) as (row & Hrow & Hrefl).
  { exists [opened_only], []. split; [reflexivity |]. simpl. apply not_elem_of_nil. }
  by exists w', row.
Defined.

Example dedupe_keeps_position_of_first :
  dedupe [rec_dates "CE24-0001" (Some "2025-01-01") None;
          rec_dates "CE24-0002" None None;
          rec_dates "CE24-0001" (Some "2025-01-01") (Some "2025-02-01")]
  = [rec_dates "CE24-0001" (Some "2025-01-01") (Some "2025-02-01");
     rec_dates "CE24-0002" None None].
Proof. vm_compute. reflexivity. Qed.

(* ===================================================================== *)
(** ** What the bulk upsert leaves alone *)
(* ===================================================================== *)

(** C10. Whatever the bulk upsert's outcome, a row that was already stored
    keeps its [threefold_ticket_id] and its [created_at], and is untouched
    if its case number is not in the batch; a row that was not stored
    before is in the batch and has a null [threefold_ticket_id]; and when
    the upsert returns, the row of every batch record holds the record's
    [case_opened], [case_closed], [case_status], [case_type],
    [case_subtype], [site_address], [raw_data] and [content_hash], with a
    [last_seen_at] later than the call. *)
Theorem upsert_overwrites_data_columns_only
        (env : Env) (records : list CodeEnforcementCaseRecord)
        (w : World) (res : Result unit) (w' : World) :
  upsertCaseState env records w = (res, w') ->
  (forall k old,
      case_state w !! k = Some old ->
      exists row, case_state w' !! k = Some row
                  /\ threefold_ticket_id row = threefold_ticket_id old
                  /\ created_at row = created_at old
                  /\ (k ∉ map caseNo records -> row = old))
  /\ (forall k row,
         case_state w !! k = None -> case_state w' !! k = Some row ->
         threefold_ticket_id row = None /\ k ∈ map caseNo records)
  /\ (res = Ok tt ->
      forall r, r ∈ dedupe records ->
                exists row, case_state w' !! caseNo r = Some row
                            /\ reflects r row
                            /\ (clock w < last_seen_at row)%nat).
Proof.
  intros Hrun.
  set (P := fun cs : gmap string CaseStateRow =>
              forall k,
                match case_state w !! k with
                | Some old =>
                    exists row, cs !! k = Some row
                                /\ threefold_ticket_id row = threefold_ticket_id old
                                /\ created_at row = created_at old
                                /\ (k ∉ map caseNo records -> row = old)
                | None =>
                    forall row, cs !! k = Some row ->
                                threefold_ticket_id row = None /\ k ∈ map caseNo records
                end).
  assert (HP : P (case_state w')).
  { replace w' with (upsertCaseState env records w).2 by (by rewrite Hrun).
    apply (traced_invariant _ (fun w0 => P (case_state w0)) _ w
             (traced_upsertCaseState env records)).
    - intros e w0 He HP0. destruct e; simpl in He; try tauto. simpl.
      intros k. specialize (HP0 k).
      assert (Hkey : caseNo record ∈ map caseNo records).
      { apply list_elem_of_fmap. exists record. split; [reflexivity |].
        by apply dedupe_subseteq. }
      destruct (decide (k = caseNo record)) as [-> | Hne].
      + destruct (upsert_row_same now (case_state w0) record)
          as (row & Hrow & _ & _ & Htk & Hcr).
        destruct (case_state w !! caseNo record) as [old |].
        * destruct HP0 as (row0 & Hrow0 & Htk0 & Hcr0 & _).
          exists row. rewrite Hrow0 in Htk, Hcr. simpl in Htk, Hcr.
          repeat split; [assumption | congruence | congruence | done].
        * intros row' Hrow'. rewrite Hrow in Hrow'. injection Hrow' as <-.
          split; [| assumption]. rewrite Htk.
          destruct (case_state w0 !! caseNo record) as [row0 |] eqn:E; [| reflexivity].
          simpl. by apply HP0.
      + by rewrite upsert_row_other.
    - intros k. destruct (case_state w !! k) as [old |] eqn:E.
      + exists old. by repeat split.
      + intros row Hrow. congruence. }
  split; [| split].
  - intros k old Hk. specialize (HP k). by rewrite Hk in HP.
  - intros k row Hk Hrow. specialize (HP k). rewrite Hk in HP. by apply HP.
  - intros -> r Hr.
    destruct (upsertCaseState_Ok env records w w' r Hrun Hr) as (row & Hrow & Hrefl & Hseen).
    exists row. split; [assumption |]. split; [assumption | lia].
Qed.

(* ===================================================================== *)
(** ** Finalising the run record *)
(* ===================================================================== *)

Lemma stored_since_weaken t0 t1 cs r :
  (t0 <= t1)%nat -> stored_since t1 cs r -> stored_since t0 cs r.
Proof.
  intros Hle (row & Hrow & Hrefl & Hseen). exists row.
  split; [assumption |]. split; [assumption | lia].
Qed.

(** A body that returns went through the change detector, the loop over
    the changes, the bulk upsert and the finalising UPDATE, in this order;
    the UPDATE records the loop's counters. *)
Lemma sync_body_Ok config env sid records w0 w1 :
  sync_body config env sid records w0 = (Ok tt, w1) ->
  let changes := find_changes (case_state w0) (dedupe records) in
  exists wd c wp wb,
    diffCases env records w0 = (Ok changes, wd)
    /\ process_changes config env changes zero_counters wd = (Ok c, wp)
    /\ upsertCaseState env records wp = (Ok tt, wb)
    /\ completeSyncLog env sid (length records) (updated c) (errorCount c) None wb
       = (Ok tt, w1).
Proof.
  intros Hbody changes. unfold sync_body in Hbody.
  apply bind_Ok in Hbody as (changes' & wd & Hd & Hrest).
  pose proof Hd as Hd'. apply diffCases_Ok in Hd' as [-> _]. fold changes in Hd, Hrest.
  destruct changes as [| ch rest] eqn:Hch.
  - apply bind_Ok in Hrest as ([] & wb & Hup & Hdone).
    exists wd, zero_counters, wd, wb. by repeat split.
  - apply bind_Ok in Hrest as (c & wp & Hloop & Hrest).
    apply bind_Ok in Hrest as ([] & wb & Hup & Hdone).
    exists wd, c, wp, wb. by repeat split.
Qed.

(** C8, as the code has it. Take a run whose [sync_log] row was created
    (the INSERT at the run's first tick was executed) and whose last store
    statement, the finalising UPDATE, is executed as well. Then on every
    path the row ends finalised: [completed_at] is set, [total_records] is
    the batch length; on the paths that return (zero changes or normal
    completion) no error message is recorded and the recorded totals are
    those of the run: [changed_records] is the number of changes the loop
    counted as updated and [errors] the number it counted as failed, both 0
    when no change was detected; on the fatal path the message of the
    error is recorded, with 0 changed records and 1 error, and that same
    error is raised to the caller. On every path that returns, every record
    of the deduplicated batch is stored with a [last_seen_at] later than
    the start of the run. *)
Theorem run_record_finalised_when_final_update_executes
        (config : Config) (env : Env)
        (records : list CodeEnforcementCaseRecord)
        (w : World) (res : Result unit) (w' : World) :
  processCasesSync config env records w = (res, w') ->
  db_fault env (clock w) = None ->
  db_fault env (Nat.pred (clock w')) = None ->
  (exists row,
      sync_log w' !! sync_log_seq w = Some row
      /\ started_at row = clock w
      /\ completed_at row = Some (Nat.pred (clock w'))
      /\ total_records row = length records
      /\ match res with
         | Ok _ =>
             error_message row = None
             /\ let changes := find_changes (case_state w) (dedupe records) in
                exists wd c wp,
                  diffCases env records (createSyncLog env "cases" w).2
                  = (Ok changes, wd)
                  /\ process_changes config env changes zero_counters wd
                     = (Ok c, wp)
                  /\ changed_records row = updated c
                  /\ errors row = errorCount c
                  /\ (changes = [] ->
                      changed_records row = 0%nat /\ errors row = 0%nat)
         | Throw err =>
             error_message row = Some (message err)
             /\ changed_records row = 0%nat /\ errors row = 1%nat
         end)
  /\ (res = Ok tt ->
      forall r, r ∈ dedupe records ->
                exists row, case_state w' !! caseNo r = Some row
                            /\ reflects r row
                            /\ (clock w < last_seen_at row)%nat).
Proof.
  intros Hrun Hcreate Hlast. revert Hrun.
  unfold processCasesSync, bind at 1. rewrite createSyncLog_unfold, Hcreate.
  set (sid := sync_log_seq w).
  set (row0 := mkSyncLog "cases" (clock w) None 0 0 0 None).
  set (w0 := set_sync_log _ _ (tick w)).
  assert (Hrow0 : sync_log w0 !! sid = Some row0) by apply lookup_insert_eq.
  unfold try_catch.
  destruct (sync_body config env sid records w0) as [[[] | err] w1] eqn:Hbody.
  - intros [= <- <-].
    apply sync_body_Ok in Hbody as (wd & c & wp & wb & Hd & Hloop & Hup & Hdone).
    change (case_state w0) with (case_state w) in Hd, Hloop.
    assert (Hwd : sync_log wd = sync_log w0 /\ (clock w0 <= clock wd)%nat).
    { apply diffCases_Ok in Hd as [_ ->]. simpl. split; [reflexivity | lia]. }
    destruct Hwd as [Hsl_d Hck_d].
    assert (Hwp : sync_log wp = sync_log wd /\ (clock wd <= clock wp)%nat).
    { pose proof (traced_sync_log_frame
                    (process_changes config env
                       (find_changes (case_state w) (dedupe records)) zero_counters)
                    wd reconcile_effect
                    (traced_process_changes config env _ _)) as [Hsl _];
        [by intros [] ? |].
      pose proof (traced_clock_mono
                    (process_changes config env
                       (find_changes (case_state w) (dedupe records)) zero_counters)
                    wd reconcile_effect
                    (traced_process_changes config env _ _)) as Hck.
      rewrite Hloop in Hsl, Hck. by split. }
    destruct Hwp as [Hsl_p Hck_p].
    assert (Hsl_b : sync_log wb = sync_log wp).
    { pose proof (traced_sync_log_frame (upsertCaseState env records) wp _
                    (traced_upsertCaseState env records)) as [Hsl _];
        [by intros [] ? |].
      by rewrite Hup in Hsl. }
    apply completeSyncLog_Ok in Hdone as (_ & Hclock & Hcs & _ & Hlog).
    split.
    + exists (complete_row (clock wb) (length records) (updated c) (errorCount c)
                           None row0).
      rewrite Hlog, lookup_alter_eq, Hsl_b, Hsl_p, Hsl_d, Hrow0, Hclock.
      split; [reflexivity |]. split; [reflexivity |]. split; [reflexivity |].
      split; [reflexivity |]. split; [reflexivity |].
      exists wd, c, wp. split; [exact Hd |]. split; [exact Hloop |].
      split; [reflexivity |]. split; [reflexivity |].
      intros Hnil. rewrite Hnil in Hloop. injection Hloop as <- _. by split.
    + intros _ r Hr.
      destruct (upsertCaseState_Ok env records wp wb r Hup Hr) as (row & Hrow & Hrefl & Hseen).
      exists row. rewrite Hcs. split; [assumption |]. split; [assumption |].
      simpl in Hck_d. lia.
  - assert (Hsl : sync_log w1 = sync_log w0).
    { apply sync_body_prefix in Hbody as (wa & u & e & Hsl & _ & _ & Hcase).
      destruct Hcase as [(err' & _ & ->) | Hfin]; [assumption |].
      apply finish_Throw in Hfin as (-> & _ & _). assumption. }
    unfold bind, throw. rewrite completeSyncLog_unfold.
    destruct (db_fault env (clock w1)) as [msg |] eqn:Hfault.
    + intros [= <- <-]. simpl in Hlast. congruence.
    + intros [= <- <-]. split; [| discriminate].
      exists (complete_row (clock w1) (length records) 0 1 (Some (message err)) row0).
      simpl. rewrite lookup_alter_eq, Hsl, Hrow0. by repeat split.
Qed.

(** The totals a returning run records are its counters: with zero changes
    both are 0. *)
Lemma zero_change_run_totals config env records w w' :
  processCasesSync config env records w = (Ok tt, w') ->
  find_changes (case_state w) (dedupe records) = [] ->
  exists row, sync_log w' !! sync_log_seq w = Some row
              /\ changed_records row = 0%nat /\ errors row = 0%nat
              /\ calls w' = calls w.
Proof.
  unfold processCasesSync, bind at 1. rewrite createSyncLog_unfold.
  destruct (db_fault env (clock w)) eqn:Hcreate; [discriminate |].
  set (sid := sync_log_seq w).
  set (row0 := mkSyncLog "cases" (clock w) None 0 0 0 None).
  set (w0 := set_sync_log _ _ (tick w)).
  assert (Hrow0 : sync_log w0 !! sid = Some row0) by apply lookup_insert_eq.
  intros Hrun Hnil. revert Hrun.
  unfold try_catch. rewrite sync_body_no_changes by exact Hnil.
  destruct (bind (diffCases env records) _ w0) as [[[] | err] w1] eqn:Hbody.
  - intros [= <-]. apply bind_Ok in Hbody as (changes & wd & Hd & Hfin).
    apply diffCases_Ok in Hd as [_ ->].
    apply finish_Ok in Hfin as (wb & _ & Hdone & Hsl & _ & Hcalls).
    apply completeSyncLog_Ok in Hdone as (_ & _ & _ & Hcalls' & Hlog).
    exists (complete_row (clock wb) (length records) 0 0 None row0).
    rewrite Hlog, lookup_alter_eq, Hsl. simpl. rewrite lookup_insert_eq.
    repeat split. by rewrite Hcalls', Hcalls.
  - unfold bind, throw.
    destruct (completeSyncLog env _ _ _ _ _ w1) as [[[] | e'] w2]; discriminate.
Qed.


Lemma run_record_finalised_witness :
  exists row,
    sync_log world_after_second !! sync_log_seq world_after_first = Some row
    /\ completed_at row = Some 15%nat
    /\ total_records row = 2%nat
    /\ error_message row = None
    /\ changed_records row = 1%nat
    /\ errors row = 0%nat.
Proof.
  destruct (run_record_finalised_when_final_update_executes
              updates_on ticket7_env [opened_only; opened_and_closed]
              world_after_first (Ok tt) world_after_second)
    as [(row & Hrow & _ & Hdone & Htotal & Hmsg & wd & c & wp & Hd & Hloop
         & Hchanged & Herrors & _) _].
  - vm_compute. reflexivity.
  - reflexivity.
  - reflexivity.
  - exists row. split; [assumption |]. split; [assumption |].
    split; [assumption |]. split; [assumption |].
    vm_compute in Hd. injection Hd as <-.
    vm_compute in Hloop. injection Hloop as <- _.
    by split.
Defined.

(** C8 as stated fails: the store accepts the INSERT that creates the run
    record and rejects every later statement, the finalising UPDATE of the
    fatal path included; the run raises, and its record is left open. *)
Lemma run_record_left_open_when_store_stays_down :
  db_fault store_goes_down_env (clock empty_world) = None
  /\ exists e w' row,
      processCasesSync updates_on store_goes_down_env [opened_only] empty_world
      = (Throw e, w')
      /\ sync_log w' !! sync_log_seq empty_world = Some row
      /\ completed_at row = None
      /\ error_message row = None.
Proof.
  split; [reflexivity |].
  eexists _, _, _. split; [vm_compute; reflexivity |].
  split; [vm_compute; reflexivity |]. split; reflexivity.
Qed.

Lemma second_run_witness :
  calls (processCasesSync updates_on ticket7_env [opened_only] world_after_first).2
  = calls world_after_first.
Proof.
  apply (second_run_on_identical_batch_is_idempotent
           updates_on quiet_env [opened_only] empty_world world_after_first
           ltac:(vm_compute; reflexivity)
           updates_on ticket7_env
           (processCasesSync updates_on ticket7_env [opened_only] world_after_first).1
           (processCasesSync updates_on ticket7_env [opened_only] world_after_first).2
           ltac:(vm_compute; reflexivity)).
Defined.

Lemma upsert_overwrites_witness :
  exists row,
    case_state (upsertCaseState quiet_env [opened_and_closed] world_after_second).2
      !! "CE24-0001" = Some row
    /\ threefold_ticket_id row = Some 7
    /\ created_at row = 5%nat.
Proof.
  destruct (upsert_overwrites_data_columns_only
              quiet_env [opened_and_closed] world_after_second
              (upsertCaseState quiet_env [opened_and_closed] world_after_second).1
              (upsertCaseState quiet_env [opened_and_closed] world_after_second).2
              ltac:(vm_compute; reflexivity)) as [Hkeep _].
  destruct (Hkeep "CE24-0001"
                  (mkRow (Some "2025-01-01") (Some "2025-02-01") "closed"
                         "CODE ENFORCEMENT" "" "" ∅ "bd77b46805b8d1fc" (Some 7) 14 5)
                  ltac:(vm_compute; reflexivity))
    as (row & Hrow & Htk & Hcr & _).
  exists row. repeat split; assumption.
Defined.

(* ===================================================================== *)
(** ** Field reconciliation *)
(* ===================================================================== *)

Lemma wantOpened_truthy record v :
  wantOpened record = Some v -> truthy (wantOpened record) = true.
Proof.
  unfold wantOpened, or_null.
  destruct (truthy (caseOpened record)) eqn:E; [| discriminate].
  intros _. exact E.
Qed.

Lemma no_diff_spec record (t : TicketWithCustomFields) :
  no_diff (field_diff record (customFields t)) = true
  <-> remoteOpened t = desiredOpened record
      /\ remoteClosed t = desiredClosed record
      /\ remoteStatus t = desiredStatus record.
Proof.
  unfold no_diff, field_diff, remoteOpened, remoteClosed, remoteStatus,
    desiredOpened, desiredClosed, desiredStatus. simpl.
  rewrite !andb_true_iff, !negb_true_iff, !bool_decide_eq_false.
  split.
  - intros [[H1 H2] H3]. repeat split.
    + by destruct (decide (field_or_null (customFields t) "cc_case_opened"
                           = js_of_string (wantOpened record))).
    + by destruct (decide (field_or_null (customFields t) "case_close_date"
                           = js_of_string (wantClosed record))).
    + by destruct (decide (field_or_null (customFields t) "last_case_status"
                           = JString (status_text (wantStatus record)))).
  - intros (H1 & H2 & H3). repeat split; intros H; by apply H.
Qed.

(** The payload in terms of the comparison the loop body makes. *)
Lemma payload_by_field_comparison
        (config : Config) (env : Env) (change : CaseStateChange)
        (t : TicketWithCustomFields) (c : Counters) (w w1 : World) :
  caseUpdatesEnabled config = true ->
  find_ticket env change w = (Ok (Some t), w1) ->
  let record := ch_record change in
  let d := field_diff record (customFields t) in
  let payload := build_updateFields record d in
  (forall v, cc_case_opened payload = Some v
             <-> remoteOpened t <> desiredOpened record /\ wantOpened record = Some v)
  /\ (wantOpened record = None -> cc_case_opened payload = None)
  /\ (forall v, case_close_date payload = Some v
                <-> remoteClosed t <> desiredClosed record /\ v = wantClosed record)
  /\ (forall s, last_case_status payload = Some s
                <-> remoteStatus t <> desiredStatus record
                    /\ s = wantStatus record)
  /\ cc_case_number payload = None
  /\ (no_diff d = true
      <-> remoteOpened t = desiredOpened record
          /\ remoteClosed t = desiredClosed record
          /\ remoteStatus t = desiredStatus record)
  /\ (no_diff d = true ->
      calls (process_change config env change c w).2 = calls w1)
  /\ (no_diff d = false ->
      calls (process_change config env change c w).2
      = (calls w1 ++ [UpdateCall (ticket_id t) payload])%list).
Proof.
  intros Hon Hfind record d payload.
  split; [| split; [| split; [| split; [| split; [| split; [| split]]]]]].
  - intros v. unfold payload, build_updateFields, d, field_diff, remoteOpened,
      desiredOpened. simpl.
    case_bool_decide as Hd; simpl.
    + destruct (truthy (wantOpened record)) eqn:Ht.
      * split; [intros Hv; by split | by intros [_ Hv]].
      * split; [discriminate |]. intros [_ Hv].
        apply wantOpened_truthy in Hv. congruence.
    + split; [discriminate |]. by intros [Hne _].
  - intros Hnone. unfold payload, build_updateFields. simpl. rewrite Hnone.
    simpl. by rewrite andb_false_r.
  - intros v. unfold payload, build_updateFields, d, field_diff, remoteClosed,
      desiredClosed. simpl.
    case_bool_decide as Hd.
    + split; [intros [= <-]; by split | by intros [_ ->]].
    + split; [discriminate |]. by intros [Hne _].
  - intros s. unfold payload, build_updateFields, d, field_diff, remoteStatus,
      desiredStatus. simpl.
    case_bool_decide as Hd.
    + split; [intros [= <-]; by split | by intros [_ ->]].
    + split; [discriminate |]. by intros [Hne _].
  - reflexivity.
  - apply no_diff_spec.
  - intros Hnd. unfold process_change. rewrite Hon. simpl.
    unfold bind at 1. rewrite Hfind. fold record. fold d. rewrite Hnd.
    pose proof (traced_calls_frame
                  (bind (updateCaseThreefoldId env (ch_caseNo change) (ticket_id t))
                        (fun _ => ret (inc_noChanges c))) w1 link_effect) as Hframe.
    apply Hframe.
    + apply traced_bind; [apply traced_updateCaseThreefoldId | intros _; apply traced_ret].
    + by intros [] ?; simpl.
  - intros Hnd. unfold process_change. rewrite Hon. simpl.
    unfold bind at 1. rewrite Hfind. fold record. fold d. rewrite Hnd.
    fold payload.
    unfold updateTicketCustomFields, bind at 1 2, fetch.
    destruct (update_reply env (clock w1)) as [msg | status text []]; [reflexivity |].
    destruct (negb (response_ok status)); [reflexivity |].
    unfold ret at 1.
    pose proof (traced_calls_frame
                  (bind (updateCaseThreefoldId env (ch_caseNo change) (ticket_id t))
                        (fun _ => ret (inc_updated c)))
                  (tick (log_call (UpdateCall (ticket_id t) payload) w1))
                  link_effect) as Hframe.
    rewrite Hframe; [reflexivity | | by intros [] ?; simpl].
    apply traced_bind; [apply traced_updateCaseThreefoldId | intros _; apply traced_ret].
Qed.

Lemma or_null_normalised (d : option string) : or_null d = normalised_date d.
Proof. by destruct d as [[| c s] |]. Qed.

Lemma wantStatus_desired (r : CodeEnforcementCaseRecord) :
  wantStatus r = desired_status r.
Proof.
  unfold wantStatus, desired_status, determineCaseStatus.
  by destruct (caseOpened r) as [[| c s] |], (caseClosed r) as [[| c' s'] |].
Qed.

(** The comparison [(fields.k || null) !== v] is the comparison of the
    normalised values, for a desired date and for a status text. *)
Lemma field_or_null_date fields k (d : option string) :
  field_or_null fields k = js_of_string (or_null d)
  <-> normalised_remote fields k = (JString <$> normalised_date d).
Proof.
  unfold field_or_null, normalised_remote.
  destruct (fields !! k) as [[| | [| c s] | []] |], d as [[| c' s'] |];
    simpl; split; congruence.
Qed.

Lemma field_or_null_status fields k (st : CaseStatus) :
  field_or_null fields k = JString (status_text st)
  <-> normalised_remote fields k = Some (JString (status_text st)).
Proof.
  unfold field_or_null, normalised_remote.
  destruct (fields !! k) as [[| | [| c s] | []] |], st;
    simpl; split; congruence.
Qed.

(** C2. For a change whose ticket was found, with updates enabled, where
    "no value" is an absent or empty field on either side (see
    [normalised_remote] and [normalised_date]): the payload holds
    [cc_case_opened] exactly when the normalised remote value differs from
    the normalised desired one and the desired one has a value; it holds
    [case_close_date] (null when the desired date has no value) and
    [last_case_status] exactly when their normalised remote value differs
    from the desired one; it never holds [cc_case_number]. When none of the
    three differs, no payload is sent: the iteration issues no request at
    all after the lookup. When one differs, exactly one update request
    follows the lookup, carrying that payload. *)
Theorem update_payload_holds_exactly_the_differing_fields
        (config : Config) (env : Env) (change : CaseStateChange)
        (t : TicketWithCustomFields) (c : Counters) (w w1 : World) :
  caseUpdatesEnabled config = true ->
  find_ticket env change w = (Ok (Some t), w1) ->
  let record := ch_record change in
  let remote := customFields t in
  let d := field_diff record remote in
  let payload := build_updateFields record d in
  (forall v, cc_case_opened payload = Some v
             <-> date_differs remote "cc_case_opened" (caseOpened record)
                 /\ normalised_date (caseOpened record) = Some v)
  /\ (normalised_date (caseOpened record) = None -> cc_case_opened payload = None)
  /\ (forall v, case_close_date payload = Some v
                <-> date_differs remote "case_close_date" (caseClosed record)
                    /\ v = normalised_date (caseClosed record))
  /\ (forall s, last_case_status payload = Some s
                <-> status_differs remote record /\ s = desired_status record)
  /\ cc_case_number payload = None
  /\ (no_diff d = true
      <-> ~ date_differs remote "cc_case_opened" (caseOpened record)
          /\ ~ date_differs remote "case_close_date" (caseClosed record)
          /\ ~ status_differs remote record)
  /\ (no_diff d = true ->
      calls (process_change config env change c w).2 = calls w1)
  /\ (no_diff d = false ->
      calls (process_change config env change c w).2
      = (calls w1 ++ [UpdateCall (ticket_id t) payload])%list).
Proof.
  intros Hon Hfind record remote d payload.
  destruct (payload_by_field_comparison config env change t c w w1 Hon Hfind)
    as (Hopened & Hnone & Hclosed & Hstatus & Hnumber & Hguard & Hquiet & Hsend).
  fold record in Hopened, Hnone, Hclosed, Hstatus, Hnumber, Hguard, Hquiet, Hsend.
  fold remote in Hopened, Hnone, Hclosed, Hstatus, Hnumber, Hguard, Hquiet, Hsend.
  fold d in Hopened, Hnone, Hclosed, Hstatus, Hnumber, Hguard, Hquiet, Hsend.
  fold payload in Hopened, Hnone, Hclosed, Hstatus, Hnumber, Hsend.
  assert (HdO : remoteOpened t <> desiredOpened record
                <-> date_differs remote "cc_case_opened" (caseOpened record)).
  { unfold remoteOpened, desiredOpened, wantOpened, date_differs.
    by rewrite field_or_null_date. }
  assert (HdC : remoteClosed t <> desiredClosed record
                <-> date_differs remote "case_close_date" (caseClosed record)).
  { unfold remoteClosed, desiredClosed, wantClosed, date_differs.
    by rewrite field_or_null_date. }
  assert (HdS : remoteStatus t <> desiredStatus record
                <-> status_differs remote record).
  { unfold remoteStatus, desiredStatus, status_differs.
    by rewrite <- wantStatus_desired, field_or_null_status. }
  assert (HwO : wantOpened record = normalised_date (caseOpened record))
    by apply or_null_normalised.
  assert (HwC : wantClosed record = normalised_date (caseClosed record))
    by apply or_null_normalised.
  pose proof (wantStatus_desired record) as HwS.
  split; [| split; [| split; [| split; [| split; [| split; [| split]]]]]].
  - intros v. by rewrite Hopened, HdO, HwO.
  - intros Hno. apply Hnone. by rewrite HwO.
  - intros v. by rewrite Hclosed, HdC, HwC.
  - intros s. by rewrite Hstatus, HdS, HwS.
  - exact Hnumber.
  - rewrite Hguard, <- HdO, <- HdC, <- HdS.
    split; intros (H1 & H2 & H3).
    + repeat split; intros H; by apply H.
    + repeat split.
      * by destruct (decide (remoteOpened t = desiredOpened record)).
      * by destruct (decide (remoteClosed t = desiredClosed record)).
      * by destruct (decide (remoteStatus t = desiredStatus record)).
  - exact Hquiet.
  - exact Hsend.
Qed.

Lemma update_payload_witness :
  calls (process_change updates_on ticket7_env (new_change opened_and_closed)
                        zero_counters empty_world).2
  = [SearchCall "CE24-0001" 1 true;
     UpdateCall 7 (mkFields None (Some closed) None (Some (Some "2025-02-01")))].
Proof.
  pose proof (update_payload_holds_exactly_the_differing_fields
                updates_on ticket7_env (new_change opened_and_closed) ticket7
                zero_counters empty_world
                (find_ticket ticket7_env (new_change opened_and_closed) empty_world).2
                eq_refl ltac:(vm_compute; reflexivity)) as H.
  simpl in H. destruct H as (_ & _ & _ & _ & _ & _ & _ & Hsend).
  rewrite Hsend; [| vm_compute; reflexivity]. vm_compute. reflexivity.
Defined.

(* ===================================================================== *)
(** ** Case-number validation *)
(* ===================================================================== *)

Lemma parse_rows_spec trim rows acc n :
  parse_rows trim rows acc n
  = ((acc ++ map (fun row => record_of_row trim (row_caseNo trim row) row)
                 (List.filter (fun row => isValidCaseNo (row_caseNo trim row)) rows))%list,
     (n + length (List.filter (fun row => negb (isValidCaseNo (row_caseNo trim row)))
                              rows))%nat).
Proof.
  revert acc n. induction rows as [| row rows IH]; intros acc n; simpl.
  - by rewrite app_nil_r, Nat.add_0_r.
  - destruct (isValidCaseNo (row_caseNo trim row)); simpl; rewrite IH.
    + by rewrite <- app_assoc.
    + f_equal. lia.
Qed.

(** C3, as the code has it. The validator accepts exactly the strings made
    of the letter C, one upper-case letter A-Z, two digits, a hyphen and
    one or more digits. The parser keeps, in order, the rows whose trimmed
    CASE_NO passes and counts the others in [skipped]; every record it
    returns has a valid case number, so a run on the parser's output adds
    no row to [case_state] under a case number that fails validation. *)
Theorem case_numbers_are_validated_before_the_pipeline (trim : string -> string) :
  (forall id, isValidCaseNo id = true <-> case_no_shape id)
  /\ (forall rows,
         let valid := fun row => isValidCaseNo (row_caseNo trim row) in
         (parseCodeEnforcementCasesCsv trim rows).1
         = map (fun row => record_of_row trim (row_caseNo trim row) row)
               (List.filter valid rows)
         /\ (parseCodeEnforcementCasesCsv trim rows).2
            = length (List.filter (fun row => negb (valid row)) rows)
         /\ Forall (fun r => isValidCaseNo (caseNo r) = true)
                   (parseCodeEnforcementCasesCsv trim rows).1)
  /\ (forall config env rows w k,
         is_Some (case_state
                    (processCasesSync config env
                       (parseCodeEnforcementCasesCsv trim rows).1 w).2 !! k) ->
         is_Some (case_state w !! k) \/ isValidCaseNo k = true).
Proof.
  assert (Hparse : forall rows,
             Forall (fun r => isValidCaseNo (caseNo r) = true)
                    (parseCodeEnforcementCasesCsv trim rows).1).
  { intros rows. unfold parseCodeEnforcementCasesCsv. rewrite parse_rows_spec. simpl.
    apply Forall_forall. intros r Hr.
    apply list_elem_of_fmap in Hr as (row & -> & Hrow).
    apply list_elem_of_In, filter_In in Hrow as [_ Hvalid]. exact Hvalid. }
  split; [exact isValidCaseNo_shape |]. split.
  - intros rows valid. split; [| split; [| apply Hparse]].
    + unfold parseCodeEnforcementCasesCsv. by rewrite parse_rows_spec.
    + unfold parseCodeEnforcementCasesCsv. by rewrite parse_rows_spec.
  - intros config env rows w.
    set (records := (parseCodeEnforcementCasesCsv trim rows).1).
    apply (traced_case_state_invariant _ w records
             (fun cs => forall k, is_Some (cs !! k) ->
                                  is_Some (case_state w !! k) \/ isValidCaseNo k = true)
             (traced_processCasesSync config env records)).
    + intros now cs r Hr HP k Hk.
      destruct (decide (k = caseNo r)) as [-> | Hne].
      * right. apply dedupe_subseteq in Hr.
        pose proof (Hparse rows) as Hall. rewrite Forall_forall in Hall. by apply Hall.
      * rewrite upsert_row_other in Hk by assumption. by apply HP.
    + intros k0 tk cs HP k Hk. apply lookup_alter_is_Some in Hk. by apply HP.
    + intros k Hk. by left.
Qed.

(** C3 as stated fails: "AB12-345" is two letters, two digits, a hyphen
    and a numeric suffix, and the validator rejects it. *)
Lemma validator_rejects_a_two_letter_id_not_starting_with_C :
  ~ (isValidCaseNo "AB12-345" = true <-> two_letters_shape "AB12-345").
Proof.
  intros [_ H]. assert (Hfalse : isValidCaseNo "AB12-345" = true); [| discriminate].
  apply H. exists "A"%char, "B"%char, "1"%char, "2"%char, "345".
  repeat split; discriminate.
Qed.

Example parser_drops_invalid_rows :
  map caseNo
      (parseCodeEnforcementCasesCsv ascii_trim
         [ {[ "CASE_NO" := " CE24-0001 " ]}; {[ "CASE_NO" := "ce24-0002" ]};
           {[ "STARTED" := "1/2/2025" ]}; {[ "CASE_NO" := "CC25-0774" ]} ]).1
  = ["CE24-0001"; "CC25-0774"]
  /\ (parseCodeEnforcementCasesCsv ascii_trim
         [ {[ "CASE_NO" := " CE24-0001 " ]}; {[ "CASE_NO" := "ce24-0002" ]};
           {[ "STARTED" := "1/2/2025" ]}; {[ "CASE_NO" := "CC25-0774" ]} ]).2 = 2%nat.
Proof. vm_compute. split; reflexivity. Qed.

Example normalizeDate_examples :
  normalizeDate ascii_trim (Some "11/10/2022 12:00:00 AM") = Some "2022-11-10"
  /\ normalizeDate ascii_trim (Some "1/2/2025") = Some "2025-01-02"
  /\ normalizeDate ascii_trim (Some "2025-01-02") = None
  /\ normalizeDate ascii_trim (Some "   ") = None
  /\ normalizeDate ascii_trim None = None.
Proof. vm_compute. repeat split; reflexivity. Qed.

(* ===================================================================== *)
(** ** The search-available flag *)
(* ===================================================================== *)

Section SearchFlag.

Variable env : Env.

(** Once the flag is off, a lookup by case number answers "no ticket"
    without touching the world: no request, no tick. *)
Lemma findTicketByCaseNumber_disabled k w :
  searchApiAvailable w = false ->
  findTicketByCaseNumber env k w = (Ok None, w).
Proof. intros Hoff. unfold findTicketByCaseNumber. by rewrite Hoff. Qed.

(** A 405 answer to the search turns the flag off and reads as "no
    ticket". *)
Lemma findTicketByCaseNumber_405 k w text data :
  searchApiAvailable w = true ->
  search_reply env (clock w) = Response 405 text data ->
  findTicketByCaseNumber env k w
  = (Ok None, set_searchApiAvailable false (tick (log_call (SearchCall k 1 true) w))).
Proof.
  intros Hon Hreply. unfold findTicketByCaseNumber. rewrite Hon. simpl.
  unfold try_catch, bind, searchTicketsByCustomField, bind, fetch.
  rewrite Hreply. reflexivity.
Qed.

(** A search error whose message does not contain "405" reaches the
    caller. *)
Lemma findTicketByCaseNumber_rethrows k w e w1 :
  searchApiAvailable w = true ->
  searchTicketsByCustomField env k 1 true w = (Throw e, w1) ->
  includes "405" (message e) = false ->
  findTicketByCaseNumber env k w = (Throw e, w1).
Proof.
  intros Hon Hsearch Hmsg. unfold findTicketByCaseNumber. rewrite Hon. simpl.
  unfold try_catch, bind at 1. rewrite Hsearch, Hmsg. reflexivity.
Qed.

(** Nothing turns the flag back on: not a lookup, not a whole run. *)
Lemma flag_stays_off_lookup k w :
  searchApiAvailable w = false ->
  searchApiAvailable (findTicketByCaseNumber env k w).2 = false.
Proof. apply (traced_flag_stays_off _ _ _ (traced_findTicketByCaseNumber env k)). Qed.

Lemma flag_stays_off_run config records w :
  searchApiAvailable w = false ->
  searchApiAvailable (processCasesSync config env records w).2 = false.
Proof.
  apply (traced_flag_stays_off _ _ _ (traced_processCasesSync config env records)).
Qed.

End SearchFlag.

(** C7 at its failing input. The search endpoint answers with status 500,
    not 405, and a body that happens to contain the digits 405. The search
    throws, yet the lookup returns "no ticket" instead of raising, and it
    turns the process-wide flag off. *)
Theorem search_error_500_mentioning_405_is_swallowed :
  search_reply search_500_env (clock empty_world)
  = Response 500 "upstream timeout, request 1405" []
  /\ (searchTicketsByCustomField search_500_env "CE24-0001" 1 true empty_world).1
     = Throw (mkError "Failed to search tickets: 500 upstream timeout, request 1405")
  /\ (findTicketByCaseNumber search_500_env "CE24-0001" empty_world).1 = Ok None
  /\ searchApiAvailable
       (findTicketByCaseNumber search_500_env "CE24-0001" empty_world).2 = false.
Proof. vm_compute. repeat split; reflexivity. Qed.

(* ===================================================================== *)
(** ** The cached ticket id *)
(* ===================================================================== *)

(** C9 at its failing input. A case seen for the first time is matched to
    ticket 7 by the search (the ticket is already up to date, so the run
    takes the "no diff" branch and calls [updateCaseThreefoldId]); the
    UPDATE finds no row, because the row is only inserted by the bulk upsert
    at the end of the run, and the inserted row has a null
    [threefold_ticket_id]. The same happens on the branch that sends an
    update. *)
Theorem new_case_ticket_id_is_not_cached :
  (processCasesSync updates_on ticket7_env [opened_only] empty_world).1 = Ok tt
  /\ calls (processCasesSync updates_on ticket7_env [opened_only] empty_world).2
     = [SearchCall "CE24-0001" 1 true]
  /\ (threefold_ticket_id
        <$> case_state (processCasesSync updates_on ticket7_env [opened_only]
                                         empty_world).2 !! "CE24-0001")
     = Some None
  /\ calls (processCasesSync updates_on ticket7_env [opened_and_closed] empty_world).2
     = [SearchCall "CE24-0001" 1 true;
        UpdateCall 7 (mkFields None (Some closed) None (Some (Some "2025-02-01")))]
  /\ (threefold_ticket_id
        <$> case_state (processCasesSync updates_on ticket7_env [opened_and_closed]
                                         empty_world).2 !! "CE24-0001")
     = Some None.
Proof. vm_compute. repeat split; reflexivity. Qed.

(** For a case that already has a row the id is cached and survives the
    bulk upsert at the end of the run. *)
Example known_case_ticket_id_is_cached :
  (threefold_ticket_id <$> case_state world_after_first !! "CE24-0001") = Some None
  /\ (threefold_ticket_id <$> case_state world_after_second !! "CE24-0001")
     = Some (Some 7).
Proof. vm_compute. split; reflexivity. Qed.

(** Within one iteration, for a case that already has a row: when the
    iteration completes after matching ticket [t], the row's cached id is
    [t]'s id, on the "no diff" branch and on the update branch alike. *)
Lemma known_case_link_is_cached
      (config : Config) (env : Env) (change : CaseStateChange)
      (t : TicketWithCustomFields) (c c' : Counters) (w w1 w' : World)
      (row : CaseStateRow) :
  caseUpdatesEnabled config = true ->
  find_ticket env change w = (Ok (Some t), w1) ->
  case_state w !! ch_caseNo change = Some row ->
  process_change config env change c w = (Ok c', w') ->
  threefold_ticket_id <$> case_state w' !! ch_caseNo change = Some (Some (ticket_id t)).
Proof.
  intros Hon Hfind Hrow.
  assert (Hcs : case_state w1 = case_state w).
  { pose proof (traced_case_state_frame (find_ticket env change) w remote_effect
                  (traced_find_ticket env change)) as Hframe.
    rewrite Hfind in Hframe. apply Hframe. by intros []; simpl. }
  assert (Hlink : forall (k : M Counters) w2 c2 w3,
             case_state w2 = case_state w ->
             bind (updateCaseThreefoldId env (ch_caseNo change) (ticket_id t))
                  (fun _ => k) w2 = (Ok c2, w3) ->
             (forall w4 c4 w5, k w4 = (Ok c4, w5) -> w5 = w4) ->
             threefold_ticket_id <$> case_state w3 !! ch_caseNo change
             = Some (Some (ticket_id t))).
  { intros k w2 c2 w3 Hcs2 Hrun Hk.
    apply bind_Ok in Hrun as ([] & w4 & Hupd & Hret).
    apply Hk in Hret as ->.
    unfold updateCaseThreefoldId, db_exec in Hupd.
    destruct (db_fault env (clock w2)); [discriminate |].
    injection Hupd as <-. simpl. by rewrite lookup_alter_eq, Hcs2, Hrow. }
  unfold process_change. rewrite Hon. simpl. unfold bind at 1. rewrite Hfind.
  destruct (no_diff _).
  - intros Hrun. apply (Hlink _ _ _ _ Hcs Hrun). by intros w4 c4 w5 [= _ <-].
  - intros Hrun. apply bind_Ok in Hrun as ([] & w2 & Hsend & Hrest).
    assert (Hcs2 : case_state w2 = case_state w).
    { pose proof (traced_case_state_frame
                    (updateTicketCustomFields env (ticket_id t)
                       (build_updateFields (ch_record change)
                          (field_diff (ch_record change) (customFields t))))
                    w1 remote_effect (traced_updateTicketCustomFields env _ _)) as Hframe.
      rewrite Hsend in Hframe. simpl in Hframe. rewrite Hframe; [exact Hcs |].
      by intros []; simpl. }
    apply (Hlink _ _ _ _ Hcs2 Hrest). by intros w4 c4 w5 [= _ <-].
Qed.

(** When the store rejects the last statement of a run, the run raises
    that rejection and its record is left open. *)
Lemma run_record_left_open_when_final_update_fails
      (config : Config) (env : Env) (records : list CodeEnforcementCaseRecord)
      (w : World) (res : Result unit) (w' : World) (msg : string) :
  processCasesSync config env records w = (res, w') ->
  db_fault env (clock w) = None ->
  db_fault env (Nat.pred (clock w')) = Some msg ->
  res = Throw (mkError msg)
  /\ exists row, sync_log w' !! sync_log_seq w = Some row /\ completed_at row = None.
Proof.
  intros Hrun Hcreate Hlast. revert Hrun.
  unfold processCasesSync, bind at 1. rewrite createSyncLog_unfold, Hcreate.
  set (sid := sync_log_seq w).
  set (row0 := mkSyncLog "cases" (clock w) None 0 0 0 None).
  set (w0 := set_sync_log _ _ (tick w)).
  assert (Hrow0 : sync_log w0 !! sid = Some row0) by apply lookup_insert_eq.
  unfold try_catch.
  destruct (sync_body config env sid records w0) as [[[] | err] w1] eqn:Hbody.
  - intros [= <- <-].
    apply sync_body_prefix in Hbody as (wa & u & e & _ & _ & _ & Hcase).
    destruct Hcase as [(err & [=] & _) | Hfin].
    apply finish_Ok in Hfin as (wb & _ & Hdone & _).
    apply completeSyncLog_Ok in Hdone as (Hok & Hclock & _).
    rewrite Hclock in Hlast. simpl in Hlast. congruence.
  - assert (Hsl : sync_log w1 = sync_log w0).
    { apply sync_body_prefix in Hbody as (wa & u & e & Hsl & _ & _ & Hcase).
      destruct Hcase as [(err' & _ & ->) | Hfin]; [assumption |].
      apply finish_Throw in Hfin as (-> & _ & _). assumption. }
    unfold bind, throw. rewrite completeSyncLog_unfold.
    destruct (db_fault env (clock w1)) as [msg' |] eqn:Hfault.
    + intros [= <- <-]. simpl in Hlast. rewrite Hfault in Hlast.
      injection Hlast as ->. split; [reflexivity |].
      exists row0. simpl. by rewrite Hsl, Hrow0.
    + intros [= <- <-]. simpl in Hlast. congruence.
Qed.

Example non_string_remote_value_always_differs :
  no_diff (field_diff opened_only
             (list_to_map [("cc_case_opened", JOther true);
                           ("last_case_status", JString "open")])) = false
  /\ build_updateFields opened_only
       (field_diff opened_only
          (list_to_map [("cc_case_opened", JOther true);
                        ("last_case_status", JString "open")]))
     = mkFields None None (Some "2025-01-01") None.
Proof. vm_compute. split; reflexivity. Qed.

(** An empty desired opened date is never written: the update goes out
    with an empty payload. *)
Example empty_opened_date_is_not_written :
  build_updateFields (rec_dates "CE24-0001" None None)
    (field_diff (rec_dates "CE24-0001" None None) (customFields ticket7))
  = no_fields.
Proof. vm_compute. reflexivity. Qed.

(* ===================================================================== *)
(** ** Date normalisation *)
(* ===================================================================== *)

Lemma append_cons (c : ascii) (a b : string) :
  String c a +:+ b = String c (a +:+ b).
Proof. reflexivity. Qed.

Lemma append_nil (b : string) : "" +:+ b = b.
Proof. reflexivity. Qed.

Ltac simpl_append := rewrite ?append_cons, ?append_nil.

Lemma span_digits_spec (s : string) :
  s = (span_digits s).1 +:+ (span_digits s).2
  /\ all_digits (span_digits s).1 = true
  /\ match (span_digits s).2 with
     | String c _ => is_digit c = false
     | EmptyString => True
     end.
Proof.
  induction s as [| c s IH]; simpl; [done |].
  destruct (is_digit c) eqn:Hc.
  - destruct (span_digits s) as [ds r]. simpl in *.
    destruct IH as (Heq & Hds & Hr). rewrite Hc, Hds.
    split; [simpl_append; by f_equal | by split].
  - simpl. by repeat split.
Qed.

Lemma span_digits_app (ds r : string) :
  all_digits ds = true ->
  match r with String c _ => is_digit c = false | EmptyString => True end ->
  span_digits (ds +:+ r) = (ds, r).
Proof.
  intros Hds Hr. induction ds as [| c ds IH]; simpl_append; simpl in *.
  - destruct r as [| c r]; [reflexivity |]. simpl. by rewrite Hr.
  - apply andb_true_iff in Hds as [Hc Hds]. rewrite Hc, (IH Hds). reflexivity.
Qed.

Lemma all_digits_app (a b : string) :
  all_digits (a +:+ b) = all_digits a && all_digits b.
Proof.
  induction a as [| c a IH]; simpl_append; simpl; [reflexivity |].
  by rewrite IH, andb_assoc.
Qed.

Lemma length_append (a b : string) :
  String.length (a +:+ b) = (String.length a + String.length b)%nat.
Proof. induction a as [| c a IH]; simpl_append; simpl; [reflexivity | by rewrite IH]. Qed.

Lemma padStart2_digits (s : string) :
  all_digits s = true -> (1 <= String.length s <= 2)%nat ->
  String.length (padStart2 s) = 2%nat /\ all_digits (padStart2 s) = true.
Proof.
  intros Hs Hlen. destruct s as [| c1 [| c2 [| c3 s]]]; simpl in *; try lia.
  - unfold padStart2. simpl. simpl_append. simpl. split; [reflexivity |].
    apply andb_true_iff in Hs as [-> _]. reflexivity.
  - unfold padStart2. simpl. by split.
Qed.

Lemma normalizeDate_Some_inv (trim : string -> string) (s out : string) :
  normalizeDate trim (Some s) = Some out ->
  s <> "" /\ trim s <> ""
  /\ exists month day year,
      mdy_shape (before_space s) month day year
      /\ out = year +:+ "-" +:+ padStart2 month +:+ "-" +:+ padStart2 day.
Proof.
  unfold normalizeDate, mdy_shape.
  destruct s as [| c0 s0]; [discriminate |].
  remember (String c0 s0) as s eqn:Hs.
  assert (Hne : s <> "") by (subst; discriminate).
  replace (truthy (Some s)) with true by (subst; reflexivity).
  simpl negb. simpl orb.
  destruct (String.eqb_spec (trim s) "") as [| Htrim]; [discriminate |].
  generalize (span_digits_spec (before_space s)).
  destruct (span_digits (before_space s)) as [month r1]. cbn [fst snd].
  intros (Heq1 & Hm & _).
  destruct r1 as [| c1 r2]; [discriminate |].
  destruct (Ascii.eqb_spec c1 "/") as [-> | Hc1];
    [| destruct c1 as [[] [] [] [] [] [] [] []]; try discriminate; congruence].
  generalize (span_digits_spec r2).
  destruct (span_digits r2) as [day r3]. cbn [fst snd].
  intros (Heq2 & Hd & _).
  destruct r3 as [| c2 year]; [discriminate |].
  destruct (Ascii.eqb_spec c2 "/") as [-> | Hc2];
    [| destruct c2 as [[] [] [] [] [] [] [] []]; try discriminate; congruence].
  destruct (_ && _) eqn:Hcond; [| discriminate].
  intros [= <-].
  repeat (apply andb_true_iff in Hcond as [Hcond ?]).
  repeat match goal with
         | H : (_ <=? _)%nat = true |- _ => apply Nat.leb_le in H
         | H : (_ =? _)%nat = true |- _ => apply Nat.eqb_eq in H
         end.
  split; [assumption |]. split; [assumption |].
  exists month, day, year. split; [| reflexivity].
  split; [by rewrite Heq1, Heq2 |]. repeat split; assumption || lia.
Qed.

(** X1. [normalizeDate] returns a date exactly for a text that is not empty
    and not blank and whose part before the first space is [M/D/YYYY] (one or
    two digits, a slash, one or two digits, a slash, four digits); the result
    is the year, the month and the day, the last two padded to two digits,
    joined by hyphens. Whatever follows the first space is ignored. *)
Theorem normalizeDate_accepts_exactly_month_day_year
        (trim : string -> string) (s out : string) :
  normalizeDate trim (Some s) = Some out
  <-> s <> "" /\ trim s <> ""
      /\ exists month day year,
          mdy_shape (before_space s) month day year
          /\ out = year +:+ "-" +:+ padStart2 month +:+ "-" +:+ padStart2 day.
Proof.
  split; [apply normalizeDate_Some_inv |].
  unfold normalizeDate, mdy_shape.
  intros (Hne & Htrim & month & day & year &
          (Heq & Hm & Hd & Hy & Hlm & Hld & Hly) & ->).
  destruct s as [| c0 s0]; [done |].
  remember (String c0 s0) as s eqn:Hs.
  replace (truthy (Some s)) with true by (subst; reflexivity).
  simpl negb. simpl orb.
  destruct (String.eqb_spec (trim s) "") as [| _]; [done |].
  rewrite Heq.
  rewrite (span_digits_app month ("/" +:+ day +:+ "/" +:+ year)) by done.
  simpl_append. rewrite (span_digits_app day (String "/" year)) by done.
  rewrite Hy, Hly.
  replace (1 <=? String.length month)%nat with true by (symmetry; apply Nat.leb_le; lia).
  replace (String.length month <=? 2)%nat with true by (symmetry; apply Nat.leb_le; lia).
  replace (1 <=? String.length day)%nat with true by (symmetry; apply Nat.leb_le; lia).
  replace (String.length day <=? 2)%nat with true by (symmetry; apply Nat.leb_le; lia).
  simpl. simpl_append. reflexivity.
Qed.

Lemma all_digits_no_bar (s : string) : all_digits s = true -> no_bar s = true.
Proof.
  induction s as [| c s IH]; simpl; [done |].
  intros [Hc Hs]%andb_true_iff. rewrite (IH Hs), andb_true_r.
  destruct (Ascii.eqb_spec c "|") as [-> |]; [discriminate | reflexivity].
Qed.

Lemma no_bar_app (a b : string) : no_bar (a +:+ b) = no_bar a && no_bar b.
Proof.
  induction a as [| c a IH]; simpl_append; simpl; [reflexivity |].
  by rewrite IH, andb_assoc.
Qed.

Lemma iso_date_facts (s : string) :
  iso_date_shape s ->
  String.length s = 10%nat /\ truthy (Some s) = true /\ no_bar s = true.
Proof.
  intros (y & m & d & -> & Hy & Hm & Hd & Hdy & Hdm & Hdd).
  split; [| split].
  - rewrite !length_append, Hy, Hm, Hd. reflexivity.
  - destruct y; [discriminate | reflexivity].
  - rewrite !no_bar_app.
    rewrite (all_digits_no_bar y), (all_digits_no_bar m), (all_digits_no_bar d)
      by assumption.
    reflexivity.
Qed.

Lemma normalizeDate_iso (trim : string -> string) (o : option string) (out : string) :
  normalizeDate trim o = Some out -> iso_date_shape out.
Proof.
  intros Hn. destruct o as [s |]; [| discriminate].
  apply normalizeDate_Some_inv in Hn
    as (_ & _ & month & day & year & (_ & Hm & Hd & Hy & Hlm & Hld & Hly) & ->).
  destruct (padStart2_digits month Hm Hlm) as [Hpm Hpdm].
  destruct (padStart2_digits day Hd Hld) as [Hpd Hpdd].
  exists year, (padStart2 month), (padStart2 day). by repeat split.
Qed.

(** X2. Whenever [normalizeDate] returns a date it is [YYYY-MM-DD]: ten
    characters, four digits, two digits and two digits separated by hyphens.
    In particular it is never the empty string. *)
Theorem normalizeDate_result_is_iso_date
        (trim : string -> string) (o : option string) (out : string) :
  normalizeDate trim o = Some out ->
  iso_date_shape out /\ String.length out = 10%nat /\ out <> "".
Proof.
  intros Hn. pose proof (normalizeDate_iso trim o out Hn) as Hshape.
  split; [exact Hshape |].
  destruct (iso_date_facts _ Hshape) as (Hlen & _ & _). split; [exact Hlen |].
  intros Heq. rewrite Heq in Hlen. discriminate.
Qed.

Lemma normalizeDate_result_witness :
  iso_date_shape "2022-11-10" /\ String.length "2022-11-10" = 10%nat
  /\ "2022-11-10" <> "".
Proof.
  apply (normalizeDate_result_is_iso_date ascii_trim (Some "11/10/2022 12:00:00 AM")).
  vm_compute. reflexivity.
Defined.

(* ===================================================================== *)
(** ** Parsed records *)
(* ===================================================================== *)

Lemma elem_of_parsed (trim : string -> string) rows r :
  r ∈ (parseCodeEnforcementCasesCsv trim rows).1 ->
  exists row, row ∈ rows
              /\ isValidCaseNo (row_caseNo trim row) = true
              /\ r = record_of_row trim (row_caseNo trim row) row.
Proof.
  unfold parseCodeEnforcementCasesCsv. rewrite parse_rows_spec. simpl.
  intros Hr. apply list_elem_of_fmap in Hr as (row & -> & Hrow).
  apply list_elem_of_In, filter_In in Hrow as [Hin Hvalid].
  exists row. split; [by apply list_elem_of_In | by split].
Qed.

Lemma parsed_dates_iso (trim : string -> string) rows r d :
  r ∈ (parseCodeEnforcementCasesCsv trim rows).1 ->
  caseOpened r = Some d \/ caseClosed r = Some d -> iso_date_shape d.
Proof.
  intros Hr. apply elem_of_parsed in Hr as (row & _ & _ & ->). simpl.
  intros [Hd | Hd]; by apply normalizeDate_iso in Hd.
Qed.

(** X3. Every record the parser returns carries its row as [rawData], a
    case number that is the trimmed CASE_NO, and dates that are either null
    or [YYYY-MM-DD]; so its derived status is [closed] exactly when both the
    STARTED and the CLOSED column normalise to a date. *)
Theorem parsed_record_dates_and_status
        (trim : string -> string) (rows : list (gmap string string))
        (r : CodeEnforcementCaseRecord) :
  r ∈ (parseCodeEnforcementCasesCsv trim rows).1 ->
  rawData r ∈ rows
  /\ caseNo r = row_caseNo trim (rawData r)
  /\ caseOpened r = normalizeDate trim (rawData r !! "STARTED")
  /\ caseClosed r = normalizeDate trim (rawData r !! "CLOSED")
  /\ (forall d, caseOpened r = Some d \/ caseClosed r = Some d -> iso_date_shape d)
  /\ (determineCaseStatus (caseOpened r) (caseClosed r) = closed
      <-> is_Some (caseOpened r) /\ is_Some (caseClosed r)).
Proof.
  intros Hr. apply elem_of_parsed in Hr as (row & Hrow & Hvalid & ->). simpl.
  split; [assumption |]. split; [reflexivity |]. split; [reflexivity |].
  split; [reflexivity |].
  assert (Hiso : forall col d, normalizeDate trim (row !! col) = Some d ->
                               iso_date_shape d /\ truthy (Some d) = true).
  { intros col d Hd. apply normalizeDate_iso in Hd.
    split; [assumption |]. by apply iso_date_facts. }
  split.
  - intros d [Hd | Hd]; apply Hiso in Hd as [Hd _]; exact Hd.
  - unfold determineCaseStatus.
    destruct (normalizeDate trim (row !! "STARTED")) as [o |] eqn:Ho;
      destruct (normalizeDate trim (row !! "CLOSED")) as [c |] eqn:Hc.
    + apply Hiso in Ho as [_ ->]. apply Hiso in Hc as [_ ->]. simpl.
      split; [intros _; split; eauto | reflexivity].
    + apply Hiso in Ho as [_ ->]. simpl.
      split; [discriminate | intros [_ [? [=]]]].
    + simpl. split; [discriminate | intros [[? [=]] _]].
    + simpl. split; [discriminate | intros [[? [=]] _]].
Qed.

Lemma parsed_record_witness :
  determineCaseStatus (Some "2025-01-02") (Some "2025-02-03") = closed
  <-> is_Some (Some "2025-01-02") /\ is_Some (Some "2025-02-03").
Proof.
  apply (parsed_record_dates_and_status ascii_trim
           [ {[ "CASE_NO" := "CE24-0001"; "STARTED" := "1/2/2025";
                "CLOSED" := "2/3/2025 12:00:00 AM" ]} ]
           (mkRecord "CE24-0001" (Some "2025-01-02") (Some "2025-02-03") "" "" ""
                     {[ "CASE_NO" := "CE24-0001"; "STARTED" := "1/2/2025";
                        "CLOSED" := "2/3/2025 12:00:00 AM" ]})).
  vm_compute. constructor.
Defined.

(* ===================================================================== *)
(** ** The hashed content and the hash *)
(* ===================================================================== *)

Lemma isValidCaseNo_no_bar (s : string) : isValidCaseNo s = true -> no_bar s = true.
Proof.
  intros (c & d1 & d2 & suffix & -> & Hc & Hd1 & Hd2 & _ & Hsuf)%isValidCaseNo_shape.
  simpl. rewrite (all_digits_no_bar suffix Hsuf).
  destruct (Ascii.eqb_spec c "|") as [-> |]; [discriminate |].
  destruct (Ascii.eqb_spec d1 "|") as [-> |]; [discriminate |].
  destruct (Ascii.eqb_spec d2 "|") as [-> |]; [discriminate |].
  reflexivity.
Qed.

Lemma bar_separated_inj (a a' b b' : string) :
  no_bar a = true -> no_bar a' = true ->
  a +:+ "|" +:+ b = a' +:+ "|" +:+ b' -> a = a' /\ b = b'.
Proof.
  revert a'. induction a as [| c a IH]; intros [| c' a']; simpl_append; simpl.
  - intros _ _ [= ->]. by split.
  - intros _ [Hc' _]%andb_true_iff [= <- _]. discriminate.
  - intros [Hc _]%andb_true_iff _ [= -> _]. discriminate.
  - intros [_ Ha]%andb_true_iff [_ Ha']%andb_true_iff [= -> Heq].
    destruct (IH a' Ha Ha' Heq) as [-> ->]. by split.
Qed.

(** X4. For two records of one parsed file the hashed content
    [caseNo|caseOpened|caseClosed] is the same only if the case number, the
    opened date and the closed date are the same: the separator cannot be
    confused with the fields, and a null date cannot be confused with a
    date. *)
Theorem parsed_records_with_equal_content_agree
        (trim : string -> string) (rows : list (gmap string string))
        (r1 r2 : CodeEnforcementCaseRecord) :
  r1 ∈ (parseCodeEnforcementCasesCsv trim rows).1 ->
  r2 ∈ (parseCodeEnforcementCasesCsv trim rows).1 ->
  hash_content r1 = hash_content r2 ->
  caseNo r1 = caseNo r2 /\ caseOpened r1 = caseOpened r2 /\ caseClosed r1 = caseClosed r2.
Proof.
  assert (Hfacts : forall r,
             r ∈ (parseCodeEnforcementCasesCsv trim rows).1 ->
             no_bar (caseNo r) = true
             /\ no_bar (nullish_empty (caseOpened r)) = true
             /\ (forall o, o = caseOpened r \/ o = caseClosed r ->
                           o = None \/ exists d, o = Some d /\ d <> "")).
  { intros r Hr.
    pose proof (fun d => parsed_dates_iso trim rows r d Hr) as Hiso.
    apply elem_of_parsed in Hr as (row & _ & Hvalid & Hr).
    split; [subst r; by apply isValidCaseNo_no_bar |]. split.
    - destruct (caseOpened r) as [d |] eqn:E; [| reflexivity].
      simpl. apply iso_date_facts, Hiso. by left.
    - intros o Ho. destruct o as [d |]; [right | by left].
      exists d. split; [reflexivity |].
      assert (Hd : iso_date_shape d) by (apply Hiso; destruct Ho as [<- | <-]; auto).
      apply iso_date_facts in Hd as (Hlen & _ & _). intros ->. discriminate. }
  intros H1 H2 Heq.
  destruct (Hfacts r1 H1) as (Hn1 & Ho1 & Hd1).
  destruct (Hfacts r2 H2) as (Hn2 & Ho2 & Hd2).
  unfold hash_content in Heq. cbn [join] in Heq.
  apply bar_separated_inj in Heq as [Hno Heq]; [| assumption ..].
  apply bar_separated_inj in Heq as [Hopen Hclose]; [| assumption ..].
  assert (Hinj : forall o1 o2,
             (o1 = None \/ exists d, o1 = Some d /\ d <> "") ->
             (o2 = None \/ exists d, o2 = Some d /\ d <> "") ->
             nullish_empty o1 = nullish_empty o2 -> o1 = o2).
  { intros o1 o2 [-> | (d1 & -> & Hne1)] [-> | (d2 & -> & Hne2)]; simpl;
      congruence. }
  split; [exact Hno |]. split; apply Hinj; auto.
Qed.

Lemma parsed_records_content_witness :
  let row1 : gmap string string :=
    {[ "CASE_NO" := "CE24-0001"; "STARTED" := "1/1/2025"; "CaseType" := "ZONING" ]} in
  let row2 : gmap string string :=
    {[ "CASE_NO" := " CE24-0001"; "STARTED" := "01/01/2025 12:00:00 AM" ]} in
  let r1 := record_of_row ascii_trim "CE24-0001" row1 in
  let r2 := record_of_row ascii_trim "CE24-0001" row2 in
  caseNo r1 = caseNo r2 /\ caseOpened r1 = caseOpened r2 /\ caseClosed r1 = caseClosed r2.
Proof.
  intros row1 row2 r1 r2.
  apply (parsed_records_with_equal_content_agree ascii_trim [row1; row2] r1 r2).
  - vm_compute. constructor.
  - vm_compute. constructor. constructor.
  - vm_compute. reflexivity.
Defined.

Lemma length_string_of_list_ascii (l : list ascii) :
  String.length (string_of_list_ascii l) = length l.
Proof. induction l as [| c l IH]; simpl; [reflexivity | by rewrite IH]. Qed.

Lemma all_hex_string_of_list_ascii (l : list ascii) :
  Forall (fun c => is_hex_digit c = true) l -> all_hex (string_of_list_ascii l) = true.
Proof.
  induction 1 as [| c l Hc _ IH]; simpl; [reflexivity | by rewrite Hc, IH].
Qed.

Lemma substring_prefix_facts (n : nat) (s : string) :
  (n <= String.length s)%nat ->
  String.length (String.substring 0 n s) = n
  /\ (all_hex s = true -> all_hex (String.substring 0 n s) = true).
Proof.
  revert s. induction n as [| n IH]; intros s Hlen.
  - destruct s; simpl; by split.
  - destruct s as [| c s]; simpl in *; [lia |].
    destruct (IH s ltac:(lia)) as [Hl Hh]. split; [by rewrite Hl |].
    intros [Hc Hs]%andb_true_iff. by rewrite Hc, Hh.
Qed.

Lemma hex_digit_is_hex (y : Z) :
  is_hex_digit (SHA256.hex_digit (Z.land y 0xF)) = true.
Proof.
  assert (Hrange : 0 <= Z.land y 0xF < 16).
  { change 0xF with (Z.ones 4). rewrite Z.land_ones by lia.
    apply Z.mod_pos_bound. lia. }
  unfold SHA256.hex_digit.
  assert (Hk : (Z.to_nat (Z.land y 0xF) < 16)%nat) by lia.
  revert Hk. generalize (Z.to_nat (Z.land y 0xF)). intros k Hk.
  do 16 (destruct k as [| k]; [reflexivity |]). lia.
Qed.

Lemma hex_of_word_facts (x : Z) :
  length (SHA256.hex_of_word x) = 8%nat
  /\ Forall (fun c => is_hex_digit c = true) (SHA256.hex_of_word x).
Proof.
  unfold SHA256.hex_of_word. split.
  - by rewrite length_map, length_rev, length_seq.
  - apply Forall_forall. intros c Hc.
    apply list_elem_of_fmap in Hc as (i & -> & _). apply hex_digit_is_hex.
Qed.

Lemma digest_words_length (msg : list Z) : length (SHA256.digest_words msg) = 8%nat.
Proof.
  unfold SHA256.digest_words.
  assert (H0len : length SHA256.H0 = 8%nat) by (vm_compute; reflexivity).
  revert H0len. generalize SHA256.H0.
  induction (SHA256.group 64 (SHA256.pad msg)) as [| b bs IH]; intros h Hh; simpl.
  - exact Hh.
  - apply IH. unfold SHA256.compress. rewrite length_zip_with, Hh. reflexivity.
Qed.

Lemma hexdigest_facts (s : string) :
  String.length (SHA256.hexdigest s) = 64%nat /\ all_hex (SHA256.hexdigest s) = true.
Proof.
  unfold SHA256.hexdigest.
  pose proof (digest_words_length (SHA256.bytes_of_string s)) as Hlen.
  revert Hlen. generalize (SHA256.digest_words (SHA256.bytes_of_string s)).
  intros ws Hlen. split.
  - rewrite length_string_of_list_ascii.
    assert (Hgen : forall l : list Z,
               length (concat (map SHA256.hex_of_word l)) = (8 * length l)%nat).
    { induction l as [| x l IH]; [reflexivity |].
      cbn [map concat]. rewrite length_app, IH.
      destruct (hex_of_word_facts x) as [-> _]. cbn [length]. lia. }
    rewrite Hgen, Hlen. reflexivity.
  - apply all_hex_string_of_list_ascii. clear Hlen.
    induction ws as [| x ws IH]; [constructor |].
    cbn [map concat]. apply Forall_app. split; [apply hex_of_word_facts | exact IH].
Qed.

(** X5. The content hash of any record is exactly 16 characters long and
    made of the characters 0-9 and a-f only. *)
Theorem generateCaseHash_is_sixteen_hex_digits (r : CodeEnforcementCaseRecord) :
  String.length (generateCaseHash r) = 16%nat
  /\ all_hex (generateCaseHash r) = true.
Proof.
  unfold generateCaseHash.
  destruct (hexdigest_facts (hash_content r)) as [Hlen Hhex].
  destruct (substring_prefix_facts 16 (SHA256.hexdigest (hash_content r))) as [Hl Hh];
    [rewrite Hlen; lia |].
  split; [exact Hl | by apply Hh].
Qed.

(* ===================================================================== *)
(** ** Addresses *)
(* ===================================================================== *)

Lemma address_components_nonempty (trim : string -> string) row :
  Forall (fun p => p <> "") (address_components trim row).
Proof.
  unfold address_components.
  assert (Hkeep : forall o : option string,
             Forall (fun p => p <> "") (if truthy o then [or_empty o] else [])).
  { intros [[| c s] |]; simpl; repeat constructor. discriminate. }
  repeat (apply Forall_app; split); try apply Hkeep.
  destruct (String.eqb _ "0"); [constructor | apply Hkeep].
Qed.

(** X6. The address is the non-blank trimmed components SITE_ADDR,
    SITE_CITY, SITE_STATE and SITE_ZIP, in that order, separated by a comma
    and a space, with a ZIP of "0" left out; it is empty exactly when there
    is no such component. *)
Theorem buildAddress_joins_the_nonblank_components
        (trim : string -> string) (row : gmap string string) :
  buildAddress trim row = join ", " (address_components trim row)
  /\ (buildAddress trim row = "" <-> address_components trim row = []).
Proof.
  assert (Heq : buildAddress trim row = join ", " (address_components trim row)).
  { unfold buildAddress, address_components.
    destruct (String.eqb (or_empty (field_trim trim row "SITE_ZIP")) "0");
      destruct (truthy (field_trim trim row "SITE_ZIP"));
      destruct (truthy (field_trim trim row "SITE_ADDR"));
      destruct (truthy (field_trim trim row "SITE_CITY"));
      destruct (truthy (field_trim trim row "SITE_STATE"));
      reflexivity. }
  split; [exact Heq |]. rewrite Heq. split.
  - pose proof (address_components_nonempty trim row) as Hne.
    destruct (address_components trim row) as [| p ps]; [reflexivity |].
    apply Forall_cons in Hne as [Hp _]. intros Hjoin. exfalso. apply Hp.
    destruct ps; simpl in Hjoin; [exact Hjoin |].
    destruct p; [reflexivity | discriminate].
  - intros ->. reflexivity.
Qed.

Example buildAddress_examples :
  buildAddress ascii_trim
    {[ "SITE_ADDR" := " 400 S VICENTIA AVE "; "SITE_CITY" := "CORONA";
       "SITE_STATE" := "CA"; "SITE_ZIP" := "92882" ]}
  = "400 S VICENTIA AVE, CORONA, CA, 92882"
  /\ buildAddress ascii_trim
       {[ "SITE_ADDR" := "400 S VICENTIA AVE"; "SITE_CITY" := "  ";
          "SITE_ZIP" := " 0 " ]}
     = "400 S VICENTIA AVE"
  /\ buildAddress ascii_trim {[ "SITE_ZIP" := "0" ]} = "".
Proof. vm_compute. repeat split; reflexivity. Qed.

(* ===================================================================== *)
(** ** Configuration *)
(* ===================================================================== *)

(** X7. Loading the configuration succeeds exactly when each of
    DATABASE_URL, THREEFOLD_API_URL, THREEFOLD_API_TOKEN and THREEFOLD_ORG_ID
    is set to a non-empty string; otherwise it throws, and the message names
    the first of them, in that order, that is unset or empty. *)
Theorem load_config_requires_the_four_variables (penv : gmap string string) :
  ((exists c, load_config penv = Ok c)
   <-> Forall (fun name => truthy (penv !! name) = true) required_variables)
  /\ (forall e, load_config penv = Throw e ->
                 exists before name after,
                   required_variables = (before ++ name :: after)%list
                   /\ Forall (fun n => truthy (penv !! n) = true) before
                   /\ truthy (penv !! name) = false
                   /\ message e = "Missing required environment variable: " +:+ name).
Proof.
  unfold load_config, requireEnv, required_variables.
  destruct (truthy (penv !! "DATABASE_URL")) eqn:H1.
  2:{ split.
      - split; [intros [c [=]] |]. intros H. apply Forall_cons in H as [H _]. congruence.
      - intros e [= <-]. exists [], "DATABASE_URL", (tail required_variables).
        repeat split; [constructor | assumption]. }
  destruct (truthy (penv !! "THREEFOLD_API_URL")) eqn:H2.
  2:{ split.
      - split; [intros [c [=]] |]. intros H.
        apply Forall_cons in H as [_ H]. apply Forall_cons in H as [H _]. congruence.
      - intros e [= <-]. exists ["DATABASE_URL"], "THREEFOLD_API_URL",
          ["THREEFOLD_API_TOKEN"; "THREEFOLD_ORG_ID"].
        repeat split; [by repeat constructor | assumption]. }
  destruct (truthy (penv !! "THREEFOLD_API_TOKEN")) eqn:H3.
  2:{ split.
      - split; [intros [c [=]] |]. intros H.
        do 2 apply Forall_cons in H as [_ H]. apply Forall_cons in H as [H _]. congruence.
      - intros e [= <-]. exists ["DATABASE_URL"; "THREEFOLD_API_URL"],
          "THREEFOLD_API_TOKEN", ["THREEFOLD_ORG_ID"].
        repeat split; [by repeat constructor | assumption]. }
  destruct (truthy (penv !! "THREEFOLD_ORG_ID")) eqn:H4.
  2:{ split.
      - split; [intros [c [=]] |]. intros H.
        do 3 apply Forall_cons in H as [_ H]. apply Forall_cons in H as [H _]. congruence.
      - intros e [= <-].
        exists ["DATABASE_URL"; "THREEFOLD_API_URL"; "THREEFOLD_API_TOKEN"],
          "THREEFOLD_ORG_ID", [].
        repeat split; [by repeat constructor | assumption]. }
  split; [| discriminate].
  split; [intros _; by repeat constructor | intros _; eauto].
Qed.

(** X8. In a configuration that loaded, ticket updates are enabled exactly
    when CASE_UPDATES_ENABLED is unset, empty, or the exact text "true"; any
    other value, "TRUE" or "1" included, selects the dry run. *)
Theorem updates_enabled_only_by_unset_empty_or_true
        (penv : gmap string string) (c : ProcessConfig) :
  load_config penv = Ok c ->
  (caseUpdatesEnabled (run_config c) = true
   <-> penv !! "CASE_UPDATES_ENABLED" = None
       \/ penv !! "CASE_UPDATES_ENABLED" = Some ""
       \/ penv !! "CASE_UPDATES_ENABLED" = Some "true").
Proof.
  unfold load_config.
  destruct (requireEnv penv "DATABASE_URL"); [| discriminate].
  destruct (requireEnv penv "THREEFOLD_API_URL"); [| discriminate].
  destruct (requireEnv penv "THREEFOLD_API_TOKEN"); [| discriminate].
  destruct (requireEnv penv "THREEFOLD_ORG_ID"); [| discriminate].
  intros [= <-]. cbn [run_config caseUpdatesEnabled cfg_caseUpdatesEnabled].
  unfold optionalEnv.
  destruct (penv !! "CASE_UPDATES_ENABLED") as [[| ch v] |]; cbn [truthy or_empty].
  - split; [auto | reflexivity].
  - destruct (String.eqb_spec (String ch v) "true") as [-> | Hne].
    + split; [auto | reflexivity].
    + split; [discriminate |]. intros [? | [? | [= ?]]]; congruence.
  - split; [auto | reflexivity].
Qed.

Lemma updates_enabled_witness :
  caseUpdatesEnabled
    (run_config (mkProcessConfig "3000" "development" "postgres://db" "https://api"
                                 "token" "42" false)) = true
  <-> ({[ "DATABASE_URL" := "postgres://db"; "THREEFOLD_API_URL" := "https://api";
          "THREEFOLD_API_TOKEN" := "token"; "THREEFOLD_ORG_ID" := "42";
          "CASE_UPDATES_ENABLED" := "TRUE" ]} : gmap string string)
        !! "CASE_UPDATES_ENABLED" = None
      \/ ({[ "DATABASE_URL" := "postgres://db"; "THREEFOLD_API_URL" := "https://api";
             "THREEFOLD_API_TOKEN" := "token"; "THREEFOLD_ORG_ID" := "42";
             "CASE_UPDATES_ENABLED" := "TRUE" ]} : gmap string string)
           !! "CASE_UPDATES_ENABLED" = Some ""
      \/ ({[ "DATABASE_URL" := "postgres://db"; "THREEFOLD_API_URL" := "https://api";
             "THREEFOLD_API_TOKEN" := "token"; "THREEFOLD_ORG_ID" := "42";
             "CASE_UPDATES_ENABLED" := "TRUE" ]} : gmap string string)
           !! "CASE_UPDATES_ENABLED" = Some "true".
Proof.
  apply updates_enabled_only_by_unset_empty_or_true. vm_compute. reflexivity.
Defined.

(* ===================================================================== *)
(** ** Which requests and which rows a run touches *)
(* ===================================================================== *)

(** [bind] when the first computation's results are known to satisfy [Q]. *)
Lemma traced_bind_post {X Y} (A : Effect -> Prop) (Q : X -> Prop)
      (m : M X) (k : X -> M Y) :
  (forall w x w', m w = (Ok x, w') -> Q x) ->
  traced A m -> (forall x, Q x -> traced A (k x)) -> traced A (bind m k).
Proof.
  intros HQ Hm Hk w. unfold bind.
  destruct (Hm w) as (e1 & Hw1 & HA1).
  destruct (m w) as [[x | err] w1] eqn:E; simpl in Hw1.
  - destruct (Hk x (HQ _ _ _ E) w1) as (e2 & Hw2 & HA2).
    exists (e1 ++ e2)%list. rewrite run_effects_app, <- Hw1, Hw2.
    split; [reflexivity | by apply Forall_app].
  - exists e1. simpl. split; assumption.
Qed.

Section Requests.

Variable config : Config.
Variable env : Env.
Variable P : RemoteCall -> Prop.

Lemma traced_fetch_P {X} c (reply : nat -> HttpReply X) :
  P c -> traced (call_effect P) (fetch c reply).
Proof.
  intros Hc w. exists [ECall c; ETick]. unfold fetch. split.
  - by destruct (reply (clock w)).
  - by repeat constructor.
Qed.

Lemma traced_search_P k limit incl :
  P (SearchCall k limit incl) ->
  traced (call_effect P) (searchTicketsByCustomField env k limit incl).
Proof.
  intros Hc. unfold searchTicketsByCustomField.
  apply traced_bind; [by apply traced_fetch_P | intros [[status text] tickets]].
  destruct (negb (response_ok status)); [apply traced_throw | apply traced_ret].
Qed.

Lemma traced_getTicketById_P tk :
  P (GetCall tk) -> traced (call_effect P) (getTicketById env tk).
Proof.
  intros Hc. unfold getTicketById.
  apply traced_bind; [by apply traced_fetch_P | intros [[status text] t]].
  destruct (status =? 404)%nat; [apply traced_ret |].
  destruct (negb (response_ok status)); [apply traced_throw | apply traced_ret].
Qed.

Lemma traced_updateTicketCustomFields_P tk fields :
  P (UpdateCall tk fields) ->
  traced (call_effect P) (updateTicketCustomFields env tk fields).
Proof.
  intros Hc. unfold updateTicketCustomFields.
  apply traced_bind; [by apply traced_fetch_P | intros [[status text] u]].
  destruct (negb (response_ok status)); [apply traced_throw | apply traced_ret].
Qed.

Lemma traced_findTicketByCaseNumber_P k :
  P (SearchCall k 1 true) -> traced (call_effect P) (findTicketByCaseNumber env k).
Proof.
  intros Hc w. unfold findTicketByCaseNumber.
  destruct (negb (searchApiAvailable w)).
  - exists []. split; [reflexivity | constructor].
  - revert w. apply traced_try_catch.
    + apply traced_bind; [by apply traced_search_P | intros ts]. apply traced_ret.
    + intros e. destruct (includes "405" (message e)); [| apply traced_throw].
      intros w. exists [EDisableSearch]. split; [reflexivity | by repeat constructor].
Qed.

Lemma traced_find_ticket_P change :
  (forall tk, P (GetCall tk)) -> P (SearchCall (ch_caseNo change) 1 true) ->
  traced (call_effect P) (find_ticket env change).
Proof.
  intros Hget Hsearch. unfold find_ticket.
  destruct (cached_ticket_id change) as [tk |].
  - apply traced_bind; [by apply traced_getTicketById_P | intros [t |]].
    + apply traced_ret.
    + by apply traced_findTicketByCaseNumber_P.
  - by apply traced_findTicketByCaseNumber_P.
Qed.

End Requests.

Section BatchRequests.

Variable config : Config.
Variable env : Env.

Lemma traced_process_change_on keys change c :
  ch_caseNo change ∈ keys ->
  traced (reconcile_effect_on keys) (process_change config env change c).
Proof.
  intros Hkey. unfold process_change.
  destruct (negb (caseUpdatesEnabled config)); [apply traced_ret |].
  assert (Hlink : forall tk,
             traced (reconcile_effect_on keys)
                    (updateCaseThreefoldId env (ch_caseNo change) tk)).
  { intros tk. apply traced_db_exec; [exact I |].
    intros now w. exists [ELink (ch_caseNo change) tk].
    split; [reflexivity | by repeat constructor]. }
  apply traced_bind.
  { eapply traced_weaken; [| apply (traced_find_ticket_P env (batch_call keys))].
    - intros []; simpl; tauto.
    - intros tk. exact I.
    - simpl. by repeat split. }
  intros [t |]; [| apply traced_ret].
  destruct (no_diff _).
  - apply traced_bind; [apply Hlink | intros _; apply traced_ret].
  - apply traced_bind.
    { eapply traced_weaken;
        [| apply (traced_updateTicketCustomFields_P env (batch_call keys))].
      - intros []; simpl; tauto.
      - reflexivity. }
    intros _. apply traced_bind; [apply Hlink | intros _; apply traced_ret].
Qed.

Lemma traced_process_changes_on keys changes c :
  map ch_caseNo changes ⊆ keys ->
  traced (reconcile_effect_on keys) (process_changes config env changes c).
Proof.
  revert c. induction changes as [| change changes IH]; intros c Hsub; simpl.
  - apply traced_ret.
  - apply traced_bind.
    + apply traced_try_catch; [| intros _; apply traced_ret].
      apply traced_process_change_on. apply Hsub. simpl. constructor.
    + intros c2. apply IH. intros k Hk. apply Hsub. simpl. by constructor.
Qed.

Lemma find_changes_keys cs (records : list CodeEnforcementCaseRecord) :
  map ch_caseNo (find_changes cs (dedupe records)) ⊆ map caseNo records.
Proof.
  intros k Hk. apply dedupe_covers.
  eapply sublist_subseteq; [apply find_changes_keys_sublist | exact Hk].
Qed.

Lemma traced_sync_body_on sid records :
  traced (run_effect_on records) (sync_body config env sid records).
Proof.
  unfold sync_body.
  apply (traced_bind_post _
           (fun changes => map ch_caseNo changes ⊆ map caseNo records)).
  { intros w changes w' Hd. apply diffCases_Ok in Hd as [-> _].
    apply find_changes_keys. }
  { eapply traced_weaken; [| apply traced_diffCases]. effect_cases. }
  intros changes Hkeys.
  assert (Hfinish : forall u e,
             traced (run_effect_on records)
               (bind (upsertCaseState env records)
                     (fun _ => completeSyncLog env sid (length records) u e None))).
  { intros u e. apply traced_bind.
    - eapply traced_weaken; [| apply traced_upsertCaseState]. effect_cases.
    - intros _. eapply traced_weaken; [| apply traced_completeSyncLog]. effect_cases. }
  destruct changes as [| ch changes]; [apply Hfinish |].
  apply traced_bind; [| intros c; apply Hfinish].
  eapply traced_weaken; [| apply (traced_process_changes_on _ _ _ Hkeys)].
  effect_cases.
Qed.

Lemma traced_processCasesSync_on records :
  traced (run_effect_on records) (processCasesSync config env records).
Proof.
  unfold processCasesSync.
  apply traced_bind.
  { eapply traced_weaken; [| apply traced_createSyncLog]. effect_cases. }
  intros sid. apply traced_try_catch; [apply traced_sync_body_on |].
  intros err. apply traced_bind; [| intros _; apply traced_throw].
  eapply traced_weaken; [| apply traced_completeSyncLog]. effect_cases.
Qed.

End BatchRequests.

(** X9. A run reads and writes only the rows of its batch: the row of any
    case number that is not in the batch is the same after the run as
    before, whatever the outcome of the run. *)
Theorem run_leaves_rows_outside_the_batch_alone
        (config : Config) (env : Env) (records : list CodeEnforcementCaseRecord)
        (w : World) (k : string) :
  k ∉ map caseNo records ->
  case_state (processCasesSync config env records w).2 !! k = case_state w !! k.
Proof.
  intros Hk.
  apply (traced_invariant _ (fun w' => case_state w' !! k = case_state w !! k) _ w
           (traced_processCasesSync_on config env records)); [| reflexivity].
  intros e w0 He Hsame. destruct e; simpl in *; try assumption.
  - rewrite upsert_row_other; [assumption |].
    intros ->. apply Hk. apply list_elem_of_fmap. exists record.
    split; [reflexivity | by apply dedupe_subseteq].
  - rewrite lookup_alter_ne; [assumption |]. intros <-. by apply Hk.
Qed.

Lemma run_leaves_rows_witness :
  case_state (processCasesSync updates_on ticket7_env
                [rec_dates "CE24-0002" (Some "2025-03-01") None] world_after_second).2
    !! "CE24-0001"
  = case_state world_after_second !! "CE24-0001".
Proof.
  apply run_leaves_rows_outside_the_batch_alone. vm_compute.
  intros H. apply list_elem_of_singleton in H. discriminate.
Defined.

(** X10. Every request a run adds to the log is one of: a search for a case
    number of the batch, asking for one result with closed tickets included;
    a fetch by id; or an update whose payload does not set
    [cc_case_number]. Earlier requests stay in the log. *)
Theorem run_requests_concern_the_batch
        (config : Config) (env : Env) (records : list CodeEnforcementCaseRecord)
        (w : World) :
  exists new,
    calls (processCasesSync config env records w).2 = (calls w ++ new)%list
    /\ Forall (batch_call (map caseNo records)) new.
Proof.
  apply (traced_invariant _
           (fun w' => exists new, calls w' = (calls w ++ new)%list
                                  /\ Forall (batch_call (map caseNo records)) new)
           _ w (traced_processCasesSync_on config env records)).
  - intros e w0 He (new & Hcalls & Hnew).
    destruct e; simpl in *; try (exists new; by split).
    exists (new ++ [c])%list. rewrite Hcalls, <- app_assoc. split; [reflexivity |].
    apply Forall_app. split; [assumption | by repeat constructor].
  - exists []. by rewrite app_nil_r.
Qed.

(* ===================================================================== *)
(** ** Dry run *)
(* ===================================================================== *)

Lemma links_kept_refl cs : links_kept cs cs.
Proof.
  intros k. destruct (cs !! k) as [old |] eqn:E; [| intros row; discriminate].
  exists old. by repeat split.
Qed.

Lemma links_kept_upsert cs0 cs now r :
  links_kept cs0 cs -> links_kept cs0 (upsert_row now cs r).
Proof.
  intros Hkept k. specialize (Hkept k).
  destruct (decide (k = caseNo r)) as [-> | Hne];
    [| by rewrite upsert_row_other].
  destruct (upsert_row_same now cs r) as (row & Hrow & _ & _ & Htk & Hcr).
  destruct (cs0 !! caseNo r) as [old |].
  - destruct Hkept as (row0 & Hrow0 & Htk0 & Hcr0).
    exists row. rewrite Hrow0 in Htk, Hcr. simpl in Htk, Hcr.
    split; [assumption |]. split; congruence.
  - intros row' Hrow'. rewrite Hrow in Hrow'. injection Hrow' as <-. rewrite Htk.
    destruct (cs !! caseNo r) as [row0 |] eqn:E; [| reflexivity].
    simpl. by apply Hkept.
Qed.

Lemma process_changes_dry config env changes c w :
  caseUpdatesEnabled config = false ->
  process_changes config env changes c w
  = (Ok (mkCounters (processed c + length changes) (updated c) (notFound c)
                    (noChanges c) (errorCount c)), w).
Proof.
  intros Hoff. revert c. induction changes as [| ch changes IH]; intros c; simpl.
  - unfold ret. rewrite Nat.add_0_r. by destruct c.
  - unfold bind at 1, try_catch, process_change. rewrite Hoff. simpl.
    rewrite IH. simpl. do 2 f_equal. f_equal. lia.
Qed.

Lemma traced_processCasesSync_dry config env records :
  caseUpdatesEnabled config = false ->
  traced (store_effect records) (processCasesSync config env records).
Proof.
  intros Hoff. unfold processCasesSync.
  apply traced_bind.
  { eapply traced_weaken; [| apply traced_createSyncLog]. effect_cases. }
  intros sid. apply traced_try_catch.
  2:{ intros err. apply traced_bind; [| intros _; apply traced_throw].
      eapply traced_weaken; [| apply traced_completeSyncLog]. effect_cases. }
  unfold sync_body. apply traced_bind.
  { eapply traced_weaken; [| apply traced_diffCases]. effect_cases. }
  intros changes.
  assert (Hfinish : forall u e,
             traced (store_effect records)
               (bind (upsertCaseState env records)
                     (fun _ => completeSyncLog env sid (length records) u e None))).
  { intros u e. apply traced_bind.
    - eapply traced_weaken; [| apply traced_upsertCaseState]. effect_cases.
    - intros _. eapply traced_weaken; [| apply traced_completeSyncLog]. effect_cases. }
  destruct changes as [| ch changes]; [apply Hfinish |].
  intros w. unfold bind at 1. rewrite process_changes_dry by assumption.
  apply Hfinish.
Qed.

(** X11. With ticket updates disabled (dry run) a run sends no request to
    the ticket API, leaves the search-available flag as it was, and changes
    no cached ticket id: every row that existed keeps its
    [threefold_ticket_id] and [created_at], and rows it inserts have none.
    The batch is still persisted when the run returns. *)
Theorem dry_run_sends_nothing_and_links_nothing
        (config : Config) (env : Env) (records : list CodeEnforcementCaseRecord)
        (w : World) (res : Result unit) (w' : World) :
  caseUpdatesEnabled config = false ->
  processCasesSync config env records w = (res, w') ->
  calls w' = calls w
  /\ searchApiAvailable w' = searchApiAvailable w
  /\ links_kept (case_state w) (case_state w')
  /\ (res = Ok tt ->
      forall r, r ∈ dedupe records ->
                exists row, case_state w' !! caseNo r = Some row /\ reflects r row).
Proof.
  intros Hoff Hrun.
  pose proof (traced_processCasesSync_dry config env records Hoff) as Htr.
  replace w' with (processCasesSync config env records w).2 by (by rewrite Hrun).
  split; [| split; [| split]].
  - apply (traced_calls_frame _ _ _ Htr). by intros [] ?; simpl.
  - apply (traced_invariant _ (fun w0 => searchApiAvailable w0 = searchApiAvailable w)
             _ w Htr); [| reflexivity].
    intros e w0 He Hsame. destruct e; simpl in *; tauto.
  - apply (traced_invariant _ (fun w0 => links_kept (case_state w) (case_state w0))
             _ w Htr); [| apply links_kept_refl].
    intros e w0 He Hkept. destruct e; simpl in *; try tauto.
    by apply links_kept_upsert.
  - rewrite Hrun. simpl. intros -> r Hr.
    apply processCasesSync_Ok in Hrun as (wa & wb & u & e & _ & _ & Hup & Hdone).
    apply completeSyncLog_Ok in Hdone as (_ & _ & -> & _).
    destruct (upsertCaseState_Ok env records wa wb r Hup Hr) as (row & Hrow & Hrefl & _).
    by exists row.
Qed.

Lemma dry_run_witness :
  calls (processCasesSync (mkConfig false) ticket7_env [opened_and_closed]
                          world_after_first).2
  = calls world_after_first.
Proof.
  apply (dry_run_sends_nothing_and_links_nothing
           (mkConfig false) ticket7_env [opened_and_closed] world_after_first
           (processCasesSync (mkConfig false) ticket7_env [opened_and_closed]
                             world_after_first).1
           (processCasesSync (mkConfig false) ticket7_env [opened_and_closed]
                             world_after_first).2
           eq_refl ltac:(vm_compute; reflexivity)).
Defined.

(* ===================================================================== *)
(** ** Accounting of one run *)
(* ===================================================================== *)

Section Accounting.

Variable config : Config.
Variable env : Env.

Lemma update_count_snoc (l : list RemoteCall) c :
  update_count (l ++ [c]) = (update_count l + if is_update c then 1 else 0)%nat.
Proof.
  unfold update_count. rewrite List.filter_app, length_app. simpl.
  by destruct (is_update c).
Qed.

Lemma lookup_keeps_update_count {X} (m : M X) w :
  traced (call_effect (fun c => is_update c = false)) m ->
  update_count (calls (m w).2) = update_count (calls w).
Proof.
  intros Hm.
  apply (traced_invariant _ (fun w' => update_count (calls w') = update_count (calls w))
           m w Hm); [| reflexivity].
  intros e w0 He <-. destruct e; simpl in *; try tauto.
  rewrite update_count_snoc, He. lia.
Qed.

Lemma link_keeps_calls k tk w : calls (updateCaseThreefoldId env k tk w).2 = calls w.
Proof.
  apply (traced_calls_frame _ _ _ (traced_updateCaseThreefoldId env k tk)).
  by intros [] ?; simpl.
Qed.

(** One iteration of the loop body: which counter moves, and how many
    update requests go out. *)
Lemma process_change_step change c w res w' :
  caseUpdatesEnabled config = true ->
  process_change config env change c w = (res, w') ->
  (update_count (calls w) <= update_count (calls w') <= S (update_count (calls w)))%nat
  /\ forall c', res = Ok c' ->
       (c' = inc_notFound c /\ update_count (calls w') = update_count (calls w))
       \/ (c' = inc_noChanges c /\ update_count (calls w') = update_count (calls w))
       \/ (c' = inc_updated c /\ update_count (calls w') = S (update_count (calls w))).
Proof.
  intros Hon. unfold process_change. rewrite Hon. simpl. unfold bind at 1.
  pose proof (lookup_keeps_update_count (find_ticket env change) w
                (traced_find_ticket_P env _ change (fun _ => eq_refl) eq_refl)) as Hfind.
  destruct (find_ticket env change w) as [[[t |] | err] w1]; simpl in Hfind.
  - destruct (no_diff _).
    + unfold bind.
      pose proof (link_keeps_calls (ch_caseNo change) (ticket_id t) w1) as Hlink.
      destruct (updateCaseThreefoldId env (ch_caseNo change) (ticket_id t) w1)
        as [[[] | err] w2]; simpl in Hlink; intros [= <- <-]; rewrite Hlink, Hfind;
        (split; [lia |]); intros c' [= <-]; auto.
    + unfold bind at 1, updateTicketCustomFields, bind at 1, fetch.
      set (call := UpdateCall (ticket_id t) _).
      set (w2 := tick (log_call call w1)).
      assert (Hw2 : update_count (calls w2) = S (update_count (calls w))).
      { unfold w2. simpl. rewrite update_count_snoc, Hfind. simpl. lia. }
      destruct (update_reply env (clock w1)) as [msg | status text []].
      { intros [= <- <-]. rewrite Hw2. split; [lia | discriminate]. }
      destruct (negb (response_ok status)).
      { intros [= <- <-]. rewrite Hw2. split; [lia | discriminate]. }
      unfold ret at 1, bind.
      pose proof (link_keeps_calls (ch_caseNo change) (ticket_id t) w2) as Hlink.
      destruct (updateCaseThreefoldId env (ch_caseNo change) (ticket_id t) w2)
        as [[[] | err] w3]; cbn [snd] in Hlink; intros [= <- <-]; rewrite Hlink, Hw2;
        (split; [lia |]); intros c' [= <-]; auto.
  - intros [= <- <-]. rewrite Hfind. split; [lia |]. intros c' [= <-]. auto.
  - intros [= <- <-]. rewrite Hfind. split; [lia | discriminate].
Qed.

Lemma process_changes_account changes c w :
  caseUpdatesEnabled config = true ->
  exists c' w',
    process_changes config env changes c w = (Ok c', w')
    /\ processed c' = (processed c + length changes)%nat
    /\ outcomes c' = (outcomes c + length changes)%nat
    /\ (update_count (calls w) <= update_count (calls w'))%nat
    /\ (update_count (calls w') <= update_count (calls w) + length changes)%nat
    /\ (updated c' - updated c <= update_count (calls w') - update_count (calls w))%nat
    /\ (updated c <= updated c')%nat.
Proof.
  intros Hon. revert c w. induction changes as [| ch changes IH]; intros c w.
  - exists c, w. simpl. repeat split; lia.
  - cbn [process_changes]. unfold bind at 1, try_catch.
    destruct (process_change config env ch (inc_processed c) w) as [res w1] eqn:Hstep.
    destruct (process_change_step _ _ _ _ _ Hon Hstep) as [Hbound Hcases].
    assert (Hnext : exists c1,
               (match res with
                | Ok a => (Ok a, w1)
                | Throw _ => ret (inc_errors (inc_processed c)) w1
                end) = (Ok c1, w1)
               /\ processed c1 = S (processed c)
               /\ outcomes c1 = S (outcomes c)
               /\ (updated c <= updated c1)%nat
               /\ (updated c1 - updated c
                   <= update_count (calls w1) - update_count (calls w))%nat).
    { destruct res as [c1 | err].
      - exists c1. split; [reflexivity |].
        destruct (Hcases c1 eq_refl) as [[-> Hu] | [[-> Hu] | [-> Hu]]];
          unfold outcomes; simpl; repeat split; lia.
      - exists (inc_errors (inc_processed c)). split; [reflexivity |].
        unfold outcomes. simpl. repeat split; lia. }
    destruct Hnext as (c1 & -> & Hp & Ho & Hu1 & Hu2).
    destruct (IH c1 w1) as (c' & w' & Hrun & Hp' & Ho' & Hlo & Hhi & Hu' & Hmono).
    exists c', w'. split; [exact Hrun |]. simpl. repeat split; lia.
Qed.

End Accounting.

(** X12. The loop over the changes never throws: an error in one change is
    counted and the loop goes on. It processes every change, and with
    updates enabled every change is counted in exactly one of "updated",
    "not found", "already up to date" and "errors"; in a dry run none of
    the four moves and the world is untouched. *)
Theorem every_change_is_counted_once
        (config : Config) (env : Env) (changes : list CaseStateChange)
        (c : Counters) (w : World) :
  exists c' w',
    process_changes config env changes c w = (Ok c', w')
    /\ processed c' = (processed c + length changes)%nat
    /\ (caseUpdatesEnabled config = true ->
        outcomes c' = (outcomes c + length changes)%nat)
    /\ (caseUpdatesEnabled config = false -> outcomes c' = outcomes c /\ w' = w).
Proof.
  destruct (caseUpdatesEnabled config) eqn:Hon.
  - destruct (process_changes_account config env changes c w Hon)
      as (c' & w' & Hrun & Hp & Ho & _).
    exists c', w'. split; [assumption |]. split; [assumption |].
    split; [intros _; assumption | discriminate].
  - eexists _, _. split; [by apply process_changes_dry |].
    simpl. split; [reflexivity |]. split; [discriminate |]. intros _. by split.
Qed.

(** X13. With updates enabled the loop sends at most one update request per
    change, and every change it counts as "updated" stands for an update
    request it sent: the "updated" counter grows by no more than the number
    of update requests. *)
Theorem at_most_one_update_request_per_change
        (config : Config) (env : Env) (changes : list CaseStateChange)
        (c c' : Counters) (w w' : World) :
  process_changes config env changes c w = (Ok c', w') ->
  (update_count (calls w) <= update_count (calls w'))%nat
  /\ (update_count (calls w') - update_count (calls w) <= length changes)%nat
  /\ (updated c <= updated c')%nat
  /\ (updated c' - updated c <= update_count (calls w') - update_count (calls w))%nat.
Proof.
  intros Hrun. destruct (caseUpdatesEnabled config) eqn:Hon.
  - destruct (process_changes_account config env changes c w Hon)
      as (c2 & w2 & Hrun2 & _ & _ & Hlo & Hhi & Hu & Hmono).
    rewrite Hrun in Hrun2. injection Hrun2 as <- <-. repeat split; lia.
  - rewrite process_changes_dry in Hrun by assumption.
    injection Hrun as <- <-. simpl. repeat split; lia.
Qed.

Lemma at_most_one_update_witness :
  (update_count (calls empty_world)
   <= update_count (calls (process_changes updates_on ticket7_env
                             [new_change opened_and_closed] zero_counters
                             empty_world).2))%nat
  /\ (update_count (calls (process_changes updates_on ticket7_env
                             [new_change opened_and_closed] zero_counters
                             empty_world).2)
      - update_count (calls empty_world) <= 1)%nat.
Proof.
  destruct (at_most_one_update_request_per_change
              updates_on ticket7_env [new_change opened_and_closed]
              zero_counters
              (mkCounters 1 1 0 0 0)
              empty_world
              (process_changes updates_on ticket7_env [new_change opened_and_closed]
                               zero_counters empty_world).2
              ltac:(vm_compute; reflexivity)) as (H1 & H2 & _).
  split; [exact H1 | exact H2].
Defined.

(* ===================================================================== *)
(** ** Finding the ticket of a change *)
(* ===================================================================== *)

(** X14. How the ticket of a change is looked up. A cached ticket id that
    is null or 0 is not used: the lookup is the search by case number. A
    cached id is fetched first; if the fetch succeeds its ticket is the
    answer and no search is sent; if it answers 404 the answer is that of
    the search by case number, issued after the fetch; on any other failure
    of the fetch the lookup throws and no search is sent. *)
Theorem ticket_lookup_uses_the_cached_id_first
        (env : Env) (change : CaseStateChange) (w : World) :
  (cached_ticket_id change = None
   <-> threefoldTicketId change = None \/ threefoldTicketId change = Some 0)
  /\ (cached_ticket_id change = None ->
      find_ticket env change w = findTicketByCaseNumber env (ch_caseNo change) w)
  /\ (forall tk,
         cached_ticket_id change = Some tk ->
         let w1 := tick (log_call (GetCall tk) w) in
         match get_reply env (clock w) with
         | NetworkError msg => find_ticket env change w = (Throw (mkError msg), w1)
         | Response status text t =>
             if (status =? 404)%nat
             then find_ticket env change w
                  = findTicketByCaseNumber env (ch_caseNo change) w1
             else if response_ok status
                  then find_ticket env change w = (Ok (Some t), w1)
                  else exists e, find_ticket env change w = (Throw e, w1)
         end).
Proof.
  split; [| split].
  - unfold cached_ticket_id. destruct (threefoldTicketId change) as [tk |].
    + destruct (Z.eqb_spec tk 0) as [-> | Hne].
      * split; auto.
      * split; [discriminate |]. intros [[=] | [= ?]]. congruence.
    + split; auto.
  - intros Hnone. unfold find_ticket. by rewrite Hnone.
  - intros tk Hsome w1. unfold find_ticket. rewrite Hsome.
    unfold getTicketById, bind, fetch. fold w1.
    destruct (get_reply env (clock w)) as [msg | status text t]; [reflexivity |].
    destruct (status =? 404)%nat; [reflexivity |].
    destruct (response_ok status); simpl; [reflexivity | eauto].
Qed.

Example stale_cached_id_falls_back_to_search :
  calls (find_ticket ticket7_env
           (mkChange "CE24-0001" opened_and_closed None "" false None None None (Some 9))
           empty_world).2
  = [GetCall 9]
  /\ calls (find_ticket quiet_env
              (mkChange "CE24-0001" opened_and_closed None "" false None None None (Some 9))
              empty_world).2
     = [GetCall 9; SearchCall "CE24-0001" 1 true].
Proof. vm_compute. split; reflexivity. Qed.

(* ===================================================================== *)
(** ** The ticket-id cache *)
(* ===================================================================== *)

(** X15. Writing the cached ticket id of a case and reading it back: when
    the case has a row, the read returns the id just written; when it has no
    row, the write changes nothing and the read returns null. No other row
    is touched by the write. *)
Theorem cached_ticket_id_round_trip
        (env : Env) (k : string) (tk : Z) (w w1 : World) :
  updateCaseThreefoldId env k tk w = (Ok tt, w1) ->
  db_fault env (clock w1) = None ->
  (getCaseThreefoldId env k w1).1
  = Ok (if case_state w !! k is Some _ then Some tk else None)
  /\ (forall k', k' <> k -> case_state w1 !! k' = case_state w !! k')
  /\ (case_state w !! k = None -> case_state w1 = case_state w).
Proof.
  unfold updateCaseThreefoldId, getCaseThreefoldId, db_exec.
  destruct (db_fault env (clock w)); [discriminate |].
  intros [= <-] Hup. simpl in *. rewrite Hup. simpl.
  split; [| split].
  - rewrite lookup_alter_eq. by destruct (case_state w !! k).
  - intros k' Hne. by rewrite lookup_alter_ne.
  - intros Hnone. apply map_eq. intros k'.
    destruct (decide (k' = k)) as [-> | Hne].
    + by rewrite lookup_alter_eq, Hnone.
    + by rewrite lookup_alter_ne.
Qed.

Lemma cached_ticket_id_witness :
  (getCaseThreefoldId quiet_env "CE24-0001"
     (updateCaseThreefoldId quiet_env "CE24-0001" 12 world_after_first).2).1
  = Ok (Some 12).
Proof.
  destruct (cached_ticket_id_round_trip quiet_env "CE24-0001" 12 world_after_first
              (updateCaseThreefoldId quiet_env "CE24-0001" 12 world_after_first).2
              ltac:(vm_compute; reflexivity) eq_refl) as [Hread _].
  rewrite Hread. vm_compute. reflexivity.
Defined.

(* ===================================================================== *)
(** ** The run log *)
(* ===================================================================== *)

Lemma traced_after_create config env sid records :
  traced (own_log_effect sid)
         (try_catch (sync_body config env sid records)
            (fun err => bind (completeSyncLog env sid (length records) 0 1
                                              (Some (message err)))
                             (fun _ => throw err))).
Proof.
  assert (Hdone : forall t c e msg,
             traced (own_log_effect sid) (completeSyncLog env sid t c e msg)).
  { intros t c e msg. apply traced_db_exec; [exact I |].
    intros now w. exists [ESyncComplete sid now t c e msg].
    split; [reflexivity | by repeat constructor]. }
  apply traced_try_catch.
  2:{ intros err. apply traced_bind; [apply Hdone | intros _; apply traced_throw]. }
  unfold sync_body. apply traced_bind.
  { eapply traced_weaken; [| apply traced_diffCases]. effect_cases. }
  intros changes.
  assert (Hfinish : forall u e,
             traced (own_log_effect sid)
               (bind (upsertCaseState env records)
                     (fun _ => completeSyncLog env sid (length records) u e None))).
  { intros u e. apply traced_bind; [| intros _; apply Hdone].
    eapply traced_weaken; [| apply traced_upsertCaseState]. effect_cases. }
  destruct changes as [| ch changes]; [apply Hfinish |].
  apply traced_bind; [| intros c; apply Hfinish].
  eapply traced_weaken; [| apply traced_process_changes]. effect_cases.
Qed.

(** X16. A run writes one row of [sync_log] only, its own: every other row
    is the same after the run as before. If the INSERT that opens the run is
    rejected no row is written, and the serial moves by one exactly when
    the rejected INSERT had already drawn its id from the sequence (the
    value is lost); otherwise the serial moves by one and the run's row has
    type "cases" and the start time of the run, whatever happens later in
    the run. *)
Theorem run_writes_only_its_own_log_row
        (config : Config) (env : Env) (records : list CodeEnforcementCaseRecord)
        (w : World) :
  let w' := (processCasesSync config env records w).2 in
  (forall sid, sid <> sync_log_seq w -> sync_log w' !! sid = sync_log w !! sid)
  /\ match db_fault env (clock w) with
     | Some _ =>
         sync_log w' = sync_log w
         /\ sync_log_seq w'
            = (if serial_drawn env (clock w) then S (sync_log_seq w)
               else sync_log_seq w)
     | None =>
         sync_log_seq w' = S (sync_log_seq w)
         /\ exists row, sync_log w' !! sync_log_seq w = Some row
                        /\ sync_type row = "cases" /\ started_at row = clock w
     end.
Proof.
  intros w'. subst w'.
  destruct (processCasesSync config env records w) as [res w'] eqn:Hrun.
  cbn [snd]. revert Hrun.
  unfold processCasesSync, bind at 1. rewrite createSyncLog_unfold.
  destruct (db_fault env (clock w)) as [msg |].
  { intros [= _ <-]. by destruct (serial_drawn env (clock w)). }
  set (sid := sync_log_seq w).
  set (row0 := mkSyncLog "cases" (clock w) None 0 0 0 None).
  set (w0 := set_sync_log _ _ (tick w)).
  set (I := fun w1 : World =>
              (forall k, k <> sid -> sync_log w1 !! k = sync_log w !! k)
              /\ sync_log_seq w1 = S sid
              /\ exists row, sync_log w1 !! sid = Some row
                             /\ sync_type row = "cases" /\ started_at row = clock w).
  assert (HI : I (try_catch (sync_body config env sid records)
                    (fun err => bind (completeSyncLog env sid (length records) 0 1
                                                      (Some (message err)))
                                     (fun _ => throw err)) w0).2).
  { apply (traced_invariant _ I _ w0 (traced_after_create config env sid records)).
    - intros e w1 He (Hother & Hseq & row & Hrow & Hty & Hstart). unfold I.
      destruct e; simpl in *; try done;
        try (split; [assumption | split; [assumption | by exists row]]).
      subst sid0. split; [| split; [assumption |]].
      + intros k Hk. rewrite lookup_alter_ne by done. by apply Hother.
      + exists (complete_row now total changed errs msg row).
        rewrite lookup_alter_eq, Hrow. by repeat split.
    - unfold I. split; [| split; [reflexivity |]].
      + intros k Hk. unfold w0. simpl. by rewrite lookup_insert_ne.
      + exists row0. unfold w0. simpl. by rewrite lookup_insert_eq. }
  intros Hrun. rewrite Hrun in HI. cbn [snd] in HI.
  destruct HI as (Hother & Hseq & Hrow). by repeat split.
Qed.

(** A run whose opening INSERT is rejected after drawing its id leaves no
    row, and the id is gone: the next run gets the one after it. *)
Example rejected_insert_uses_up_an_id :
  sync_log (processCasesSync updates_on store_rejects_after_draw_env [opened_only]
                             empty_world).2 = ∅
  /\ sync_log_seq empty_world = 1%nat
  /\ sync_log_seq (processCasesSync updates_on store_rejects_after_draw_env
                                    [opened_only] empty_world).2 = 2%nat.
Proof. vm_compute. repeat split; reflexivity. Qed.

(* ===================================================================== *)
(** ** Chunks of the bulk upsert *)
(* ===================================================================== *)

Lemma totalBatches_bounds (n : nat) :
  (n <= totalBatches n * BATCH_SIZE)%nat
  /\ (0 < n -> (totalBatches n - 1) * BATCH_SIZE < n)%nat.
Proof.
  unfold totalBatches.
  assert (HB : (0 < BATCH_SIZE)%nat) by (unfold BATCH_SIZE; lia).
  pose proof (Nat.div_mod_eq (n + BATCH_SIZE - 1) BATCH_SIZE) as Hdm.
  pose proof (Nat.mod_upper_bound (n + BATCH_SIZE - 1) BATCH_SIZE ltac:(lia)) as Hmod.
  set (q := ((n + BATCH_SIZE - 1) / BATCH_SIZE)%nat) in *.
  split; [lia |]. intros Hn.
  destruct q as [| q']; [lia |].
  replace (S q' - 1)%nat with q' by lia. lia.
Qed.

Lemma concat_chunks (U : list CodeEnforcementCaseRecord) (n : nat) :
  (length U <= n * BATCH_SIZE)%nat ->
  concat (map (fun k => take BATCH_SIZE (drop (k * BATCH_SIZE) U)) (seq 0 n)) = U.
Proof.
  revert U. induction n as [| n IH]; intros U Hlen.
  - simpl in *. destruct U; [reflexivity | simpl in Hlen; lia].
  - cbn [seq map concat]. rewrite <- seq_shift, map_map.
    rewrite Nat.mul_0_l, drop_0.
    transitivity (take BATCH_SIZE U ++ drop BATCH_SIZE U)%list;
      [| apply take_drop].
    f_equal.
    transitivity
      (concat (map (fun k => take BATCH_SIZE (drop (k * BATCH_SIZE) (drop BATCH_SIZE U)))
                   (seq 0 n)));
      [| apply IH; rewrite length_drop; lia].
    f_equal. apply map_ext. intros k. rewrite drop_drop. reflexivity.
Qed.

Lemma upsert_chunks_as_statements env (U : list CodeEnforcementCaseRecord) idxs :
  upsert_chunks env U idxs
  = fold_right (fun batch rest => bind (upsert_statement env batch) (fun _ => rest))
               (ret tt)
               (map (fun k => take BATCH_SIZE (drop (k * BATCH_SIZE) U)) idxs).
Proof. induction idxs as [| k idxs IH]; simpl; [reflexivity | by rewrite IH]. Qed.

(** X17. The bulk upsert of a non-empty batch connects once and then sends
    one statement per chunk, in order. The chunks are consecutive pieces of
    the deduplicated batch that together are exactly that batch; none is
    empty and none has more than 1000 records; there are
    ceil(n / 1000) of them for n distinct case numbers. *)
Theorem bulk_upsert_sends_the_batch_in_chunks
        (env : Env) (r0 : CodeEnforcementCaseRecord)
        (records : list CodeEnforcementCaseRecord) :
  let U := dedupe (r0 :: records) in
  upsertCaseState env (r0 :: records)
  = bind (pool_connect env)
         (fun _ => fold_right
                     (fun batch rest => bind (upsert_statement env batch) (fun _ => rest))
                     (ret tt) (batches U))
  /\ concat (batches U) = U
  /\ Forall (fun batch => (0 < length batch <= 1000)%nat) (batches U)
  /\ length (batches U) = ((length U + 999) / 1000)%nat.
Proof.
  intros U. split; [| split; [| split]].
  - unfold upsertCaseState. fold U. by rewrite upsert_chunks_as_statements.
  - apply concat_chunks, totalBatches_bounds.
  - unfold batches. apply Forall_forall. intros batch Hb.
    apply list_elem_of_fmap in Hb as (k & -> & Hk).
    apply elem_of_seq in Hk as [_ Hk].
    rewrite length_take, length_drop. change BATCH_SIZE with 1000%nat.
    assert (HU : (0 < length U)%nat).
    { assert (Hin : caseNo r0 ∈ map caseNo U).
      { apply dedupe_covers. simpl. constructor. }
      destruct U; [by apply elem_of_nil in Hin | simpl; lia]. }
    pose proof (totalBatches_bounds (length U)) as [_ Hlast].
    specialize (Hlast HU). change BATCH_SIZE with 1000%nat in Hlast. lia.
  - unfold batches. rewrite length_map, length_seq.
    unfold totalBatches, BATCH_SIZE. f_equal. lia.
Qed.

(* ===================================================================== *)
(** ** Repeating the bulk upsert *)
(* ===================================================================== *)

Lemma reflects_same_but_last_seen r row1 row2 :
  reflects r row1 -> reflects r row2 ->
  threefold_ticket_id row2 = threefold_ticket_id row1 ->
  created_at row2 = created_at row1 ->
  same_but_last_seen row1 row2.
Proof.
  unfold reflects, same_but_last_seen.
  destruct row1, row2. simpl.
  intros (-> & -> & -> & -> & -> & -> & -> & ->)
         (-> & -> & -> & -> & -> & -> & -> & ->) -> ->.
  reflexivity.
Qed.

(** X18. Applying the bulk upsert to the same batch a second time changes
    nothing but [last_seen_at]: when both calls return, every row after the
    second call is the row after the first call with at most a new
    [last_seen_at] (and is identical for case numbers outside the batch),
    and no row is added. *)
Theorem bulk_upsert_twice_changes_only_last_seen
        (env env' : Env) (records : list CodeEnforcementCaseRecord)
        (w w1 w2 : World) :
  upsertCaseState env records w = (Ok tt, w1) ->
  upsertCaseState env' records w1 = (Ok tt, w2) ->
  forall k,
    match case_state w1 !! k with
    | Some row1 =>
        exists row2, case_state w2 !! k = Some row2
                     /\ same_but_last_seen row1 row2
                     /\ (k ∉ map caseNo records -> row2 = row1)
    | None => case_state w2 !! k = None
    end.
Proof.
  intros Hup1 Hup2 k.
  assert (Hkept : links_kept (case_state w1) (case_state w2)).
  { replace w2 with (upsertCaseState env' records w1).2 by (by rewrite Hup2).
    apply (traced_invariant _ (fun w0 => links_kept (case_state w1) (case_state w0))
             _ w1 (traced_upsertCaseState env' records)); [| apply links_kept_refl].
    intros e w0 He Hk. destruct e; simpl in *; try tauto.
    by apply links_kept_upsert. }
  assert (Hout : k ∉ map caseNo records -> case_state w2 !! k = case_state w1 !! k).
  { intros Hk.
    replace w2 with (upsertCaseState env' records w1).2 by (by rewrite Hup2).
    apply (traced_invariant _ (fun w0 => case_state w0 !! k = case_state w1 !! k)
             _ w1 (traced_upsertCaseState env' records)); [| reflexivity].
    intros e w0 He Hsame. destruct e; simpl in *; try tauto.
    rewrite upsert_row_other; [assumption |]. intros ->. apply Hk.
    apply list_elem_of_fmap. exists record. split; [reflexivity |].
    by apply dedupe_subseteq. }
  destruct (decide (k ∈ map caseNo records)) as [Hin | Hnin].
  - apply dedupe_covers, list_elem_of_fmap in Hin as (r & -> & Hr).
    destruct (upsertCaseState_Ok env records w w1 r Hup1 Hr) as (row1 & Hrow1 & Hrefl1 & _).
    destruct (upsertCaseState_Ok env' records w1 w2 r Hup2 Hr) as (row2 & Hrow2 & Hrefl2 & _).
    rewrite Hrow1. exists row2. split; [assumption |].
    specialize (Hkept (caseNo r)). rewrite Hrow1 in Hkept.
    destruct Hkept as (row2' & Hrow2' & Htk & Hcr).
    rewrite Hrow2 in Hrow2'. injection Hrow2' as <-.
    split; [by apply (reflects_same_but_last_seen r) |].
    intros Hnot. exfalso. apply Hnot. apply dedupe_covers.
    apply list_elem_of_fmap. by exists r.
  - rewrite (Hout Hnin). destruct (case_state w1 !! k) as [row1 |]; [| reflexivity].
    exists row1. split; [reflexivity |]. split; [| reflexivity].
    unfold same_but_last_seen. by destruct row1.
Qed.

Lemma bulk_upsert_twice_witness :
  match case_state
          (upsertCaseState quiet_env [opened_and_closed] world_after_second).2
          !! "CE24-0001" with
  | Some row1 =>
      exists row2,
        case_state
          (upsertCaseState quiet_env [opened_and_closed]
             (upsertCaseState quiet_env [opened_and_closed] world_after_second).2).2
          !! "CE24-0001" = Some row2
        /\ same_but_last_seen row1 row2
        /\ ("CE24-0001" ∉ map caseNo [opened_and_closed] -> row2 = row1)
  | None => True
  end.
Proof.
  pose proof (bulk_upsert_twice_changes_only_last_seen
                quiet_env quiet_env [opened_and_closed] world_after_second
                (upsertCaseState quiet_env [opened_and_closed] world_after_second).2
                (upsertCaseState quiet_env [opened_and_closed]
                   (upsertCaseState quiet_env [opened_and_closed]
                      world_after_second).2).2
                ltac:(vm_compute; reflexivity) ltac:(vm_compute; reflexivity)
                "CE24-0001") as H.
  destruct (case_state _ !! "CE24-0001"); [exact H | exact I].
Defined.

(* ===================================================================== *)
(** ** A delivery that differs outside the fingerprint *)
(* ===================================================================== *)

Lemma same_fingerprint_hash r r' :
  same_fingerprint_fields r r' -> generateCaseHash r = generateCaseHash r'.
Proof.
  intros (H1 & H2 & H3). unfold generateCaseHash, hash_content.
  by rewrite H1, H2, H3.
Qed.

Lemma same_fingerprint_keys records records' :
  Forall2 same_fingerprint_fields records records' ->
  map caseNo records = map caseNo records'.
Proof.
  induction 1 as [| r r' l l' Hr _ IH]; simpl; [reflexivity |].
  f_equal; [apply Hr | exact IH].
Qed.

Lemma same_fingerprint_dedupe records records' r' :
  Forall2 same_fingerprint_fields records records' ->
  r' ∈ dedupe records' ->
  exists r, r ∈ dedupe records /\ same_fingerprint_fields r r'.
Proof.
  intros HF Hr'. apply elem_of_dedupe in Hr' as (b' & a' & -> & Hnot).
  apply Forall2_app_inv_r in HF as (b & l & Hb & Hl & ->).
  apply Forall2_cons_inv_r in Hl as (r & a & Hr & Ha & ->).
  exists r. split; [| assumption]. apply elem_of_dedupe.
  exists b, a. split; [reflexivity |].
  rewrite (same_fingerprint_keys _ _ Ha). by destruct Hr as [-> _].
Qed.

(** A run on a batch whose fingerprints are all stored sends no request. *)
Lemma stored_fingerprints_mean_no_request config env records w1 res w2 :
  (forall r, r ∈ dedupe records ->
             exists row, case_state w1 !! caseNo r = Some row
                         /\ content_hash row = generateCaseHash r) ->
  processCasesSync config env records w1 = (res, w2) ->
  calls w2 = calls w1.
Proof.
  intros Hst Hrun2.
  assert (Hnil : find_changes (case_state w1) (dedupe records) = []).
  { apply find_changes_nil. intros r Hr. destruct (Hst r Hr) as (row & ? & ?). eauto. }
  set (I := fun w' : World => calls w' = calls w1).
  assert (Hstep : forall e w0, store_effect records e -> I w0 -> I (apply_effect e w0)).
  { intros e w0 He Hc. unfold I in *. by destruct e; simpl in *; try tauto. }
  revert Hrun2. unfold processCasesSync, bind at 1. rewrite createSyncLog_unfold.
  destruct (db_fault env (clock w1)).
  { intros [= _ <-]. by destruct (serial_drawn env (clock w1)). }
  set (w0 := set_sync_log _ _ (tick w1)).
  assert (HI0 : I w0) by reflexivity.
  unfold try_catch. rewrite sync_body_no_changes by exact Hnil.
  match goal with |- context [bind ?m ?k w0] => set (body := bind m k) end.
  assert (Hbody : traced (store_effect records) body).
  { apply traced_bind.
    - eapply traced_weaken; [| apply traced_diffCases]. effect_cases.
    - intros _. apply traced_bind.
      + eapply traced_weaken; [| apply traced_upsertCaseState]. effect_cases.
      + intros _. eapply traced_weaken; [| apply traced_completeSyncLog]. effect_cases. }
  pose proof (traced_invariant _ I body w0 Hbody Hstep HI0) as HIb.
  destruct (body w0) as [[[] | err] wb]; simpl in HIb.
  - by intros [= _ <-].
  - match goal with |- context [bind ?m ?k wb] => set (handler := bind m k) end.
    assert (Hh : traced (store_effect records) handler).
    { apply traced_bind; [| intros _; apply traced_throw].
      eapply traced_weaken; [| apply traced_completeSyncLog]. effect_cases. }
    pose proof (traced_invariant _ I handler wb Hh Hstep HIb) as HIh.
    intros Heq. by rewrite Heq in HIh.
Qed.

(** X19. After a run on a batch has returned, a delivery whose records
    agree with that batch, position by position, on case number, opened date
    and closed date, but may differ in type, subtype, address and raw row,
    sends no request to the remote API: the differences are not in the
    fingerprint. They are persisted all the same: when the run returns,
    the row of every case holds the fields of its last record in the new
    delivery. *)
Theorem changes_outside_the_fingerprint_are_stored_but_not_sent
        (config : Config) (env : Env)
        (records records' : list CodeEnforcementCaseRecord) (w w1 : World) :
  processCasesSync config env records w = (Ok tt, w1) ->
  Forall2 same_fingerprint_fields records records' ->
  forall (config' : Config) (env' : Env) (res : Result unit) (w2 : World),
    processCasesSync config' env' records' w1 = (res, w2) ->
    calls w2 = calls w1
    /\ (res = Ok tt ->
        forall r', r' ∈ dedupe records' ->
                   exists row, case_state w2 !! caseNo r' = Some row
                               /\ reflects r' row).
Proof.
  intros Hrun1 HF config' env' res w2 Hrun2. split.
  - apply (stored_fingerprints_mean_no_request config' env' records' w1 res w2);
      [| exact Hrun2].
    intros r' Hr'.
    destruct (same_fingerprint_dedupe _ _ _ HF Hr') as (r & Hr & Hsame).
    destruct (run_Ok_hashes config env records w w1 r Hrun1 Hr) as (row & Hrow & Hhash).
    exists row. rewrite <- (same_fingerprint_hash _ _ Hsame).
    destruct Hsame as [<- _]. by split.
  - intros -> r' Hr'.
    apply processCasesSync_Ok in Hrun2 as (wa & wb & u & e & _ & _ & Hup & Hdone).
    apply completeSyncLog_Ok in Hdone as (_ & _ & -> & _).
    destruct (upsertCaseState_Ok env' records' wa wb r' Hup Hr') as (row & Hrow & Hrefl & _).
    by exists row.
Qed.

Lemma changes_outside_the_fingerprint_witness :
  calls (processCasesSync updates_on ticket7_env [opened_only_moved] world_after_first).2
  = calls world_after_first
  /\ site_address
       <$> case_state
             (processCasesSync updates_on ticket7_env [opened_only_moved]
                               world_after_first).2 !! "CE24-0001"
     = Some "12 MAIN ST, CORONA, CA".
Proof.
  destruct (changes_outside_the_fingerprint_are_stored_but_not_sent
              updates_on quiet_env [opened_only] [opened_only_moved]
              empty_world world_after_first
              ltac:(vm_compute; reflexivity)
              ltac:(repeat constructor)
              updates_on ticket7_env
              (processCasesSync updates_on ticket7_env [opened_only_moved]
                                world_after_first).1
              (processCasesSync updates_on ticket7_env [opened_only_moved]
                                world_after_first).2
              ltac:(vm_compute; reflexivity)) as [Hcalls Hrows].
  split; [exact Hcalls |].
  destruct (Hrows ltac:(vm_compute; reflexivity) opened_only_moved
                  ltac:(vm_compute; repeat constructor))
    as (row & Hrow & Hrefl).
  change (caseNo opened_only_moved) with "CE24-0001" in Hrow.
  rewrite Hrow. simpl. f_equal. apply Hrefl.
Defined.

(* ===================================================================== *)
(** ** When the search is turned off *)
(* ===================================================================== *)

(** X20. With updates enabled and the search turned off, the loop counts
    every change that has no cached ticket id as "not found" and touches
    nothing: no request, no statement, not even a tick of the clock. *)
Theorem uncached_changes_are_not_found_when_search_is_off
        (config : Config) (env : Env) (changes : list CaseStateChange)
        (c : Counters) (w : World) :
  caseUpdatesEnabled config = true ->
  searchApiAvailable w = false ->
  Forall (fun change => cached_ticket_id change = None) changes ->
  process_changes config env changes c w
  = (Ok (mkCounters (processed c + length changes) (updated c)
                    (notFound c + length changes) (noChanges c) (errorCount c)),
     w).
Proof.
  intros Hon Hoff Hall. revert c.
  induction Hall as [| ch changes Hch _ IH]; intros c.
  - destruct c. simpl. unfold ret. by rewrite !Nat.add_0_r.
  - cbn [process_changes]. unfold bind at 1, try_catch, process_change.
    rewrite Hon. cbn [negb]. unfold bind at 1, find_ticket. rewrite Hch.
    rewrite findTicketByCaseNumber_disabled by exact Hoff.
    unfold ret at 1. rewrite IH. destruct c. simpl. do 3 f_equal; lia.
Qed.

Lemma uncached_changes_witness :
  process_changes updates_on ticket7_env
                  [new_change opened_only] zero_counters
                  (set_searchApiAvailable false empty_world)
  = (Ok (mkCounters 1 0 1 0 0), set_searchApiAvailable false empty_world).
Proof.
  apply (uncached_changes_are_not_found_when_search_is_off
           updates_on ticket7_env [new_change opened_only] zero_counters
           (set_searchApiAvailable false empty_world)).
  - reflexivity.
  - reflexivity.
  - repeat constructor.
Defined.

Section SearchOff.

Variable config : Config.
Variable env : Env.
Variable I : World -> Prop.

Lemma preserves_ret {X} (x : X) : preserves I (ret x).
Proof. by intros w Hw. Qed.

Lemma preserves_throw {X} e : preserves I (@throw X e).
Proof. by intros w Hw. Qed.

Lemma preserves_bind {X Y} (m : M X) (k : X -> M Y) :
  preserves I m -> (forall x, preserves I (k x)) -> preserves I (bind m k).
Proof.
  intros Hm Hk w Hw. unfold bind. specialize (Hm w Hw).
  destruct (m w) as [[x | e] w1]; simpl in *; [by apply Hk | assumption].
Qed.

Lemma preserves_try_catch {X} (m : M X) (h : JsError -> M X) :
  preserves I m -> (forall e, preserves I (h e)) -> preserves I (try_catch m h).
Proof.
  intros Hm Hh w Hw. unfold try_catch. specialize (Hm w Hw).
  destruct (m w) as [[x | e] w1]; simpl in *; [assumption | by apply Hh].
Qed.

Lemma preserves_traced {X} A (m : M X) :
  traced A m ->
  (forall e w0, A e -> I w0 -> I (apply_effect e w0)) ->
  preserves I m.
Proof. intros Hm Hstep w Hw. by apply (traced_invariant A I m w Hm Hstep). Qed.

End SearchOff.

Section SearchOffRun.

Variable config : Config.
Variable env : Env.
Variable w0 : World.

Lemma no_search_effect_keeps_off e w :
  no_search_effect e -> search_off_since w0 w -> search_off_since w0 (apply_effect e w).
Proof.
  unfold search_off_since. intros He [Hoff Hcalls].
  destruct e; simpl in *; try (by split).
  split; [assumption |]. by rewrite List.filter_app, Hcalls; simpl; rewrite He, app_nil_r.
Qed.

Lemma preserves_no_search {X} A (m : M X) :
  traced A m -> (forall e, A e -> no_search_effect e) ->
  preserves (search_off_since w0) m.
Proof.
  intros Hm HA. apply (preserves_traced _ A m Hm).
  intros e w He. apply no_search_effect_keeps_off. by apply HA.
Qed.

Lemma preserves_findTicketByCaseNumber k :
  preserves (search_off_since w0) (findTicketByCaseNumber env k).
Proof.
  intros w Hw. rewrite findTicketByCaseNumber_disabled; [exact Hw | apply Hw].
Qed.

Lemma preserves_find_ticket change :
  preserves (search_off_since w0) (find_ticket env change).
Proof.
  unfold find_ticket. destruct (cached_ticket_id change) as [tk |];
    [| apply preserves_findTicketByCaseNumber].
  apply preserves_bind.
  - apply (preserves_no_search _ _
             (traced_getTicketById_P env (fun c => is_search c = false) tk eq_refl)).
    effect_cases.
  - intros [t |]; [apply preserves_ret | apply preserves_findTicketByCaseNumber].
Qed.

Lemma preserves_link k tk :
  preserves (search_off_since w0) (updateCaseThreefoldId env k tk).
Proof.
  apply (preserves_no_search _ _ (traced_updateCaseThreefoldId env k tk)). effect_cases.
Qed.

Lemma preserves_process_change change c :
  preserves (search_off_since w0) (process_change config env change c).
Proof.
  unfold process_change. destruct (negb _); [apply preserves_ret |].
  apply preserves_bind; [apply preserves_find_ticket |].
  intros [t |]; [| apply preserves_ret].
  destruct (no_diff _).
  - apply preserves_bind; [apply preserves_link | intros _; apply preserves_ret].
  - apply preserves_bind.
    + apply (preserves_no_search _ _
               (traced_updateTicketCustomFields_P
                  env (fun c => is_search c = false) _ _ eq_refl)).
      effect_cases.
    + intros _. apply preserves_bind; [apply preserves_link | intros _; apply preserves_ret].
Qed.

Lemma preserves_process_changes changes c :
  preserves (search_off_since w0) (process_changes config env changes c).
Proof.
  revert c. induction changes as [| ch changes IH]; intros c; cbn [process_changes].
  - apply preserves_ret.
  - apply preserves_bind; [| intros c2; apply IH].
    apply preserves_try_catch; [apply preserves_process_change |].
    intros _. apply preserves_ret.
Qed.

Lemma preserves_completeSyncLog sid total changed errs msg :
  preserves (search_off_since w0) (completeSyncLog env sid total changed errs msg).
Proof.
  apply (preserves_no_search _ _ (traced_completeSyncLog env sid total changed errs msg)).
  effect_cases.
Qed.

Lemma preserves_upsertCaseState records :
  preserves (search_off_since w0) (upsertCaseState env records).
Proof.
  apply (preserves_no_search _ _ (traced_upsertCaseState env records)). effect_cases.
Qed.

Lemma preserves_processCasesSync records :
  preserves (search_off_since w0) (processCasesSync config env records).
Proof.
  unfold processCasesSync. apply preserves_bind.
  { apply (preserves_no_search _ _ (traced_createSyncLog env "cases")). effect_cases. }
  intros sid. apply preserves_try_catch.
  - unfold sync_body. apply preserves_bind.
    { apply (preserves_no_search _ _ (traced_diffCases env records)). effect_cases. }
    intros [| ch changes].
    + apply preserves_bind; [apply preserves_upsertCaseState |].
      intros _. apply preserves_completeSyncLog.
    + apply preserves_bind; [apply preserves_process_changes | intros c].
      apply preserves_bind; [apply preserves_upsertCaseState |].
      intros _. apply preserves_completeSyncLog.
  - intros err. apply preserves_bind; [apply preserves_completeSyncLog |].
    intros _. apply preserves_throw.
Qed.

End SearchOffRun.

(** X21. Once the search is turned off, a run sends no search request,
    whatever its batch, configuration and environment, and leaves the search
    turned off: cases without a usable cached ticket id are no longer looked
    up. *)
Theorem no_search_request_once_search_is_off
        (config : Config) (env : Env)
        (records : list CodeEnforcementCaseRecord) (w : World) :
  searchApiAvailable w = false ->
  searchApiAvailable (processCasesSync config env records w).2 = false
  /\ List.filter is_search (calls (processCasesSync config env records w).2)
     = List.filter is_search (calls w).
Proof.
  intros Hoff.
  apply (preserves_processCasesSync config env w records w). by split.
Qed.

Lemma no_search_request_witness :
  searchApiAvailable
    (processCasesSync updates_on ticket7_env [opened_and_closed]
                      (set_searchApiAvailable false world_after_first)).2 = false
  /\ List.filter is_search
       (calls (processCasesSync updates_on ticket7_env [opened_and_closed]
                                (set_searchApiAvailable false world_after_first)).2)
     = List.filter is_search (calls (set_searchApiAvailable false world_after_first)).
Proof.
  apply (no_search_request_once_search_is_off
           updates_on ticket7_env [opened_and_closed]
           (set_searchApiAvailable false world_after_first)).
  reflexivity.
Defined.

(* ===================================================================== *)
(** ** The inbound-email handler *)
(* ===================================================================== *)

Section WebhookFacts.

Variable trim : string -> string.
Variable toLowerCase : string -> string.
Variable csv_parse : string -> Result (list (gmap string string)).
Variable config : Config.
Variable env : Env.

Lemma process_attachments_only_csv atts :
  process_attachments trim csv_parse config env atts
  = process_attachments trim csv_parse config env (List.filter is_csv atts).
Proof.
  induction atts as [| a atts IH]; [reflexivity |].
  cbn [process_attachments List.filter]. destruct (is_csv a) eqn:E.
  - cbn [process_attachments]. unfold is_csv in E. rewrite E. cbn [negb].
    by rewrite IH.
  - unfold is_csv in E. rewrite E. cbn [negb]. exact IH.
Qed.

Lemma process_attachments_no_csv atts w :
  Forall (fun a => is_csv a = false) atts ->
  process_attachments trim csv_parse config env atts w = (Ok tt, w).
Proof.
  induction 1 as [| a atts Ha _ IH]; [reflexivity |].
  cbn [process_attachments]. unfold is_csv in Ha. by rewrite Ha.
Qed.

Lemma process_attachments_Throw atts w e w' :
  process_attachments trim csv_parse config env atts w = (Throw e, w') ->
  Exists (fun a => is_csv a = true) atts.
Proof.
  induction atts as [| a atts IH]; [discriminate |].
  cbn [process_attachments]. destruct (endsWith ".csv" (filename a)) eqn:E; cbn [negb].
  - intros _. by apply Exists_cons_hd.
  - intros H. apply Exists_cons_tl. by apply IH.
Qed.

Lemma traced_parse_csv_text A text :
  traced A (parse_csv_text trim csv_parse text).
Proof.
  intros w. exists []. unfold parse_csv_text.
  split; [| constructor]. by destruct (csv_parse _).
Qed.

Lemma parsed_cases_are_valid rows :
  Forall (fun r => isValidCaseNo (caseNo r) = true)
         (parseCodeEnforcementCasesCsv trim rows).1.
Proof.
  unfold parseCodeEnforcementCasesCsv. rewrite parse_rows_spec. simpl.
  apply Forall_forall. intros r Hr.
  apply list_elem_of_fmap in Hr as (row & -> & Hrow).
  apply list_elem_of_In, filter_In in Hrow as [_ Hvalid]. exact Hvalid.
Qed.

Lemma traced_valid_run records :
  Forall (fun r => isValidCaseNo (caseNo r) = true) records ->
  traced valid_case_effect (processCasesSync config env records).
Proof.
  intros Hall. rewrite Forall_forall in Hall.
  assert (Hkeys : forall k, k ∈ map caseNo records -> isValidCaseNo k = true).
  { intros k Hk. apply list_elem_of_fmap in Hk as (r & -> & Hr). by apply Hall. }
  eapply traced_weaken; [| apply traced_processCasesSync_on].
  intros e He. destruct e; simpl in *; try tauto.
  - apply Hall. by apply dedupe_subseteq.
  - by apply Hkeys.
  - destruct c; simpl in *; try tauto. apply Hkeys, He.
Qed.

Lemma traced_process_attachments atts :
  traced valid_case_effect (process_attachments trim csv_parse config env atts).
Proof.
  induction atts as [| a atts IH]; cbn [process_attachments]; [apply traced_ret |].
  destruct (negb _); [exact IH |].
  apply (traced_bind_post _ (Forall (fun r => isValidCaseNo (caseNo r) = true))).
  - intros w cases w'. unfold parse_csv_text.
    destruct (csv_parse _) as [rows |]; [| discriminate].
    intros [= <- _]. apply parsed_cases_are_valid.
  - apply traced_parse_csv_text.
  - intros cases Hvalid.
    apply traced_bind; [by apply traced_valid_run | intros _; exact IH].
Qed.

Lemma valid_case_effect_step w0 e w :
  valid_case_effect e -> only_valid_since w0 w -> only_valid_since w0 (apply_effect e w).
Proof.
  unfold only_valid_since. intros He [Hrows Hcalls].
  destruct e; simpl in *; try (by split).
  - split; [| assumption]. intros k Hk.
    destruct (decide (k = caseNo record)) as [-> | Hne]; [by right |].
    rewrite upsert_row_other in Hk by assumption. by apply Hrows.
  - split; [| assumption]. intros k Hk.
    apply lookup_alter_is_Some in Hk. by apply Hrows.
  - split; [assumption |]. intros k limit incl Hin.
    apply elem_of_app in Hin as [Hin | Hin]; [by apply Hcalls |].
    apply list_elem_of_singleton in Hin. subst c. by right.
Qed.

Lemma on_finish_only_valid email w :
  only_valid_since w (on_finish trim toLowerCase csv_parse config env email w).2.
Proof.
  apply (traced_invariant valid_case_effect (only_valid_since w)).
  - unfold on_finish. apply traced_try_catch; [| intros _; apply traced_ret].
    destruct (negb _); [apply traced_ret |].
    apply traced_bind; [apply traced_process_attachments | intros _; apply traced_ret].
  - intros e w0. apply valid_case_effect_step.
  - split; intros; by left.
Qed.

End WebhookFacts.

(** X22. The [finish] handler never throws: it answers "ignored",
    "success" or "failed". It answers "failed" only for a case email with
    an attachment whose name ends in ".csv"; an email that is not a case
    email, and a case email without such an attachment, leave the world
    untouched. Attachments are taken by the exact, case-sensitive ending
    ".csv": handling a list of attachments is handling its CSV members. *)
Theorem handler_never_throws_and_skips_what_is_not_csv
        (trim toLowerCase : string -> string)
        (csv_parse : string -> Result (list (gmap string string)))
        (config : Config) (env : Env) (email : ParsedEmail) (w : World) :
  (exists reply w',
      on_finish trim toLowerCase csv_parse config env email w = (Ok reply, w')
      /\ (reply = ReplyFailed ->
          isCaseEmail toLowerCase email = true
          /\ Exists (fun a => is_csv a = true) (attachments email))
      /\ (isCaseEmail toLowerCase email = false -> reply = ReplyIgnored /\ w' = w)
      /\ (isCaseEmail toLowerCase email = true ->
          Forall (fun a => is_csv a = false) (attachments email) ->
          reply = ReplySuccess /\ w' = w))
  /\ process_attachments trim csv_parse config env (attachments email)
     = process_attachments trim csv_parse config env
         (List.filter is_csv (attachments email)).
Proof.
  split; [| apply process_attachments_only_csv].
  unfold on_finish, try_catch.
  destruct (isCaseEmail toLowerCase email) eqn:Hcase; cbn [negb].
  - unfold bind.
    destruct (process_attachments trim csv_parse config env (attachments email) w)
      as [[[] | err] w1] eqn:Hrun.
    + exists ReplySuccess, w1. split; [reflexivity |].
      split; [discriminate |]. split; [discriminate |].
      intros _ Hnone. rewrite process_attachments_no_csv in Hrun by exact Hnone.
      injection Hrun as <-. by split.
    + exists ReplyFailed, w1. split; [reflexivity |].
      split; [| split; [discriminate |]].
      * intros _. split; [reflexivity |].
        by apply (process_attachments_Throw trim csv_parse config env _ w err w1).
      * intros _ Hnone. rewrite process_attachments_no_csv in Hrun by exact Hnone.
        discriminate.
  - exists ReplyIgnored, w. split; [reflexivity |].
    split; [discriminate |]. split; [by split | discriminate].
Qed.

(** An attachment named with an upper-case extension is recognised as a
    case email by the lower-cased name test, and then skipped by the
    case-sensitive ".csv" test: the answer is "success" and nothing ran. *)
Example upper_case_extension_is_skipped :
  on_finish ascii_trim ascii_lower one_column_reader updates_on quiet_env
            (cases_email "CODE_ENFORCEMENT_CASES.CSV" "CE24-0001") empty_world
  = (Ok ReplySuccess, empty_world)
  /\ is_Some
       (case_state
          (on_finish ascii_trim ascii_lower one_column_reader updates_on quiet_env
                     (cases_email "code_enforcement_cases.csv" "CE24-0001")
                     empty_world).2 !! "CE24-0001").
Proof. split; [vm_compute; reflexivity |]. vm_compute. eauto. Qed.

(** X23. Whatever email arrives, the handler keeps to validated case
    numbers: every row of [case_state] after it was there before or is
    stored under a case number that passes [isValidCaseNo], and every
    search request logged after it was logged before or names such a case
    number. *)
Theorem handler_touches_validated_case_numbers_only
        (trim toLowerCase : string -> string)
        (csv_parse : string -> Result (list (gmap string string)))
        (config : Config) (env : Env) (email : ParsedEmail) (w : World) :
  (forall k,
      is_Some (case_state
                 (on_finish trim toLowerCase csv_parse config env email w).2 !! k) ->
      is_Some (case_state w !! k) \/ isValidCaseNo k = true)
  /\ (forall k limit incl,
         SearchCall k limit incl
           ∈ calls (on_finish trim toLowerCase csv_parse config env email w).2 ->
         SearchCall k limit incl ∈ calls w \/ isValidCaseNo k = true).
Proof. apply on_finish_only_valid. Qed.

(* ===================================================================== *)
(** ** Runs on a healthy store, continued *)
(* ===================================================================== *)

(** X24. A run fails only when the store fails. If the store executes
    every statement from the start of the run on, the run returns, whatever
    its batch and configuration and whatever the remote API does: rejected
    requests, error statuses and network failures are counted per change
    and never abort the run. *)
Theorem run_returns_when_the_store_is_healthy
        (config : Config) (env : Env)
        (records : list CodeEnforcementCaseRecord) (w : World) :
  (forall t, (clock w <= t)%nat -> db_fault env t = None) ->
  exists w', processCasesSync config env records w = (Ok tt, w').
Proof.
  intros Hhealthy.
  destruct (returns_processCasesSync config env records w Hhealthy)
    as ([] & w' & Hrun & _).
  by exists w'.
Qed.

Lemma run_returns_witness :
  exists w',
    processCasesSync updates_on remote_down_env [opened_only; opened_and_closed]
                     world_after_first
    = (Ok tt, w').
Proof.
  apply (run_returns_when_the_store_is_healthy
           updates_on remote_down_env [opened_only; opened_and_closed]
           world_after_first).
  intros t _. reflexivity.
Defined.

(* ===================================================================== *)
(** ** What the change detector reports *)
(* ===================================================================== *)

(** X25. [diffCases] only reads: whether it returns or throws, the rows,
    the run log and the request log are as before. When it returns, it
    reports exactly the cases of the deduplicated batch that are unknown or
    whose stored hash differs. An unknown case is reported as new: with the
    record and its hash, [isNew] set, and no previous hash, dates, status or
    ticket id. A known case whose stored hash differs is reported as not
    new, with the record and its hash and with the stored hash, opened
    date, closed date, status and cached ticket id of its row. A known case
    with the same hash is not reported. Every reported change is of one of
    these two kinds. *)
Theorem diffCases_reports_exactly_the_new_and_the_changed
        (env : Env) (records : list CodeEnforcementCaseRecord)
        (w : World) (res : Result (list CaseStateChange)) (w' : World) :
  diffCases env records w = (res, w') ->
  (case_state w' = case_state w /\ sync_log w' = sync_log w /\ calls w' = calls w)
  /\ forall changes, res = Ok changes ->
       (forall r, r ∈ dedupe records ->
          case_state w !! caseNo r = None ->
          mkChange (caseNo r) r None (generateCaseHash r) true None None None None
          ∈ changes)
       /\ (forall r row, r ∈ dedupe records ->
             case_state w !! caseNo r = Some row ->
             content_hash row <> generateCaseHash r ->
             mkChange (caseNo r) r (Some (content_hash row)) (generateCaseHash r) false
                      (case_opened row) (case_closed row) (Some (case_status row))
                      (threefold_ticket_id row)
             ∈ changes)
       /\ (forall r row, r ∈ dedupe records ->
             case_state w !! caseNo r = Some row ->
             content_hash row = generateCaseHash r ->
             caseNo r ∉ map ch_caseNo changes)
       /\ (forall ch, ch ∈ changes ->
             exists r, r ∈ dedupe records
               /\ ((case_state w !! caseNo r = None
                    /\ ch = mkChange (caseNo r) r None (generateCaseHash r) true
                                     None None None None)
                   \/ (exists row,
                         case_state w !! caseNo r = Some row
                         /\ content_hash row <> generateCaseHash r
                         /\ ch = mkChange (caseNo r) r (Some (content_hash row))
                                          (generateCaseHash r) false
                                          (case_opened row) (case_closed row)
                                          (Some (case_status row))
                                          (threefold_ticket_id row)))).
Proof.
  intros Hd. split.
  - revert Hd. unfold diffCases, pool_connect, select_states, bind, db_exec, ret. simpl.
    destruct (db_fault env (clock w)); [by intros [= _ <-] |].
    destruct (db_fault env (clock (tick w))); by intros [= _ <-].
  - intros changes ->. apply diffCases_Ok in Hd as [-> _].
    split; [| split; [| split]].
    + intros r Hr Hnone. apply elem_of_find_changes. exists r.
      split; [assumption |]. left. by split.
    + intros r row Hr Hrow Hne. apply elem_of_find_changes. exists r.
      split; [assumption |]. right. exists row. by repeat split.
    + intros r row Hr Hrow Heq Hin.
      apply list_elem_of_fmap in Hin as (ch & Hk & Hch).
      apply elem_of_find_changes in Hch as (r2 & Hr2 & Hcase).
      assert (Hk2 : caseNo r = caseNo r2).
      { destruct Hcase as [[_ ->] | (st & _ & _ & ->)]; exact Hk. }
      pose proof (dedupe_inj records r r2 Hr Hr2 Hk2) as <-.
      destruct Hcase as [[Hnone _] | (st & Hst & Hne & _)]; congruence.
    + intros ch Hch. apply elem_of_find_changes in Hch as (r & Hr & Hcase).
      exists r. split; [assumption |].
      destruct Hcase as [[Hnone ->] | (st & Hst & Hne & ->)].
      * left. by split.
      * right. exists st. by repeat split.
Qed.

Lemma diffCases_reports_witness :
  mkChange "CE24-0001" opened_only
           (Some "bd77b46805b8d1fc") (generateCaseHash opened_only)
           false (Some "2025-01-01") (Some "2025-02-01") (Some "closed") (Some 7)
  ∈ find_changes (case_state world_after_second) (dedupe [opened_only]).
Proof.
  destruct (diffCases_reports_exactly_the_new_and_the_changed
              quiet_env [opened_only] world_after_second
              (diffCases quiet_env [opened_only] world_after_second).1
              (diffCases quiet_env [opened_only] world_after_second).2)
    as [_ Hrep].
  { vm_compute. reflexivity. }
  destruct (Hrep (find_changes (case_state world_after_second) (dedupe [opened_only])))
    as (_ & Hchanged & _).
  { vm_compute. reflexivity. }
  apply (Hchanged opened_only
           (mkRow (Some "2025-01-01") (Some "2025-02-01") "closed"
                  "CODE ENFORCEMENT" "" "" ∅
                  "bd77b46805b8d1fc" (Some 7) 14 5)).
  - vm_compute. constructor.
  - vm_compute. reflexivity.
  - vm_compute. discriminate.
Defined.

(* ===================================================================== *)
(** ** A search answered with 405 *)
(* ===================================================================== *)

(** X26. When the search endpoint answers a lookup with status 405,
    whatever the body, the lookup sends that one search request, reads as
    "no ticket" and turns the search off; in the world it leaves, every
    later lookup by case number answers "no ticket" at once, without a
    request and without a tick, for every case number and environment. *)
Theorem search_answered_405_turns_search_off_for_good
        (env : Env) (k : string) (w : World)
        (text : string) (data : list TicketWithCustomFields) :
  searchApiAvailable w = true ->
  search_reply env (clock w) = Response 405 text data ->
  exists w1,
    findTicketByCaseNumber env k w = (Ok None, w1)
    /\ searchApiAvailable w1 = false
    /\ calls w1 = (calls w ++ [SearchCall k 1 true])%list
    /\ forall env' k', findTicketByCaseNumber env' k' w1 = (Ok None, w1).
Proof.
  intros Hon Hreply. eexists.
  split; [eapply findTicketByCaseNumber_405; eassumption |].
  split; [reflexivity |]. split; [reflexivity |].
  intros env' k'. by apply findTicketByCaseNumber_disabled.
Qed.

Lemma search_answered_405_witness :
  exists w1,
    findTicketByCaseNumber search_405_env "CE24-0001" empty_world = (Ok None, w1)
    /\ searchApiAvailable w1 = false
    /\ calls w1 = (calls empty_world ++ [SearchCall "CE24-0001" 1 true])%list
    /\ forall env' k', findTicketByCaseNumber env' k' w1 = (Ok None, w1).
Proof.
  apply (search_answered_405_turns_search_off_for_good
           search_405_env "CE24-0001" empty_world "Method Not Allowed" []).
  - reflexivity.
  - reflexivity.
Defined.
